(** * The Wright System counting engine of [wright.py]

    A shallow embedding of the classes [Candidate], [Vote] and
    [WrightSystem], and the properties of the count.

    Conventions of the embedding.
    - [total_value], [value], [total_votes] and [quota] are Python floats in
      the script.  The embedding comes twice.  In the first the numbers are
      exact rationals ([Q]), with Python's [==], [<], [>=] read as
      [Qeq_bool], [Qltb], [Qle_bool]; the invariants of the count are proved
      over it, and the statements about a run are kept to what assignments,
      comparisons, set membership and whole-number values decide, so that
      rounding does not bear on them.  The second, [Binary64], is the same
      code over IEEE 754 binary64 and is run where rounding decides.
    - Python objects are mutable and shared.  A [Candidate] object is
      referred to by its name (the constructor creates one object per name),
      a [Vote] object by its ballot id (the key of the [ballots] dict), and
      the objects themselves live in the state: [candidates], [detached] and
      [votes].  A reference that denotes no object cannot occur in Python;
      following one in the model yields [Err DanglingRef].
    - A [dict] is the list of its values in insertion order, the keys of
      [ballots] being distinct; a [set] is a duplicate-free list, iterated
      in insertion order.  (Python fixes no order for a set; the
      statements about vote sets are about membership.)
    - [logging.info] / [logging.warning] append an [Event] to [log]
      (most recent first).
    - [random.choice] takes its draw from an explicit argument.
    - A [while] loop is a [Fixpoint] on fuel; [Err OutOfFuel] is returned
      when the fuel does not suffice. *)

From Stdlib Require Import String Ascii ZArith QArith Qround Lia Lqa Bool Arith List ListSet.
From Stdlib Require Import Permutation SpecFloat.
Import ListNotations.

(** ** Results and exceptions *)

Inductive error : Type :=
| ValueError          (* max() / min() of an empty sequence *)
| IndexError          (* random.choice of an empty sequence *)
| ZeroDivisionError
| AttributeError      (* None.alloc_vote *)
| KeyError            (* del of a missing dict key *)
| NotElected          (* Exception("tried to get winners without election!") *)
| DanglingRef         (* a reference without object: not a Python behaviour *)
| OutOfFuel           (* the fuel of a while loop ran out: not a Python behaviour *)
| OverflowError.      (* int too large to convert to float; math.floor(inf) *)

Inductive result (A : Type) : Type :=
| Ok (a : A)
| Err (e : error).

Arguments Ok {A} a.
Arguments Err {A} e.

Definition bind {A B : Type} (m : result A) (k : A -> result B) : result B :=
  match m with
  | Ok a => k a
  | Err e => Err e
  end.

Notation "x <- m ;; k" := (bind m (fun x => k))
  (at level 61, m at next level, right associativity).

(** ** Numbers *)

Definition Qltb (x y : Q) : bool := negb (Qle_bool y x).

Definition Qsum (l : list Q) : Q := fold_right Qplus 0%Q l.

(** ** class Candidate *)

Module Candidate.

Record t : Type := mk {
  name : string;
  votes : list Z;          (* set of allocated Vote objects, by id *)
  total_value : Q
}.

(** [__init__] *)
Definition new (n : string) : t := mk n [] 0%Q.

(** [alloc_vote]: [self.total_value += vote.value; self.votes.add(vote)] *)
Definition alloc_vote (self : t) (vote : Z) (vote_value : Q) : t :=
  mk (name self)
     (set_add Z.eq_dec vote (votes self))
     (total_value self + vote_value)%Q.

(** [__lt__]: [other.total_value < self.total_value] *)
Definition lt (self other : t) : bool :=
  Qltb (total_value other) (total_value self).

(** [self > other].  The class defines no [__gt__], so Python evaluates
    the reflected [other.__lt__(self)]. *)
Definition gt (self other : t) : bool := lt other self.

End Candidate.

(** ** class Vote *)

Module Vote.

Record t : Type := mk {
  id : Z;
  preference : list string;   (* references to Candidate objects *)
  value : Q
}.

(** [__init__] *)
Definition new (i : Z) (pref : list string) : t := mk i pref 1%Q.

(** [get_preference] *)
Definition get_preference (self : t) : option string :=
  match preference self with
  | [] => None
  | c :: _ => Some c
  end.

(** [get_preference_excluding] *)
Definition get_preference_excluding (self : t) (excluding : list string)
  : option string :=
  find (fun c => negb (existsb (String.eqb c) excluding)) (preference self).

End Vote.

(** ** Builtins *)

(** [max(iterable)] over candidates: the running maximum is replaced when
    [item > maxitem]. *)
Fixpoint max_from (maxitem : Candidate.t) (rest : list Candidate.t)
  : Candidate.t :=
  match rest with
  | [] => maxitem
  | item :: rest' =>
      max_from (if Candidate.gt item maxitem then item else maxitem) rest'
  end.

Definition py_max (l : list Candidate.t) : result Candidate.t :=
  match l with
  | [] => Err ValueError
  | item :: rest => Ok (max_from item rest)
  end.

(** [min(iterable)] over numbers: the running minimum is replaced when
    [item < minitem]. *)
Fixpoint min_from (minitem : Q) (rest : list Q) : Q :=
  match rest with
  | [] => minitem
  | item :: rest' => min_from (if Qltb item minitem then item else minitem) rest'
  end.

Definition py_min (l : list Q) : result Q :=
  match l with
  | [] => Err ValueError
  | item :: rest => Ok (min_from item rest)
  end.

(** [random.choice(seq)] with the draw made explicit. *)
Definition choice {A : Type} (draw : nat) (l : list A) : result A :=
  match nth_error l (draw mod length l) with
  | Some x => Ok x
  | None => Err IndexError
  end.

(** [list.remove(x)]: deletes the first occurrence. *)
Fixpoint list_remove (x : string) (l : list string) : list string :=
  match l with
  | [] => []
  | y :: l' => if String.eqb x y then l' else y :: list_remove x l'
  end.

(** ** class WrightSystem *)

Inductive Event : Type :=
| StartingRound (round_nr : nat)
| RemovingExhausted (exhausted : list Z)
| CalculatedQuota (q : Q)
| SurplusValue (candidate : string) (surplus : Q)
| ExhaustedWithValue (vote : Z)
| AddingSTV (value : Q) (vote : Z) (next_preference : string)
| VotesAfterSurplus (cs : list Candidate.t)
| ExcludingByLot
| Excluding (candidate : string).

Record State : Type := mkState {
  vacancies : Z;
  candidates : list Candidate.t;        (* self.candidates, a dict by name *)
  detached : list Candidate.t;          (* Candidate objects deleted from
                                           self.candidates that preference
                                           lists may still reference *)
  votes : list Vote.t;                  (* self.votes *)
  provisional_winners : list string;    (* references to Candidate objects *)
  total_votes : Q;                      (* set by distribution_of_preferences *)
  quota : Q;                            (* set by distribution_of_preferences *)
  log : list Event
}.

Definition set_candidates (cs : list Candidate.t) (s : State) : State :=
  mkState (vacancies s) cs (detached s) (votes s) (provisional_winners s)
          (total_votes s) (quota s) (log s).

Definition set_detached (ds : list Candidate.t) (s : State) : State :=
  mkState (vacancies s) (candidates s) ds (votes s) (provisional_winners s)
          (total_votes s) (quota s) (log s).

Definition set_votes (vs : list Vote.t) (s : State) : State :=
  mkState (vacancies s) (candidates s) (detached s) vs (provisional_winners s)
          (total_votes s) (quota s) (log s).

Definition set_provisional_winners (pw : list string) (s : State) : State :=
  mkState (vacancies s) (candidates s) (detached s) (votes s) pw
          (total_votes s) (quota s) (log s).

Definition set_total_votes (tv : Q) (s : State) : State :=
  mkState (vacancies s) (candidates s) (detached s) (votes s)
          (provisional_winners s) tv (quota s) (log s).

Definition set_quota (q : Q) (s : State) : State :=
  mkState (vacancies s) (candidates s) (detached s) (votes s)
          (provisional_winners s) (total_votes s) q (log s).

Definition logging (e : Event) (s : State) : State :=
  mkState (vacancies s) (candidates s) (detached s) (votes s)
          (provisional_winners s) (total_votes s) (quota s) (e :: log s).

Definition has_name (n : string) (c : Candidate.t) : bool :=
  String.eqb n (Candidate.name c).

Definition has_id (i : Z) (v : Vote.t) : bool := Z.eqb i (Vote.id v).

(** [add_candidate] *)
Definition add_candidate (n : string) (s : State) : State :=
  if existsb (has_name n) (candidates s) then s
  else set_candidates (candidates s ++ [Candidate.new n]) s.

(** One iteration of the loop of [__init__]. *)
Definition add_ballot (s : State) (ballot : Z * list string) : State :=
  let (i, preference) := ballot in
  let s := fold_left (fun s c => add_candidate c s) preference s in
  set_votes (votes s ++ [Vote.new i preference]) s.

(** [__init__] up to the call of [elect].  [total_votes] and [quota] do not
    exist as attributes yet; no method reads them before
    [distribution_of_preferences] has set them. *)
Definition init (vacancies0 : Z) (ballots : list (Z * list string)) : State :=
  fold_left add_ballot ballots (mkState vacancies0 [] [] [] [] 0%Q 0%Q []).

(** [c.alloc_vote(vote)] on the object that [n] refers to. *)
Definition alloc_in (n : string) (vote : Vote.t) (cs : list Candidate.t)
  : list Candidate.t :=
  map (fun c => if has_name n c
                then Candidate.alloc_vote c (Vote.id vote) (Vote.value vote)
                else c) cs.

Definition alloc_vote (n : string) (vote : Vote.t) (s : State) : result State :=
  if existsb (has_name n) (candidates s) then
    Ok (set_candidates (alloc_in n vote (candidates s)) s)
  else if existsb (has_name n) (detached s) then
    Ok (set_detached (alloc_in n vote (detached s)) s)
  else Err DanglingRef.

(** [[c for c in self.candidates.values() if c.total_value >= self.quota]] *)
Definition winners_of (s : State) : list string :=
  map Candidate.name
      (filter (fun c => Qle_bool (quota s) (Candidate.total_value c))
              (candidates s)).

Definition exhausted (v : Vote.t) : bool :=
  match Vote.preference v with
  | [] => true
  | _ :: _ => false
  end.

Definition reset (c : Candidate.t) : Candidate.t :=
  Candidate.mk (Candidate.name c) [] 0%Q.

(** [vote.value = x] *)
Definition set_value (x : Q) (vote : Vote.t) : Vote.t :=
  Vote.mk (Vote.id vote) (Vote.preference vote) x.

(** The loop [for vote in self.votes] of [distribution_of_preferences]; the
    votes already visited are collected in [votes s]. *)
Fixpoint distribute (todo : list Vote.t) (s : State) : result State :=
  match todo with
  | [] => Ok s
  | vote :: rest =>
      let vote := set_value 1%Q vote in
      match Vote.get_preference vote with
      | None => Err AttributeError
      | Some candidate =>
          s <- alloc_vote candidate vote s ;;
          distribute rest
            (set_total_votes (total_votes s + Vote.value vote)%Q
               (set_votes (votes s ++ [vote]) s))
      end
  end.

(** [distribution_of_preferences] *)
Definition distribution_of_preferences (s : State) : result State :=
  let s := set_provisional_winners [] s in
  let s := set_total_votes 0%Q s in
  let s := set_candidates (map reset (candidates s)) s in
  let s := logging (RemovingExhausted
                      (map Vote.id (filter exhausted (votes s)))) s in
  let active := filter (fun v => negb (exhausted v)) (votes s) in
  s <- distribute active (set_votes [] s) ;;
  if Z.eqb (1 + vacancies s) 0 then Err ZeroDivisionError else
  let s := set_quota
             (inject_Z (Qfloor (total_votes s / inject_Z (1 + vacancies s)))
              + 1)%Q s in
  let s := logging (CalculatedQuota (quota s)) s in
  Ok (set_provisional_winners (winners_of s) s).

(** [check_all_vacancies_filled] *)
Definition check_all_vacancies_filled (s : State) : bool :=
  (Z.of_nat (length (candidates s)) <=? vacancies s)%Z
  || (vacancies s <=? Z.of_nat (length (provisional_winners s)))%Z.

(** [get_winners]: what the call returns or raises, and the state it
    leaves.  The candidates are returned by reference. *)
Definition get_winners (s : State) : result (list string) * State :=
  if (Z.of_nat (length (candidates s)) <=? vacancies s)%Z then
    (Ok (map Candidate.name (candidates s)), s)
  else if (vacancies s <=? Z.of_nat (length (provisional_winners s)))%Z then
    (Ok (provisional_winners s), s)
  else (Err NotElected, s).

Definition has_surplus (s : State) (c : Candidate.t) : bool :=
  Qltb (quota s) (Candidate.total_value c).

(** [check_if_candidates_surplus] *)
Definition check_if_candidates_surplus (s : State) : bool :=
  existsb (has_surplus s) (candidates s).

(** [max(candidates_with_surplus)] *)
Definition surplus_candidate (s : State) : result Candidate.t :=
  py_max (filter (has_surplus s) (candidates s)).

Definition update_vote (vote : Vote.t) (vs : list Vote.t) : list Vote.t :=
  map (fun v => if has_id (Vote.id vote) v then vote else v) vs.

(** The loop [for vote in candidate.votes] of [calc_and_distribute_surplus]. *)
Fixpoint transfer (todo : list Z) (surplus_transfer_value : Q) (s : State)
  : result State :=
  match todo with
  | [] => Ok s
  | i :: rest =>
      match find (has_id i) (votes s) with
      | None => Err DanglingRef
      | Some vote =>
          let vote :=
            set_value (Vote.value vote * surplus_transfer_value)%Q vote in
          let s := set_votes (update_vote vote (votes s)) s in
          match Vote.get_preference_excluding vote (provisional_winners s) with
          | None =>
              transfer rest surplus_transfer_value
                       (logging (ExhaustedWithValue i) s)
          | Some next_preference =>
              s <- alloc_vote next_preference vote
                     (logging (AddingSTV (Vote.value vote) i next_preference) s) ;;
              transfer rest surplus_transfer_value s
          end
      end
  end.

(** [candidate.total_value = self.quota] *)
Definition set_total_value (q : Q) (c : Candidate.t) : Candidate.t :=
  Candidate.mk (Candidate.name c) (Candidate.votes c) q.

Definition clamp (n : string) (q : Q) (cs : list Candidate.t)
  : list Candidate.t :=
  map (fun c => if has_name n c then set_total_value q c else c) cs.

(** [calc_and_distribute_surplus] *)
Definition calc_and_distribute_surplus (s : State) : result State :=
  candidate <- surplus_candidate s ;;
  let surplus := (Candidate.total_value candidate - quota s)%Q in
  let s := logging (SurplusValue (Candidate.name candidate) surplus) s in
  if Qeq_bool (Candidate.total_value candidate) 0 then Err ZeroDivisionError else
  let surplus_transfer_value := (surplus / Candidate.total_value candidate)%Q in
  s <- transfer (Candidate.votes candidate) surplus_transfer_value s ;;
  let s := set_candidates
             (clamp (Candidate.name candidate) (quota s) (candidates s)) s in
  Ok (set_provisional_winners (winners_of s) s).

(** [del self.candidates[key]]: the entry and the remaining dict. *)
Fixpoint pop_key (n : string) (cs : list Candidate.t)
  : option (Candidate.t * list Candidate.t) :=
  match cs with
  | [] => None
  | c :: cs' =>
      if has_name n c then Some (c, cs')
      else match pop_key n cs' with
           | Some (x, rest) => Some (x, c :: rest)
           | None => None
           end
  end.

(** [if excluded in vote.preference: vote.preference.remove(excluded)] *)
Definition strike (n : string) (v : Vote.t) : Vote.t :=
  if existsb (String.eqb n) (Vote.preference v)
  then Vote.mk (Vote.id v) (list_remove n (Vote.preference v)) (Vote.value v)
  else v.

(** The first two statements of [exclusion_of_candidates]: the candidates
    on the least [total_value]. *)
Definition minimum_votes (s : State) : result (list Candidate.t) :=
  min_total_val <- py_min (map Candidate.total_value (candidates s)) ;;
  Ok (filter (fun c => Qeq_bool (Candidate.total_value c) min_total_val)
             (candidates s)).

(** [exclusion_of_candidates]; [draw] is the outcome of the random source. *)
Definition exclusion_of_candidates (draw : nat) (s : State) : result State :=
  minimum <- minimum_votes s ;;
  let s := if (1 <? length minimum)%nat
           then logging ExcludingByLot s else s in
  excluded <- choice draw minimum ;;
  let s := logging (Excluding (Candidate.name excluded)) s in
  let s := set_votes (map (strike (Candidate.name excluded)) (votes s)) s in
  match pop_key (Candidate.name excluded) (candidates s) with
  | None => Err KeyError
  | Some (obj, rest) => Ok (set_detached (obj :: detached s) (set_candidates rest s))
  end.

(** The inner loop of [elect]:
    [while self.check_if_candidates_surplus(): ...].  The boolean tells
    whether the loop left through [return]. *)
Fixpoint surplus_loop (fuel : nat) (s : State) : result (bool * State) :=
  if check_if_candidates_surplus s then
    match fuel with
    | O => Err OutOfFuel
    | S fuel' =>
        s <- calc_and_distribute_surplus s ;;
        if check_all_vacancies_filled s then Ok (true, s)
        else surplus_loop fuel' s
    end
  else Ok (false, s).

(** The outer loop of [elect]; [lots round_nr] is the draw of the random
    source in round [round_nr]. *)
Fixpoint elect_loop (fuel : nat) (lots : nat -> nat) (round_nr : nat) (s : State)
  : result State :=
  if check_all_vacancies_filled s then Ok s else
  match fuel with
  | O => Err OutOfFuel
  | S fuel' =>
      let round_nr := S round_nr in
      let s := logging (StartingRound round_nr) s in
      s <- distribution_of_preferences s ;;
      if check_all_vacancies_filled s then Ok s else
      r <- surplus_loop (length (candidates s)) s ;;
      let (returned, s) := r in
      if returned then Ok s else
      let s := logging (VotesAfterSurplus (candidates s)) s in
      s <- exclusion_of_candidates (lots round_nr) s ;;
      elect_loop fuel' lots round_nr s
  end.

(** [elect] *)
Definition elect (lots : nat -> nat) (s : State) : result State :=
  elect_loop (length (candidates s)) lots 0 s.

(** [WrightSystem(vacancies, ballots)] *)
Definition WrightSystem (vacancies0 : Z) (ballots : list (Z * list string))
  (lots : nat -> nat) : result State :=
  elect lots (init vacancies0 ballots).

(** The number of rounds started, read off the log. *)
Definition is_round_start (e : Event) : bool :=
  match e with
  | StartingRound _ => true
  | _ => false
  end.

Definition rounds (s : State) : nat := length (filter is_round_start (log s)).

(** The ballots of the script. *)
Definition VACANCIES : Z := 4.

Definition INITIAL_BALLOTS : list (Z * list string) :=
  [ (1,  ["A"; "B"; "D"; "C"]);
    (2,  ["A"; "C"; "B"; "D"; "E"]);
    (3,  ["C"]);
    (4,  ["C"; "A"; "E"]);
    (5,  ["C"; "B"; "A"; "F"; "E"; "D"; "G"]);
    (6,  ["C"; "B"; "D"; "E"]);
    (7,  ["C"; "F"; "B"; "D"; "E"; "H"]);
    (8,  ["C"; "D"; "F"; "E"; "H"; "A"]);
    (9,  ["D"; "E"; "C"]);
    (10, ["E"; "B"; "D"; "C"; "A"; "F"]);
    (11, ["E"; "D"; "C"; "A"]);
    (12, ["F"]);
    (13, ["F"; "C"; "H"]);
    (14, ["F"; "G"; "E"; "I"; "H"; "J"]);
    (15, ["F"; "H"; "G"]);
    (16, ["G"; "F"; "E"; "I"]);
    (17, ["H"; "F"; "J"; "A"; "I"]);
    (18, ["H"; "G"; "I"; "F"]);
    (19, ["I"; "J"; "F"]);
    (20, ["I"; "J"; "H"]);
    (21, ["J"; "I"; "H"; "F"; "E"]) ]%string%Z.


(** * The count in binary64

    The same classes and methods with Python's floats as they are:
    IEEE 754 binary64 with round to nearest even ([SpecFloat] at precision
    53), for the statements that depend on rounding. *)

(** [float(n)] of an int raises [OverflowError] when the rounded result
    would exceed the largest float. *)
Definition converts_to_float (n : Z) : bool :=
  (Z.abs n <? 2 ^ 1024 - 2 ^ 970)%Z.

Module Binary64.

Definition float : Type := spec_float.

Definition prec : Z := 53.
Definition emax : Z := 1024.

(** [float(n)] *)
Definition of_int (n : Z) : result float :=
  if converts_to_float n then Ok (binary_normalize prec emax n 0 false)
  else Err OverflowError.

Definition zero : float := S754_zero false.

Definition one : float :=
  Eval vm_compute in binary_normalize prec emax 1 0 false.

Definition add (x y : float) : float := SFadd prec emax x y.
Definition sub (x y : float) : float := SFsub prec emax x y.
Definition mul (x y : float) : float := SFmul prec emax x y.

Definition ltb (x y : float) : bool := SFltb x y.
Definition leb (x y : float) : bool := SFleb x y.
Definition eqb (x y : float) : bool := SFeqb x y.

(** [x / y] *)
Definition div (x y : float) : result float :=
  if eqb y zero then Err ZeroDivisionError else Ok (SFdiv prec emax x y).

(** [math.floor(x)] *)
Definition floor (x : float) : result Z :=
  match x with
  | S754_zero _ => Ok 0%Z
  | S754_finite s m e =>
      let n := if s then Z.neg m else Z.pos m in
      Ok (if (0 <=? e)%Z then n * 2 ^ e else n / 2 ^ (- e))%Z
  | S754_infinity _ => Err OverflowError
  | S754_nan => Err ValueError
  end.

Module Candidate.

Record t : Type := mk {
  name : string;
  votes : list Z;
  total_value : float
}.

Definition new (n : string) : t := mk n [] zero.

Definition alloc_vote (self : t) (vote : Z) (vote_value : float) : t :=
  mk (name self)
     (set_add Z.eq_dec vote (votes self))
     (add (total_value self) vote_value).

Definition lt (self other : t) : bool :=
  ltb (total_value other) (total_value self).

Definition gt (self other : t) : bool := lt other self.

End Candidate.

Module Vote.

Record t : Type := mk {
  id : Z;
  preference : list string;
  value : float
}.

Definition new (i : Z) (pref : list string) : t := mk i pref one.

Definition get_preference (self : t) : option string :=
  match preference self with
  | [] => None
  | c :: _ => Some c
  end.

Definition get_preference_excluding (self : t) (excluding : list string)
  : option string :=
  find (fun c => negb (existsb (String.eqb c) excluding)) (preference self).

End Vote.

Fixpoint max_from (maxitem : Candidate.t) (rest : list Candidate.t)
  : Candidate.t :=
  match rest with
  | [] => maxitem
  | item :: rest' =>
      max_from (if Candidate.gt item maxitem then item else maxitem) rest'
  end.

Definition py_max (l : list Candidate.t) : result Candidate.t :=
  match l with
  | [] => Err ValueError
  | item :: rest => Ok (max_from item rest)
  end.

Fixpoint min_from (minitem : float) (rest : list float) : float :=
  match rest with
  | [] => minitem
  | item :: rest' => min_from (if ltb item minitem then item else minitem) rest'
  end.

Definition py_min (l : list float) : result float :=
  match l with
  | [] => Err ValueError
  | item :: rest => Ok (min_from item rest)
  end.

Inductive Event : Type :=
| StartingRound (round_nr : nat)
| RemovingExhausted (exhausted : list Z)
| CalculatedQuota (q : float)
| SurplusValue (candidate : string) (surplus : float)
| ExhaustedWithValue (vote : Z)
| AddingSTV (value : float) (vote : Z) (next_preference : string)
| VotesAfterSurplus (cs : list Candidate.t)
| ExcludingByLot
| Excluding (candidate : string).

Record State : Type := mkState {
  vacancies : Z;
  candidates : list Candidate.t;
  detached : list Candidate.t;
  votes : list Vote.t;
  provisional_winners : list string;
  total_votes : float;
  quota : float;
  log : list Event
}.

Definition set_candidates (cs : list Candidate.t) (s : State) : State :=
  mkState (vacancies s) cs (detached s) (votes s) (provisional_winners s)
          (total_votes s) (quota s) (log s).

Definition set_detached (ds : list Candidate.t) (s : State) : State :=
  mkState (vacancies s) (candidates s) ds (votes s) (provisional_winners s)
          (total_votes s) (quota s) (log s).

Definition set_votes (vs : list Vote.t) (s : State) : State :=
  mkState (vacancies s) (candidates s) (detached s) vs (provisional_winners s)
          (total_votes s) (quota s) (log s).

Definition set_provisional_winners (pw : list string) (s : State) : State :=
  mkState (vacancies s) (candidates s) (detached s) (votes s) pw
          (total_votes s) (quota s) (log s).

Definition set_total_votes (tv : float) (s : State) : State :=
  mkState (vacancies s) (candidates s) (detached s) (votes s)
          (provisional_winners s) tv (quota s) (log s).

Definition set_quota (q : float) (s : State) : State :=
  mkState (vacancies s) (candidates s) (detached s) (votes s)
          (provisional_winners s) (total_votes s) q (log s).

Definition logging (e : Event) (s : State) : State :=
  mkState (vacancies s) (candidates s) (detached s) (votes s)
          (provisional_winners s) (total_votes s) (quota s) (e :: log s).

Definition has_name (n : string) (c : Candidate.t) : bool :=
  String.eqb n (Candidate.name c).

Definition has_id (i : Z) (v : Vote.t) : bool := Z.eqb i (Vote.id v).

Definition add_candidate (n : string) (s : State) : State :=
  if existsb (has_name n) (candidates s) then s
  else set_candidates (candidates s ++ [Candidate.new n]) s.

Definition add_ballot (s : State) (ballot : Z * list string) : State :=
  let (i, preference) := ballot in
  let s := fold_left (fun s c => add_candidate c s) preference s in
  set_votes (votes s ++ [Vote.new i preference]) s.

Definition init (vacancies0 : Z) (ballots : list (Z * list string)) : State :=
  fold_left add_ballot ballots (mkState vacancies0 [] [] [] [] zero zero []).

Definition alloc_in (n : string) (vote : Vote.t) (cs : list Candidate.t)
  : list Candidate.t :=
  map (fun c => if has_name n c
                then Candidate.alloc_vote c (Vote.id vote) (Vote.value vote)
                else c) cs.

Definition alloc_vote (n : string) (vote : Vote.t) (s : State) : result State :=
  if existsb (has_name n) (candidates s) then
    Ok (set_candidates (alloc_in n vote (candidates s)) s)
  else if existsb (has_name n) (detached s) then
    Ok (set_detached (alloc_in n vote (detached s)) s)
  else Err DanglingRef.

Definition winners_of (s : State) : list string :=
  map Candidate.name
      (filter (fun c => leb (quota s) (Candidate.total_value c))
              (candidates s)).

Definition exhausted (v : Vote.t) : bool :=
  match Vote.preference v with
  | [] => true
  | _ :: _ => false
  end.

Definition reset (c : Candidate.t) : Candidate.t :=
  Candidate.mk (Candidate.name c) [] zero.

Definition set_value (x : float) (vote : Vote.t) : Vote.t :=
  Vote.mk (Vote.id vote) (Vote.preference vote) x.

Fixpoint distribute (todo : list Vote.t) (s : State) : result State :=
  match todo with
  | [] => Ok s
  | vote :: rest =>
      let vote := set_value one vote in
      match Vote.get_preference vote with
      | None => Err AttributeError
      | Some candidate =>
          s <- alloc_vote candidate vote s ;;
          distribute rest
            (set_total_votes (add (total_votes s) (Vote.value vote))
               (set_votes (votes s ++ [vote]) s))
      end
  end.

(** [distribution_of_preferences];
    [math.floor(self.total_votes/(1+self.vacancies))+1.0] converts the int
    divisor and the int result of [math.floor] to floats. *)
Definition distribution_of_preferences (s : State) : result State :=
  let s := set_provisional_winners [] s in
  let s := set_total_votes zero s in
  let s := set_candidates (map reset (candidates s)) s in
  let s := logging (RemovingExhausted
                      (map Vote.id (filter exhausted (votes s)))) s in
  let active := filter (fun v => negb (exhausted v)) (votes s) in
  s <- distribute active (set_votes [] s) ;;
  divisor <- of_int (1 + vacancies s) ;;
  quotient <- div (total_votes s) divisor ;;
  whole <- floor quotient ;;
  whole <- of_int whole ;;
  let s := set_quota (add whole one) s in
  let s := logging (CalculatedQuota (quota s)) s in
  Ok (set_provisional_winners (winners_of s) s).

Definition check_all_vacancies_filled (s : State) : bool :=
  (Z.of_nat (length (candidates s)) <=? vacancies s)%Z
  || (vacancies s <=? Z.of_nat (length (provisional_winners s)))%Z.

Definition get_winners (s : State) : result (list string) * State :=
  if (Z.of_nat (length (candidates s)) <=? vacancies s)%Z then
    (Ok (map Candidate.name (candidates s)), s)
  else if (vacancies s <=? Z.of_nat (length (provisional_winners s)))%Z then
    (Ok (provisional_winners s), s)
  else (Err NotElected, s).

Definition has_surplus (s : State) (c : Candidate.t) : bool :=
  ltb (quota s) (Candidate.total_value c).

Definition check_if_candidates_surplus (s : State) : bool :=
  existsb (has_surplus s) (candidates s).

Definition surplus_candidate (s : State) : result Candidate.t :=
  py_max (filter (has_surplus s) (candidates s)).

Definition update_vote (vote : Vote.t) (vs : list Vote.t) : list Vote.t :=
  map (fun v => if has_id (Vote.id vote) v then vote else v) vs.

Fixpoint transfer (todo : list Z) (surplus_transfer_value : float) (s : State)
  : result State :=
  match todo with
  | [] => Ok s
  | i :: rest =>
      match find (has_id i) (votes s) with
      | None => Err DanglingRef
      | Some vote =>
          let vote :=
            set_value (mul (Vote.value vote) surplus_transfer_value) vote in
          let s := set_votes (update_vote vote (votes s)) s in
          match Vote.get_preference_excluding vote (provisional_winners s) with
          | None =>
              transfer rest surplus_transfer_value
                       (logging (ExhaustedWithValue i) s)
          | Some next_preference =>
              s <- alloc_vote next_preference vote
                     (logging (AddingSTV (Vote.value vote) i next_preference) s) ;;
              transfer rest surplus_transfer_value s
          end
      end
  end.

Definition set_total_value (q : float) (c : Candidate.t) : Candidate.t :=
  Candidate.mk (Candidate.name c) (Candidate.votes c) q.

Definition clamp (n : string) (q : float) (cs : list Candidate.t)
  : list Candidate.t :=
  map (fun c => if has_name n c then set_total_value q c else c) cs.

Definition calc_and_distribute_surplus (s : State) : result State :=
  candidate <- surplus_candidate s ;;
  let surplus := sub (Candidate.total_value candidate) (quota s) in
  let s := logging (SurplusValue (Candidate.name candidate) surplus) s in
  surplus_transfer_value <- div surplus (Candidate.total_value candidate) ;;
  s <- transfer (Candidate.votes candidate) surplus_transfer_value s ;;
  let s := set_candidates
             (clamp (Candidate.name candidate) (quota s) (candidates s)) s in
  Ok (set_provisional_winners (winners_of s) s).

Fixpoint pop_key (n : string) (cs : list Candidate.t)
  : option (Candidate.t * list Candidate.t) :=
  match cs with
  | [] => None
  | c :: cs' =>
      if has_name n c then Some (c, cs')
      else match pop_key n cs' with
           | Some (x, rest) => Some (x, c :: rest)
           | None => None
           end
  end.

Definition strike (n : string) (v : Vote.t) : Vote.t :=
  if existsb (String.eqb n) (Vote.preference v)
  then Vote.mk (Vote.id v) (list_remove n (Vote.preference v)) (Vote.value v)
  else v.

Definition minimum_votes (s : State) : result (list Candidate.t) :=
  min_total_val <- py_min (map Candidate.total_value (candidates s)) ;;
  Ok (filter (fun c => eqb (Candidate.total_value c) min_total_val)
             (candidates s)).

Definition exclusion_of_candidates (draw : nat) (s : State) : result State :=
  minimum <- minimum_votes s ;;
  let s := if (1 <? length minimum)%nat
           then logging ExcludingByLot s else s in
  excluded <- choice draw minimum ;;
  let s := logging (Excluding (Candidate.name excluded)) s in
  let s := set_votes (map (strike (Candidate.name excluded)) (votes s)) s in
  match pop_key (Candidate.name excluded) (candidates s) with
  | None => Err KeyError
  | Some (obj, rest) => Ok (set_detached (obj :: detached s) (set_candidates rest s))
  end.

Fixpoint surplus_loop (fuel : nat) (s : State) : result (bool * State) :=
  if check_if_candidates_surplus s then
    match fuel with
    | O => Err OutOfFuel
    | S fuel' =>
        s <- calc_and_distribute_surplus s ;;
        if check_all_vacancies_filled s then Ok (true, s)
        else surplus_loop fuel' s
    end
  else Ok (false, s).

Fixpoint elect_loop (fuel : nat) (lots : nat -> nat) (round_nr : nat) (s : State)
  : result State :=
  if check_all_vacancies_filled s then Ok s else
  match fuel with
  | O => Err OutOfFuel
  | S fuel' =>
      let round_nr := S round_nr in
      let s := logging (StartingRound round_nr) s in
      s <- distribution_of_preferences s ;;
      if check_all_vacancies_filled s then Ok s else
      r <- surplus_loop (length (candidates s)) s ;;
      let (returned, s) := r in
      if returned then Ok s else
      let s := logging (VotesAfterSurplus (candidates s)) s in
      s <- exclusion_of_candidates (lots round_nr) s ;;
      elect_loop fuel' lots round_nr s
  end.

Definition elect (lots : nat -> nat) (s : State) : result State :=
  elect_loop (length (candidates s)) lots 0 s.

Definition WrightSystem (vacancies0 : Z) (ballots : list (Z * list string))
  (lots : nat -> nat) : result State :=
  elect lots (init vacancies0 ballots).

Definition state_of (r : result State) : State :=
  match r with
  | Ok s => s
  | Err _ => init 0 []
  end.

(** The value of the Vote object that [i] refers to, and the number of
    surplus distributions in the log. *)
Definition value_in (vs : list Vote.t) (i : Z) : float :=
  match find (has_id i) vs with
  | Some v => Vote.value v
  | None => zero
  end.

Definition is_surplus_event (e : Event) : bool :=
  match e with
  | SurplusValue _ _ => true
  | _ => false
  end.

Definition surplus_steps (s : State) : nat :=
  length (filter is_surplus_event (log s)).

End Binary64.

(** * Observations and invariants

    Over the exact embedding. *)

(** ** Observations used in the statements *)

(** The value of the Vote object that [i] refers to. *)
Definition value_in (vs : list Vote.t) (i : Z) : Q :=
  match find (has_id i) vs with
  | Some v => Vote.value v
  | None => 0%Q
  end.

(** The sum of [value] over the votes in the set [c.votes]. *)
Definition allocated_in (vs : list Vote.t) (c : Candidate.t) : Q :=
  Qsum (map (value_in vs) (Candidate.votes c)).

Definition allocated_value (s : State) (c : Candidate.t) : Q :=
  allocated_in (votes s) c.

(** [c.total_value] is the sum of the values of the votes in [c.votes]. *)
Definition tallied (vs : list Vote.t) (c : Candidate.t) : Prop :=
  (Candidate.total_value c == allocated_in vs c)%Q /\
  NoDup (Candidate.votes c).

Definition disjoint (l1 l2 : list Z) : Prop :=
  forall i, In i l1 -> In i l2 -> False.

(** The invariant of the two allocation loops, for the candidates whose
    name satisfies [P]: they are tallied, their vote sets hold none of the
    votes [rest] still to be visited, and no vote is in two of them. *)
Definition ledger (P : string -> Prop) (vs : list Vote.t)
  (cs : list Candidate.t) (rest : list Z) : Prop :=
  (forall c, In c cs -> P (Candidate.name c) ->
             tallied vs c /\ disjoint (Candidate.votes c) rest) /\
  (forall c1 c2, In c1 cs -> In c2 cs ->
                 Candidate.name c1 <> Candidate.name c2 ->
                 P (Candidate.name c1) -> P (Candidate.name c2) ->
                 disjoint (Candidate.votes c1) (Candidate.votes c2)).

(** The books between two operations of the engine; [done] lists the
    candidates whose surplus has been distributed in the round. *)
Definition books_ok (done : list string) (s : State) : Prop :=
  NoDup (map Vote.id (votes s)) /\
  NoDup (map Candidate.name (candidates s)) /\
  ledger (fun n => ~ In n done) (votes s) (candidates s) [] /\
  (forall c, In c (candidates s) -> In (Candidate.name c) done ->
             Candidate.total_value c = quota s).

(** The targets of the allocations that a list of log entries reports. *)
Fixpoint allocation_targets (events : list Event) : list string :=
  match events with
  | [] => []
  | AddingSTV _ _ next_preference :: rest =>
      next_preference :: allocation_targets rest
  | _ :: rest => allocation_targets rest
  end.

(** The Candidate object that [n] refers to exists. *)
Definition known (s : State) (n : string) : Prop :=
  In n (map Candidate.name (candidates s)) \/
  In n (map Candidate.name (detached s)).

(** No reference dangles: preference lists refer to existing candidates,
    and the vote sets of the candidates in the dict to votes of
    [self.votes]. *)
Definition refs_ok (s : State) : Prop :=
  (forall v n, In v (votes s) -> In n (Vote.preference v) -> known s n) /\
  (forall c i, In c (candidates s) -> In i (Candidate.votes c) ->
               In i (map Vote.id (votes s))).

(** [provisional_winners] is up to date. *)
Definition fresh (s : State) : Prop := provisional_winners s = winners_of s.

(** What the allocations of a surplus distribution may do to a candidate
    of the dict: nothing, unless it is outside [pw]. *)
Definition receives (pw : list string) (c c' : Candidate.t) : Prop :=
  Candidate.name c' = Candidate.name c /\
  (c' = c \/ ~ In (Candidate.name c) pw).

Definition is_transfer_event (e : Event) : bool :=
  match e with
  | ExhaustedWithValue _ | AddingSTV _ _ _ => true
  | _ => false
  end.

Definition is_surplus_event (e : Event) : bool :=
  match e with
  | SurplusValue _ _ => true
  | _ => false
  end.

(** The number of surplus distributions, read off the log. *)
Definition surplus_steps (s : State) : nat :=
  length (filter is_surplus_event (log s)).

(** Candidates of the dict whose [total_value] differs from the quota. *)
Definition unsettled (q : Q) (c : Candidate.t) : bool :=
  negb (Qeq_bool (Candidate.total_value c) q).

Definition unsettled_count (s : State) : nat :=
  length (filter (unsettled (quota s)) (candidates s)).

(** What the loop of a surplus distribution may change in the state. *)
Definition transfer_post (s s' : State) : Prop :=
  vacancies s' = vacancies s /\
  provisional_winners s' = provisional_winners s /\
  quota s' = quota s /\
  total_votes s' = total_votes s /\
  Forall2 (receives (provisional_winners s)) (candidates s) (candidates s') /\
  map Candidate.name (detached s') = map Candidate.name (detached s) /\
  map Vote.id (votes s') = map Vote.id (votes s) /\
  (forall v', In v' (votes s') ->
     exists v, In v (votes s) /\ Vote.preference v' = Vote.preference v) /\
  exists evs,
    log s' = evs ++ log s /\
    forallb is_transfer_event evs = true /\
    (forall t, In t (allocation_targets evs) ->
               ~ In t (provisional_winners s)).

(** What the loop of the distribution of preferences does to the state. *)
Definition distribute_post (todo : list Vote.t) (s s' : State) : Prop :=
  vacancies s' = vacancies s /\
  provisional_winners s' = provisional_winners s /\
  quota s' = quota s /\
  log s' = log s /\
  map Candidate.name (candidates s') = map Candidate.name (candidates s) /\
  map Candidate.name (detached s') = map Candidate.name (detached s) /\
  votes s' = votes s ++ map (set_value 1%Q) todo /\
  (total_votes s' ==
   total_votes s + Qsum (map Vote.value (map (set_value 1%Q) todo)))%Q.

(** The state that [__init__] builds before it calls [elect]. *)
Definition pristine (s : State) : Prop :=
  detached s = [] /\
  log s = [] /\
  provisional_winners s = [] /\
  (forall c, In c (candidates s) ->
             Candidate.votes c = [] /\ Candidate.total_value c = 0%Q) /\
  NoDup (map Candidate.name (candidates s)) /\
  (forall v n, In v (votes s) -> In n (Vote.preference v) ->
               In n (map Candidate.name (candidates s))) /\
  (forall v, In v (votes s) -> Vote.value v = 1%Q).

(** What a surplus distribution over the vote set [todo] does to a vote:
    [vote.value *= r] when the vote is in the set. *)
Definition rescale (todo : list Z) (r : Q) (v : Vote.t) : Vote.t :=
  if existsb (Z.eqb (Vote.id v)) todo
  then set_value (Vote.value v * r)%Q v
  else v.

(** ** The control flow of [elect] as a step relation

    [reachable vac ballots p done s]: the run of [elect] started by
    [WrightSystem(vac, ballots)] can be in state [s], either at the test of
    the outer loop ([LoopTop]: after [__init__] or after an exclusion) or
    inside a round ([InRound]: after the distribution of preferences or
    after a surplus distribution).  [done] lists the candidates whose
    surplus has been distributed since the last distribution of
    preferences. *)

Inductive phase : Type := LoopTop | InRound.

Inductive reachable (vac : Z) (ballots : list (Z * list string))
  : phase -> list string -> State -> Prop :=
| reach_init :
    reachable vac ballots LoopTop [] (init vac ballots)
| reach_distribution : forall round_nr done s s',
    reachable vac ballots LoopTop done s ->
    check_all_vacancies_filled s = false ->
    distribution_of_preferences (logging (StartingRound round_nr) s) = Ok s' ->
    reachable vac ballots InRound [] s'
| reach_surplus : forall done s c s',
    reachable vac ballots InRound done s ->
    check_all_vacancies_filled s = false ->
    check_if_candidates_surplus s = true ->
    surplus_candidate s = Ok c ->
    calc_and_distribute_surplus s = Ok s' ->
    reachable vac ballots InRound (Candidate.name c :: done) s'
| reach_exclusion : forall draw done s s',
    reachable vac ballots InRound done s ->
    check_all_vacancies_filled s = false ->
    check_if_candidates_surplus s = false ->
    exclusion_of_candidates draw
      (logging (VotesAfterSurplus (candidates s)) s) = Ok s' ->
    reachable vac ballots LoopTop done s'.

(** What holds of every state of the run. *)
Definition count_inv (p : phase) (done : list string) (s : State) : Prop :=
  refs_ok s /\
  books_ok done s /\
  (forall v, In v (votes s) -> (0 < Vote.value v <= 1)%Q) /\
  (p = InRound ->
   fresh s /\ (1 <= quota s)%Q /\
   forall n, In n done -> In n (map Candidate.name (candidates s))).

(** The candidates whose surplus has been distributed in the round sit on
    the quota, and [provisional_winners] is up to date. *)
Definition clamped_inv (p : phase) (done : list string) (s : State) : Prop :=
  p = InRound ->
  fresh s /\
  forall n, In n done ->
    exists c, In c (candidates s) /\ Candidate.name c = n /\
              Candidate.total_value c = quota s.

(** Every preference list names candidates of the dict, each at most
    once. *)
Definition prefs_ok (s : State) : Prop :=
  NoDup (map Candidate.name (candidates s)) /\
  forall v, In v (votes s) ->
    NoDup (Vote.preference v) /\
    forall n, In n (Vote.preference v) ->
              In n (map Candidate.name (candidates s)).

(** ** Inputs used in the examples *)

(** Five ballots for A then C, four for B then D. *)
Definition ballots_two_surpluses : list (Z * list string) :=
  [ (1, ["A"; "C"]); (2, ["A"; "C"]); (3, ["A"; "C"]); (4, ["A"; "C"]);
    (5, ["A"; "C"]); (6, ["B"; "D"]); (7, ["B"; "D"]); (8, ["B"; "D"]);
    (9, ["B"; "D"]) ]%string%Z.

(** Ballot 1 names A twice. *)
Definition ballots_repeated_name : list (Z * list string) :=
  [ (1, ["A"; "A"]); (2, ["B"]); (3, ["B"]); (4, ["C"]); (5, ["C"]) ]%string%Z.

(** A gets four of seven first preferences. *)
Definition ballots_one_surplus : list (Z * list string) :=
  [ (1, ["A"; "B"]); (2, ["A"; "B"]); (3, ["A"; "C"]); (4, ["A"]);
    (5, ["B"]); (6, ["B"]); (7, ["C"]) ]%string%Z.

Definition state_of (r : result State) : State :=
  match r with
  | Ok s => s
  | Err _ => init 0 []
  end.

(** Two vacancies and [ballots_one_surplus]: the state after the first
    distribution of preferences (quota 3, A on 4), and after the
    distribution of A's surplus. *)
Definition one_surplus_distributed : State :=
  Eval vm_compute in
    state_of (distribution_of_preferences
                (logging (StartingRound 1) (init 2 ballots_one_surplus))).

Definition one_surplus_candidate : Candidate.t :=
  Eval vm_compute in
    match surplus_candidate one_surplus_distributed with
    | Ok c => c
    | Err _ => Candidate.new ""
    end.

Definition one_surplus_transferred : State :=
  Eval vm_compute in
    state_of (calc_and_distribute_surplus one_surplus_distributed).

(** One vacancy and [ballots_repeated_name]: the state after the first
    distribution of preferences (quota 3, A on 1, B and C on 2). *)
Definition repeated_name_distributed : State :=
  Eval vm_compute in
    state_of (distribution_of_preferences
                (logging (StartingRound 1) (init 1 ballots_repeated_name))).

(** B, who received two of A's votes. *)
Definition one_surplus_receiver : Candidate.t :=
  Eval vm_compute in
    nth 1 (candidates one_surplus_transferred) (Candidate.new "").

(** Three vacancies and [ballots_two_surpluses]: the state after the first
    distribution of preferences (quota 3, A on 5, B on 4), after the
    distribution of B's surplus, and after that of A's. *)
Definition two_surpluses_distributed : State :=
  Eval vm_compute in
    state_of (distribution_of_preferences
                (logging (StartingRound 1) (init 3 ballots_two_surpluses))).

Definition two_surpluses_first : State :=
  Eval vm_compute in
    state_of (calc_and_distribute_surplus two_surpluses_distributed).

Definition two_surpluses_first_candidate : Candidate.t :=
  Eval vm_compute in
    match surplus_candidate two_surpluses_distributed with
    | Ok c => c
    | Err _ => Candidate.new ""
    end.

Definition two_surpluses_second_candidate : Candidate.t :=
  Eval vm_compute in
    match surplus_candidate two_surpluses_first with
    | Ok c => c
    | Err _ => Candidate.new ""
    end.

Definition two_surpluses_second : State :=
  Eval vm_compute in
    state_of (calc_and_distribute_surplus two_surpluses_first).

(** One vacancy and [ballots_repeated_name]: the state after the exclusion
    of A in the first round, and after the distribution of preferences of
    the second round. *)
Definition repeated_name_excluded : State :=
  Eval vm_compute in
    state_of (exclusion_of_candidates 0
                (logging (VotesAfterSurplus
                            (candidates repeated_name_distributed))
                         repeated_name_distributed)).

Definition repeated_name_second_round : State :=
  Eval vm_compute in
    state_of (distribution_of_preferences
                (logging (StartingRound 2) repeated_name_excluded)).

(** ** Inputs on which rounding decides

    [ballots_rounding], with two vacancies: X has three votes that rank Y
    second, Y has one vote of its own; the quota is 2 and X's surplus
    passes three times [1/3] on to Y. *)
Definition ballots_rounding : list (Z * list string) :=
  [ (1, ["X"; "Y"]); (2, ["X"; "Y"]); (3, ["X"; "Y"]); (4, ["Y"; "Z"]) ]%string%Z.

Definition rounding_distributed : Binary64.State :=
  Eval vm_compute in
    Binary64.state_of
      (Binary64.distribution_of_preferences
         (Binary64.logging (Binary64.StartingRound 1)
            (Binary64.init 2 ballots_rounding))).

Definition rounding_transferred : Binary64.State :=
  Eval vm_compute in
    Binary64.state_of (Binary64.calc_and_distribute_surplus rounding_distributed).

(** [ballots_underflow], with 43 vacancies: 21 groups of eight ballots,
    five for a candidate [source k] that rank [sink k] second and three
    for [sink k] alone; ballot 1 ranks [source 1], then every [sink k] in
    turn, then X and Y.  There are 168 ballots and 44 candidates, and the
    quota is 4. *)
Definition source (k : nat) : string :=
  String "A" (String (ascii_of_nat (48 + k)) "").

Definition sink (k : nat) : string :=
  String "B" (String (ascii_of_nat (48 + k)) "").

Definition group (k : nat) : list (list string) :=
  repeat [source k; sink k] 5 ++ repeat [sink k] 3.

(** The dict that gives the preference lists the keys 1, 2, ... *)
Definition number (preferences : list (list string)) : list (Z * list string) :=
  combine (map Z.of_nat (seq 1 (length preferences))) preferences.

Definition ballots_underflow : list (Z * list string) :=
  Eval vm_compute in
    number (((source 1 :: map sink (seq 1 21)) ++ ["X"; "Y"]%string)
            :: repeat [source 1; sink 1] 4 ++ repeat [sink 1] 3
            ++ flat_map group (seq 2 20)).

Definition underflow_distributed : Binary64.State :=
  Eval vm_compute in
    Binary64.state_of
      (Binary64.distribution_of_preferences
         (Binary64.logging (Binary64.StartingRound 1)
            (Binary64.init 43 ballots_underflow))).

Definition underflow_transferred : Binary64.State :=
  Eval vm_compute in
    match Binary64.surplus_loop
            (length (Binary64.candidates underflow_distributed))
            underflow_distributed with
    | Ok (_, s) => s
    | Err _ => underflow_distributed
    end.

(** ** Further observations *)

(** The vote's first preference is the candidate [n]. *)
Definition prefers (n : string) (v : Vote.t) : bool :=
  match Vote.get_preference v with
  | Some m => String.eqb n m
  | None => false
  end.

(** The sum of [total_value] over [self.candidates.values()]. *)
Definition pool_total (s : State) : Q :=
  Qsum (map Candidate.total_value (candidates s)).

(** The candidates excluded so far, read off the log, most recent first. *)
Fixpoint excluded_of (events : list Event) : list string :=
  match events with
  | [] => []
  | Excluding n :: rest => n :: excluded_of rest
  | _ :: rest => excluded_of rest
  end.

(** A ballot's preference list restricted to the candidates of the dict. *)
Definition remaining (s : State) (preference : list string) : list string :=
  filter (fun n => existsb (has_name n) (candidates s)) preference.

(** Every vote of [self.votes] is its ballot restricted to the candidates
    of the dict, and a ballot without a vote has no candidate left. *)
Definition ballots_inv (ballots : list (Z * list string)) (s : State) : Prop :=
  (forall v, In v (votes s) ->
     exists b, In b ballots /\ fst b = Vote.id v /\
               Vote.preference v = remaining s (snd b)) /\
  (forall b, In b ballots ->
     (exists v, In v (votes s) /\ Vote.id v = fst b) \/
     remaining s (snd b) = []).

(** What the loop of a surplus distribution over the vote set [todo] does
    to the vote set of a candidate of the dict: it adds the votes of [todo]
    whose next preference outside [pw] is that candidate. *)
Definition routed (vs : list Vote.t) (pw : list string) (todo : list Z)
  (c c' : Candidate.t) : Prop :=
  Candidate.name c' = Candidate.name c /\
  forall i,
    In i (Candidate.votes c') <->
    In i (Candidate.votes c) \/
    (In i todo /\
     exists v, find (has_id i) vs = Some v /\
               Vote.get_preference_excluding v pw = Some (Candidate.name c)).

(** The dict of a state of the run: distinct names, all of them names of
    the constructor's dict; [vacancies] is the constructor's argument. *)
Definition names_inv (vac : Z) (ballots : list (Z * list string)) (s : State)
  : Prop :=
  NoDup (map Candidate.name (candidates s)) /\
  (forall n, In n (map Candidate.name (candidates s)) ->
             In n (map Candidate.name (candidates (init vac ballots)))) /\
  vacancies s = vac.

(** The final state and the winners of the script, with every draw 0. *)
Definition script_final : State :=
  Eval vm_compute in
    state_of (WrightSystem VACANCIES INITIAL_BALLOTS (fun _ => 0%nat)).

Definition script_winners : list string :=
  Eval vm_compute in
    match fst (get_winners script_final) with
    | Ok ws => ws
    | Err _ => []
    end.

(** * Properties *)

(** Projections of updated states. *)
Ltac fields :=
  cbn [vacancies candidates detached votes provisional_winners total_votes
       quota log set_candidates set_detached set_votes
       set_provisional_winners set_total_votes set_quota logging] in *.

(** ** Numbers *)

Lemma Qltb_iff (x y : Q) : Qltb x y = true <-> (x < y)%Q.
Proof.
  unfold Qltb. rewrite negb_true_iff.
  split; intro H.
  - apply Qnot_le_lt. intro Hle. apply Qle_bool_iff in Hle. congruence.
  - destruct (Qle_bool y x) eqn:E; [|reflexivity].
    apply Qle_bool_iff in E. exfalso. apply (Qlt_not_le _ _ H E).
Qed.

Lemma Qltb_false_iff (x y : Q) : Qltb x y = false <-> (y <= x)%Q.
Proof.
  unfold Qltb. rewrite negb_false_iff. apply Qle_bool_iff.
Qed.

Lemma Qsum_app (l1 l2 : list Q) : (Qsum (l1 ++ l2) == Qsum l1 + Qsum l2)%Q.
Proof.
  induction l1 as [|x l1 IH]; simpl.
  - ring.
  - rewrite IH. ring.
Qed.

(** ** Selection of the candidate whose surplus is distributed *)

Lemma max_from_in (c : Candidate.t) (l : list Candidate.t) :
  max_from c l = c \/ In (max_from c l) l.
Proof.
  revert c. induction l as [|x l IH]; intro c; simpl.
  - now left.
  - destruct (Candidate.gt x c).
    + destruct (IH x) as [H|H].
      * right. left. now rewrite H.
      * right. now right.
    + destruct (IH c) as [H|H]; [now left | right; now right].
Qed.

Lemma max_from_le_start (c : Candidate.t) (l : list Candidate.t) :
  (Candidate.total_value (max_from c l) <= Candidate.total_value c)%Q.
Proof.
  revert c. induction l as [|x l IH]; intro c; simpl.
  - apply Qle_refl.
  - destruct (Candidate.gt x c) eqn:E.
    + unfold Candidate.gt, Candidate.lt in E. apply Qltb_iff in E.
      eapply Qle_trans; [apply IH | now apply Qlt_le_weak].
    + apply IH.
Qed.

Lemma max_from_le_all (c : Candidate.t) (l : list Candidate.t) (x : Candidate.t) :
  In x l ->
  (Candidate.total_value (max_from c l) <= Candidate.total_value x)%Q.
Proof.
  revert c. induction l as [|y l IH]; intros c Hin; simpl in *.
  - contradiction.
  - destruct Hin as [->|Hin]; [|now apply IH].
    eapply Qle_trans; [apply max_from_le_start|].
    destruct (Candidate.gt x c) eqn:E.
    + apply Qle_refl.
    + unfold Candidate.gt, Candidate.lt in E. now apply Qltb_false_iff in E.
Qed.

(** What [max(candidates_with_surplus)] returns: a candidate of the pool
    with a surplus, and no candidate with a surplus has a smaller
    [total_value]. *)
Lemma surplus_candidate_least (s : State) (c : Candidate.t) :
  surplus_candidate s = Ok c ->
  In c (candidates s) /\ has_surplus s c = true /\
  forall c', In c' (candidates s) -> has_surplus s c' = true ->
             (Candidate.total_value c <= Candidate.total_value c')%Q.
Proof.
  unfold surplus_candidate, py_max.
  destruct (filter (has_surplus s) (candidates s)) as [|x l] eqn:E;
    [discriminate|].
  intros [= <-].
  assert (Hx : In x (filter (has_surplus s) (candidates s)))
    by (rewrite E; now left).
  assert (Hm : In (max_from x l) (filter (has_surplus s) (candidates s))).
  { rewrite E. destruct (max_from_in x l) as [->|H]; [now left | now right]. }
  apply filter_In in Hm. destruct Hm as [Hm1 Hm2].
  repeat split; trivial.
  intros c' Hc' Hs'.
  assert (Hin : In c' (x :: l)) by (rewrite <- E; apply filter_In; now split).
  destruct Hin as [<-|Hin].
  - apply max_from_le_start.
  - now apply max_from_le_all.
Qed.

(** C1 (the code departs from the claim).  With three vacancies and the
    ballots [ballots_two_surpluses], the first distribution of preferences
    leaves the count open with quota 3, A on 5 and B on 4; both exceed the
    quota, and [max(candidates_with_surplus)] returns B, whose
    [total_value] is smaller than A's.  The surplus distribution that
    follows is B's. *)
Theorem surplus_candidate_two_surpluses :
  distribution_of_preferences
    (logging (StartingRound 1) (init 3 ballots_two_surpluses))
    = Ok two_surpluses_distributed /\
  check_all_vacancies_filled two_surpluses_distributed = false /\
  (quota two_surpluses_distributed == 3)%Q /\
  (exists a,
     In a (candidates two_surpluses_distributed) /\
     Candidate.name a = "A"%string /\
     (Candidate.total_value a == 5)%Q /\
     has_surplus two_surpluses_distributed a = true /\
     (Candidate.total_value two_surpluses_first_candidate
      < Candidate.total_value a)%Q) /\
  surplus_candidate two_surpluses_distributed
    = Ok two_surpluses_first_candidate /\
  Candidate.name two_surpluses_first_candidate = "B"%string /\
  (Candidate.total_value two_surpluses_first_candidate == 4)%Q /\
  calc_and_distribute_surplus two_surpluses_distributed
    = Ok two_surpluses_first /\
  filter is_surplus_event (log two_surpluses_first) = [SurplusValue "B" 1].
Proof.
  split; [vm_compute; reflexivity|].
  split; [vm_compute; reflexivity|].
  split; [reflexivity|].
  split.
  { eexists. split; [left; reflexivity|]. split; [reflexivity|].
    split; [reflexivity|]. split; reflexivity. }
  split; [vm_compute; reflexivity|].
  split; [reflexivity|].
  split; [reflexivity|].
  split; vm_compute; reflexivity.
Qed.

(** ** References to candidates and allocation *)

Lemma existsb_has_name (n : string) (cs : list Candidate.t) :
  existsb (has_name n) cs = true <-> In n (map Candidate.name cs).
Proof.
  rewrite existsb_exists, in_map_iff. unfold has_name.
  split; intros [c [H1 H2]]; exists c.
  - apply String.eqb_eq in H2. split; [now symmetry | trivial].
  - split; trivial. apply String.eqb_eq. now symmetry.
Qed.

Lemma existsb_has_name_false (n : string) (cs : list Candidate.t) :
  existsb (has_name n) cs = false <-> ~ In n (map Candidate.name cs).
Proof.
  rewrite <- existsb_has_name. destruct (existsb (has_name n) cs); split;
    intro H; congruence || (exfalso; now apply H) || discriminate.
Qed.

Lemma alloc_in_names (n : string) (v : Vote.t) (cs : list Candidate.t) :
  map Candidate.name (alloc_in n v cs) = map Candidate.name cs.
Proof.
  unfold alloc_in. rewrite map_map. apply map_ext.
  intro c. now destruct (has_name n c).
Qed.

Lemma alloc_vote_inv (n : string) (v : Vote.t) (s s' : State) :
  alloc_vote n v s = Ok s' ->
  (In n (map Candidate.name (candidates s)) /\
   s' = set_candidates (alloc_in n v (candidates s)) s) \/
  (~ In n (map Candidate.name (candidates s)) /\
   In n (map Candidate.name (detached s)) /\
   s' = set_detached (alloc_in n v (detached s)) s).
Proof.
  unfold alloc_vote.
  destruct (existsb (has_name n) (candidates s)) eqn:E1.
  - intros [= <-]. left. split; trivial. now apply existsb_has_name.
  - destruct (existsb (has_name n) (detached s)) eqn:E2; [|discriminate].
    intros [= <-]. right. repeat split.
    + now apply existsb_has_name_false.
    + now apply existsb_has_name.
Qed.

Lemma alloc_vote_known (n : string) (v : Vote.t) (s : State) :
  known s n -> exists s', alloc_vote n v s = Ok s'.
Proof.
  unfold alloc_vote. intros [H|H].
  - apply existsb_has_name in H. rewrite H. eauto.
  - apply existsb_has_name in H. rewrite H.
    destruct (existsb (has_name n) (candidates s)); eauto.
Qed.

Lemma receives_refl (pw : list string) (cs : list Candidate.t) :
  Forall2 (receives pw) cs cs.
Proof.
  induction cs; constructor; trivial. split; [reflexivity | now left].
Qed.

Lemma receives_trans (pw : list string) (cs1 cs2 cs3 : list Candidate.t) :
  Forall2 (receives pw) cs1 cs2 -> Forall2 (receives pw) cs2 cs3 ->
  Forall2 (receives pw) cs1 cs3.
Proof.
  intro H. revert cs3. induction H as [|a b l1 l2 Hab _ IH]; intros cs3 H3.
  - inversion H3; subst. constructor.
  - inversion H3 as [|b' c l2' l3 Hbc Hrest]; subst.
    constructor; [|now apply IH].
    destruct Hab as [Hn1 H1], Hbc as [Hn2 H2]. split; [congruence|].
    destruct H1 as [->|H1]; [|now right].
    destruct H2 as [->|H2]; [now left | now right].
Qed.

Lemma alloc_in_receives (pw : list string) (n : string) (v : Vote.t)
  (cs : list Candidate.t) :
  ~ In n pw -> Forall2 (receives pw) cs (alloc_in n v cs).
Proof.
  intro Hn. induction cs as [|c cs IH]; simpl; constructor; trivial.
  unfold has_name. destruct (String.eqb n (Candidate.name c)) eqn:E.
  - apply String.eqb_eq in E. subst n. split; [reflexivity | now right].
  - split; [reflexivity | now left].
Qed.

Lemma receives_names (pw : list string) (cs cs' : list Candidate.t) :
  Forall2 (receives pw) cs cs' ->
  map Candidate.name cs' = map Candidate.name cs.
Proof.
  induction 1 as [|c c' l l' [Hn _] _ IH]; simpl; [reflexivity|].
  now rewrite Hn, IH.
Qed.

Lemma get_preference_excluding_spec (v : Vote.t) (pw : list string) (n : string) :
  Vote.get_preference_excluding v pw = Some n ->
  In n (Vote.preference v) /\ ~ In n pw.
Proof.
  unfold Vote.get_preference_excluding. intro H.
  apply find_some in H. destruct H as [H1 H2]. split; trivial.
  intro Hin. apply negb_true_iff in H2.
  assert (existsb (String.eqb n) pw = true); [|congruence].
  apply existsb_exists. exists n. split; trivial. apply String.eqb_refl.
Qed.

(** ** The loop of a surplus distribution *)

Lemma allocation_targets_app (l1 l2 : list Event) :
  allocation_targets (l1 ++ l2) = allocation_targets l1 ++ allocation_targets l2.
Proof.
  induction l1 as [|e l1 IH]; simpl; [reflexivity|].
  destruct e; simpl; now rewrite IH.
Qed.

Lemma transfer_post_refl (s : State) : transfer_post s s.
Proof.
  unfold transfer_post. repeat split; trivial.
  - apply receives_refl.
  - intros v' Hv'. now exists v'.
  - exists []. repeat split; trivial. intros t [].
Qed.

Lemma transfer_post_trans (s1 s2 s3 : State) :
  transfer_post s1 s2 -> transfer_post s2 s3 -> transfer_post s1 s3.
Proof.
  intros (Hv & Hp & Hq & Ht & Hc & Hd & Hi & Hf & evs & Hl & He & Ha)
         (Hv' & Hp' & Hq' & Ht' & Hc' & Hd' & Hi' & Hf' & evs' & Hl' & He' & Ha').
  unfold transfer_post. repeat split; try congruence.
  - rewrite Hp in Hc'. eapply receives_trans; eassumption.
  - intros v3 H3. destruct (Hf' _ H3) as (v2 & H2 & E2).
    destruct (Hf _ H2) as (v1 & H1 & E1). exists v1. split; congruence.
  - exists (evs' ++ evs). repeat split.
    + rewrite Hl', Hl. now rewrite app_assoc.
    + rewrite forallb_app. now rewrite He, He'.
    + intros t Hin. rewrite allocation_targets_app in Hin.
      apply in_app_or in Hin. destruct Hin as [Hin|Hin].
      * rewrite <- Hp. now apply Ha'.
      * now apply Ha.
Qed.

Lemma find_has_id (i : Z) (vs : list Vote.t) (v : Vote.t) :
  find (has_id i) vs = Some v -> In v vs /\ Vote.id v = i.
Proof.
  intro H. apply find_some in H. destruct H as [H1 H2]. split; trivial.
  unfold has_id in H2. apply Z.eqb_eq in H2. now symmetry.
Qed.

Lemma find_has_id_in (i : Z) (vs : list Vote.t) :
  In i (map Vote.id vs) -> exists v, find (has_id i) vs = Some v.
Proof.
  intro H. apply in_map_iff in H. destruct H as (v & <- & Hin).
  destruct (find (has_id (Vote.id v)) vs) eqn:E; [eauto|].
  exfalso. apply (find_none _ _ E) in Hin.
  unfold has_id in Hin. now rewrite Z.eqb_refl in Hin.
Qed.

Lemma update_vote_ids (vote : Vote.t) (vs : list Vote.t) :
  map Vote.id (update_vote vote vs) = map Vote.id vs.
Proof.
  unfold update_vote. rewrite map_map. apply map_ext_in.
  intros v _. unfold has_id. destruct (Z.eqb_spec (Vote.id vote) (Vote.id v));
    congruence.
Qed.

Lemma update_vote_in (vote v' : Vote.t) (vs : list Vote.t) :
  In v' (update_vote vote vs) -> v' = vote \/ In v' vs.
Proof.
  unfold update_vote. intro H. apply in_map_iff in H.
  destruct H as (v & E & Hin). destruct (has_id (Vote.id vote) v); subst; auto.
Qed.

Lemma transfer_cons (i : Z) (rest : list Z) (r : Q) (s : State) :
  transfer (i :: rest) r s =
  match find (has_id i) (votes s) with
  | None => Err DanglingRef
  | Some vote =>
      let vote := set_value (Vote.value vote * r)%Q vote in
      let s := set_votes (update_vote vote (votes s)) s in
      match Vote.get_preference_excluding vote (provisional_winners s) with
      | None => transfer rest r (logging (ExhaustedWithValue i) s)
      | Some next_preference =>
          s <- alloc_vote next_preference vote
                 (logging (AddingSTV (Vote.value vote) i next_preference) s) ;;
          transfer rest r s
      end
  end.
Proof. reflexivity. Qed.

Lemma transfer_spec (todo : list Z) (r : Q) (s s' : State) :
  transfer todo r s = Ok s' -> transfer_post s s'.
Proof.
  revert s. induction todo as [|i rest IH]; intros s H.
  - injection H as <-. apply transfer_post_refl.
  - rewrite transfer_cons in H. cbv zeta in H.
    destruct (find (has_id i) (votes s)) as [vote|] eqn:Ef; [|discriminate].
    apply find_has_id in Ef. destruct Ef as [Hin Hid].
    set (vote' := set_value (Vote.value vote * r)%Q vote) in *.
    set (s1 := set_votes (update_vote vote' (votes s)) s) in *.
    assert (H1 : transfer_post s s1).
    { unfold transfer_post, s1; simpl. repeat split; trivial.
      - apply receives_refl.
      - apply update_vote_ids.
      - intros v' Hv'. apply update_vote_in in Hv'.
        destruct Hv' as [->|Hv']; [now exists vote | now exists v'].
      - exists []. repeat split; trivial. intros t []. }
    destruct (Vote.get_preference_excluding vote' (provisional_winners s1))
      as [next|] eqn:En.
    + unfold bind in H.
      destruct (alloc_vote next vote'
                  (logging (AddingSTV (Vote.value vote') i next) s1))
        as [s2|] eqn:Ea; [|discriminate H].
      apply IH in H. eapply transfer_post_trans; [|exact H].
      eapply transfer_post_trans; [exact H1|].
      apply get_preference_excluding_spec in En. destruct En as [_ Hnot].
      apply alloc_vote_inv in Ea.
      destruct Ea as [[_ ->] | (_ & _ & ->)]; unfold transfer_post; simpl;
        repeat split; trivial.
      * now apply alloc_in_receives.
      * intros v' Hv'. now exists v'.
      * exists [AddingSTV (Vote.value vote') i next]. repeat split; trivial.
        simpl. intros t [<-|[]]. exact Hnot.
      * apply receives_refl.
      * apply alloc_in_names.
      * intros v' Hv'. now exists v'.
      * exists [AddingSTV (Vote.value vote') i next]. repeat split; trivial.
        simpl. intros t [<-|[]]. exact Hnot.
    + apply IH in H. eapply transfer_post_trans; [|exact H].
      eapply transfer_post_trans; [exact H1|].
      unfold transfer_post; simpl. repeat split; trivial.
      * apply receives_refl.
      * intros v' Hv'. now exists v'.
      * exists [ExhaustedWithValue i]. repeat split; trivial. intros t [].
Qed.

(** ** One surplus distribution *)

Lemma calc_inv (s s' : State) :
  calc_and_distribute_surplus s = Ok s' ->
  exists c s1,
    surplus_candidate s = Ok c /\
    ~ (Candidate.total_value c == 0)%Q /\
    transfer (Candidate.votes c)
      ((Candidate.total_value c - quota s) / Candidate.total_value c)%Q
      (logging (SurplusValue (Candidate.name c)
                  (Candidate.total_value c - quota s)%Q) s) = Ok s1 /\
    s' = set_provisional_winners
           (winners_of (set_candidates
                          (clamp (Candidate.name c) (quota s1) (candidates s1)) s1))
           (set_candidates
              (clamp (Candidate.name c) (quota s1) (candidates s1)) s1).
Proof.
  unfold calc_and_distribute_surplus, bind.
  destruct (surplus_candidate s) as [c|] eqn:Ec; [|discriminate].
  cbv zeta. cbn [quota logging].
  destruct (Qeq_bool (Candidate.total_value c) 0) eqn:Ez; [discriminate|].
  destruct (transfer _ _ _) as [s1|] eqn:Et; [|discriminate].
  intros [= <-]. exists c, s1. repeat split; trivial.
  now apply Qeq_bool_neq.
Qed.

Lemma clamp_names (n : string) (q : Q) (cs : list Candidate.t) :
  map Candidate.name (clamp n q cs) = map Candidate.name cs.
Proof.
  unfold clamp. rewrite map_map. apply map_ext.
  intro c. now destruct (has_name n c).
Qed.

Lemma clamp_in (n : string) (q : Q) (cs : list Candidate.t) (c' : Candidate.t) :
  In c' (clamp n q cs) ->
  exists c, In c cs /\
    ((Candidate.name c = n /\ c' = set_total_value q c) \/
     (Candidate.name c <> n /\ c' = c)).
Proof.
  unfold clamp. intro H. apply in_map_iff in H. destruct H as (c & E & Hin).
  exists c. split; trivial. unfold has_name in E.
  destruct (String.eqb_spec n (Candidate.name c)); subst; [left | right]; auto.
Qed.

(** C5.  After [calc_and_distribute_surplus], the candidate that [max]
    selected is still in the dict and its [total_value] is the quota, which
    the step has not changed. *)
Theorem surplus_clamp (s s' : State) (c : Candidate.t) :
  surplus_candidate s = Ok c ->
  calc_and_distribute_surplus s = Ok s' ->
  quota s' = quota s /\
  (exists c', In c' (candidates s') /\ Candidate.name c' = Candidate.name c) /\
  (forall c', In c' (candidates s') ->
              Candidate.name c' = Candidate.name c ->
              Candidate.total_value c' = quota s').
Proof.
  intros Hc H. apply calc_inv in H.
  destruct H as (c0 & s1 & Hc0 & _ & Ht & ->).
  rewrite Hc in Hc0. injection Hc0 as <-.
  apply transfer_spec in Ht.
  destruct Ht as (_ & _ & Hq & _ & Hr & _). cbn in Hq, Hr.
  apply receives_names in Hr.
  cbn. split; [exact Hq|]. split.
  - apply surplus_candidate_least in Hc. destruct Hc as [Hin _].
    assert (Hn : In (Candidate.name c) (map Candidate.name (candidates s)))
      by now apply in_map.
    rewrite <- Hr, <- (clamp_names (Candidate.name c) (quota s1)) in Hn.
    apply in_map_iff in Hn. destruct Hn as (c' & E & Hin'). now exists c'.
  - intros c' Hin E. apply clamp_in in Hin.
    destruct Hin as (c1 & _ & [[_ ->] | [Hne ->]]); [reflexivity|].
    congruence.
Qed.

Lemma surplus_clamp_witness :
  surplus_candidate one_surplus_distributed = Ok one_surplus_candidate /\
  calc_and_distribute_surplus one_surplus_distributed
    = Ok one_surplus_transferred /\
  (quota one_surplus_transferred = quota one_surplus_distributed /\
   (exists c', In c' (candidates one_surplus_transferred) /\
               Candidate.name c' = Candidate.name one_surplus_candidate) /\
   (forall c', In c' (candidates one_surplus_transferred) ->
               Candidate.name c' = Candidate.name one_surplus_candidate ->
               Candidate.total_value c' = quota one_surplus_transferred)).
Proof.
  assert (H1 : surplus_candidate one_surplus_distributed
               = Ok one_surplus_candidate) by (vm_compute; reflexivity).
  assert (H2 : calc_and_distribute_surplus one_surplus_distributed
               = Ok one_surplus_transferred) by (vm_compute; reflexivity).
  split; [exact H1|]. split; [exact H2|].
  exact (surplus_clamp _ _ _ H1 H2).
Defined.

(** ** The distribution of preferences *)

Lemma distribute_cons (vote : Vote.t) (rest : list Vote.t) (s : State) :
  distribute (vote :: rest) s =
  match Vote.get_preference (set_value 1%Q vote) with
  | None => Err AttributeError
  | Some candidate =>
      s <- alloc_vote candidate (set_value 1%Q vote) s ;;
      distribute rest
        (set_total_votes (total_votes s + Vote.value (set_value 1%Q vote))%Q
           (set_votes (votes s ++ [set_value 1%Q vote]) s))
  end.
Proof. reflexivity. Qed.

Lemma distribute_spec (todo : list Vote.t) (s s' : State) :
  distribute todo s = Ok s' -> distribute_post todo s s'.
Proof.
  revert s. induction todo as [|vote rest IH]; intros s H.
  - injection H as <-. unfold distribute_post; simpl.
    repeat split; trivial.
    + now rewrite app_nil_r.
    + ring.
  - rewrite distribute_cons in H.
    destruct (Vote.get_preference (set_value 1%Q vote)) as [c|]; [|discriminate].
    unfold bind in H.
    destruct (alloc_vote c (set_value 1%Q vote) s) as [s1|] eqn:Ea;
      [|discriminate H].
    apply IH in H.
    destruct H as (Hv & Hp & Hq & Hl & Hc & Hd & Hvs & Ht). fields.
    apply alloc_vote_inv in Ea.
    assert (E : vacancies s1 = vacancies s /\
                provisional_winners s1 = provisional_winners s /\
                quota s1 = quota s /\ log s1 = log s /\
                map Candidate.name (candidates s1)
                  = map Candidate.name (candidates s) /\
                map Candidate.name (detached s1)
                  = map Candidate.name (detached s) /\
                votes s1 = votes s /\ total_votes s1 = total_votes s).
    { destruct Ea as [[_ ->] | (_ & _ & ->)]; fields; repeat split; trivial;
        apply alloc_in_names. }
    destruct E as (Ev & Ep & Eq & El & Ec & Ed & Evs & Et).
    unfold distribute_post. repeat split; try congruence.
    + rewrite Hvs, Evs, <- app_assoc. reflexivity.
    + rewrite Ht, Et. simpl. ring.
Qed.

Lemma distribution_inv (s s' : State) :
  distribution_of_preferences s = Ok s' ->
  (1 + vacancies s <> 0)%Z /\
  vacancies s' = vacancies s /\
  map Candidate.name (candidates s') = map Candidate.name (candidates s) /\
  map Candidate.name (detached s') = map Candidate.name (detached s) /\
  votes s' = map (set_value 1%Q)
                 (filter (fun v => negb (exhausted v)) (votes s)) /\
  (total_votes s' == Qsum (map Vote.value (votes s')))%Q /\
  quota s' = (inject_Z (Qfloor (total_votes s' / inject_Z (1 + vacancies s')))
              + 1)%Q /\
  fresh s' /\
  log s' = CalculatedQuota (quota s')
           :: RemovingExhausted (map Vote.id (filter exhausted (votes s)))
           :: log s.
Proof.
  unfold distribution_of_preferences, bind. cbv zeta.
  destruct (distribute _ _) as [s1|] eqn:Ed; [|discriminate].
  destruct (Z.eqb_spec (1 + vacancies s1) 0) as [|Hz]; [discriminate|].
  intros [= <-].
  apply distribute_spec in Ed.
  destruct Ed as (Hv & Hp & Hq & Hl & Hc & Hd & Hvs & Ht). fields.
  rewrite Hv in Hz. rewrite app_nil_l in Hvs.
  repeat split; trivial.
  - rewrite Hc, map_map. reflexivity.
  - rewrite Ht, Hvs. ring.
  - now rewrite Hl.
Qed.

Lemma Qsum_ones (vs : list Vote.t) :
  (Qsum (map Vote.value (map (set_value 1%Q) vs))
   == inject_Z (Z.of_nat (length vs)))%Q.
Proof.
  induction vs as [|v vs IH].
  - reflexivity.
  - cbn [map Qsum fold_right set_value Vote.value length].
    fold (Qsum (map Vote.value (map (set_value 1%Q) vs))).
    rewrite IH, Nat2Z.inj_succ. unfold Z.succ. rewrite inject_Z_plus.
    change (inject_Z 1) with 1%Q. ring.
Qed.

(** C4.  After [distribution_of_preferences], [self.votes] holds the votes
    it held before that are not exhausted, each with value 1;
    [total_votes] is the sum of their values, which is their number; and
    [quota] is [floor(total_votes / (1 + vacancies)) + 1], with [vacancies]
    unchanged. *)
Theorem quota_after_distribution (s s' : State) :
  distribution_of_preferences s = Ok s' ->
  quota s' = (inject_Z (Qfloor (total_votes s' / inject_Z (1 + vacancies s')))
              + 1)%Q /\
  (total_votes s' == Qsum (map Vote.value (votes s')))%Q /\
  (forall v, In v (votes s') -> exhausted v = false) /\
  vacancies s' = vacancies s /\
  votes s' = map (set_value 1%Q)
                 (filter (fun v => negb (exhausted v)) (votes s)) /\
  (total_votes s' == inject_Z (Z.of_nat (length (votes s'))))%Q.
Proof.
  intro H. apply distribution_inv in H.
  destruct H as (_ & Hv & _ & _ & Hvs & Ht & Hq & _).
  split; [exact Hq|]. split; [exact Ht|]. split.
  - intros v Hin. rewrite Hvs in Hin. apply in_map_iff in Hin.
    destruct Hin as (v0 & <- & Hin). apply filter_In in Hin.
    destruct Hin as [_ Hin]. apply negb_true_iff in Hin.
    unfold exhausted in *. simpl. exact Hin.
  - split; [exact Hv|]. split; [exact Hvs|].
    rewrite Ht, Hvs, Qsum_ones, length_map. reflexivity.
Qed.

Lemma quota_after_distribution_witness :
  distribution_of_preferences
    (logging (StartingRound 1) (init 2 ballots_one_surplus))
    = Ok one_surplus_distributed /\
  (quota one_surplus_distributed
   = (inject_Z (Qfloor (total_votes one_surplus_distributed
                        / inject_Z (1 + vacancies one_surplus_distributed)))
      + 1)%Q /\
   (total_votes one_surplus_distributed
    == Qsum (map Vote.value (votes one_surplus_distributed)))%Q /\
   (forall v, In v (votes one_surplus_distributed) -> exhausted v = false) /\
   vacancies one_surplus_distributed
   = vacancies (logging (StartingRound 1) (init 2 ballots_one_surplus)) /\
   votes one_surplus_distributed
   = map (set_value 1%Q)
         (filter (fun v => negb (exhausted v))
                 (votes (logging (StartingRound 1)
                           (init 2 ballots_one_surplus)))) /\
   (total_votes one_surplus_distributed
    == inject_Z (Z.of_nat (length (votes one_surplus_distributed))))%Q).
Proof.
  assert (H : distribution_of_preferences
                (logging (StartingRound 1) (init 2 ballots_one_surplus))
              = Ok one_surplus_distributed) by (vm_compute; reflexivity).
  split; [exact H|].
  exact (quota_after_distribution _ _ H).
Defined.

(** ** The exclusion of a candidate *)

Lemma min_from_in (m : Q) (l : list Q) : In (min_from m l) (m :: l).
Proof.
  revert m. induction l as [|x l IH]; intro m; simpl.
  - now left.
  - destruct (Qltb x m).
    + right. apply IH.
    + destruct (IH m) as [H|H]; [now left | right; now right].
Qed.

Lemma minimum_votes_ok (s : State) :
  candidates s <> [] ->
  exists l, minimum_votes s = Ok l /\ l <> [] /\
            forall c, In c l -> In c (candidates s).
Proof.
  unfold minimum_votes, py_min, bind. intro Hne.
  destruct (candidates s) as [|c0 cs] eqn:E; [contradiction|].
  cbn [map]. eexists. split; [reflexivity|].
  set (m := min_from _ _).
  assert (Hm : In m (map Candidate.total_value (c0 :: cs)))
    by apply min_from_in.
  apply in_map_iff in Hm. destruct Hm as (c & Hc & Hin).
  split.
  - intro Hnil.
    assert (H : In c (filter (fun c => Qeq_bool (Candidate.total_value c) m)
                             (c0 :: cs))).
    { apply filter_In. split; trivial. rewrite Hc. apply Qeq_bool_refl. }
    rewrite Hnil in H. contradiction.
  - intros c' H. apply filter_In in H. tauto.
Qed.


Lemma choice_in {A : Type} (draw : nat) (l : list A) (x : A) :
  choice draw l = Ok x -> In x l.
Proof.
  unfold choice. destruct (nth_error l (draw mod length l)) eqn:E;
    [|discriminate].
  intros [= <-]. eapply nth_error_In; eassumption.
Qed.

Lemma choice_ok {A : Type} (draw : nat) (l : list A) :
  l <> [] -> exists x, choice draw l = Ok x.
Proof.
  intro Hne. unfold choice.
  destruct (nth_error l (draw mod length l)) eqn:E; [eauto|].
  exfalso. apply nth_error_None in E.
  assert (length l <> 0%nat) by (destruct l; simpl; congruence).
  pose proof (Nat.mod_upper_bound draw (length l) H). lia.
Qed.

Lemma choice_singleton {A : Type} (draw : nat) (x : A) :
  choice draw [x] = Ok x.
Proof.
  unfold choice. simpl length. now rewrite Nat.mod_1_r.
Qed.

Lemma pop_key_spec (n : string) (cs : list Candidate.t)
  (x : Candidate.t) (rest : list Candidate.t) :
  pop_key n cs = Some (x, rest) ->
  Candidate.name x = n /\
  length cs = S (length rest) /\
  (forall c, In c cs <-> c = x \/ In c rest) /\
  (forall m, In m (map Candidate.name cs)
             <-> m = n \/ In m (map Candidate.name rest)) /\
  (NoDup (map Candidate.name cs) ->
   NoDup (map Candidate.name rest) /\ ~ In n (map Candidate.name rest)).
Proof.
  revert rest. induction cs as [|c cs IH]; intros rest H; simpl in H.
  - discriminate.
  - unfold has_name in H. destruct (String.eqb_spec n (Candidate.name c)).
    + injection H as <- <-. subst n.
      split; [reflexivity|]. split; [reflexivity|].
      split; [simpl; intuition congruence|].
      split; [simpl; intuition congruence|].
      intro Hd. simpl in Hd. inversion Hd; subst. now split.
    + destruct (pop_key n cs) as [[x0 rest0]|]; [|discriminate].
      injection H as <- <-.
      destruct (IH rest0 eq_refl) as (Hn & Hl & Hin & Hnm & Hnd).
      split; [exact Hn|]. split; [simpl; now rewrite Hl|].
      split; [intro c'; simpl; rewrite Hin; tauto|].
      split; [intro m; simpl; rewrite Hnm; tauto|].
      intro Hd. simpl in Hd. inversion Hd as [|? ? Hnot Hd']; subst.
      destruct (Hnd Hd') as [H1 H2]. split.
      * simpl. constructor; trivial.
        intro Hc. apply Hnot. apply Hnm. now right.
      * simpl. intros [Hc|Hc]; [congruence | now apply H2].
Qed.

Lemma pop_key_ok (n : string) (cs : list Candidate.t) :
  In n (map Candidate.name cs) -> exists x rest, pop_key n cs = Some (x, rest).
Proof.
  induction cs as [|c cs IH]; simpl; [contradiction|].
  intro H. unfold has_name. destruct (String.eqb_spec n (Candidate.name c)).
  - eauto.
  - destruct H as [H|H]; [congruence|].
    destruct (IH H) as (x & rest & ->). eauto.
Qed.

Lemma exclusion_inv (draw : nat) (s s' : State) :
  exclusion_of_candidates draw s = Ok s' ->
  exists minimum excluded obj rest,
    minimum_votes s = Ok minimum /\
    choice draw minimum = Ok excluded /\
    pop_key (Candidate.name excluded) (candidates s) = Some (obj, rest) /\
    candidates s' = rest /\
    detached s' = obj :: detached s /\
    votes s' = map (strike (Candidate.name excluded)) (votes s) /\
    vacancies s' = vacancies s /\
    provisional_winners s' = provisional_winners s /\
    quota s' = quota s /\
    total_votes s' = total_votes s /\
    log s' = Excluding (Candidate.name excluded)
             :: (if (1 <? length minimum)%nat then [ExcludingByLot] else [])
             ++ log s.
Proof.
  unfold exclusion_of_candidates, bind.
  destruct (minimum_votes s) as [minimum|] eqn:Em; [|discriminate].
  destruct (choice draw minimum) as [excluded|] eqn:Ec; [|discriminate].
  cbv zeta.
  destruct (1 <? length minimum)%nat eqn:E1; fields;
    (destruct (pop_key _ _) as [[obj rest]|] eqn:Ep; [|discriminate]);
    intros [= <-]; exists minimum, excluded, obj, rest; fields;
    repeat split; trivial; now rewrite E1.
Qed.

Lemma exclusion_ok (draw : nat) (s : State) :
  candidates s <> [] -> exists s', exclusion_of_candidates draw s = Ok s'.
Proof.
  intro Hne. unfold exclusion_of_candidates, bind.
  destruct (minimum_votes_ok s Hne) as (l & -> & Hl & Hin).
  destruct (choice_ok draw l Hl) as (x & Hx). rewrite Hx.
  cbv zeta.
  assert (Hp : exists obj rest,
             pop_key (Candidate.name x) (candidates s) = Some (obj, rest)).
  { apply pop_key_ok. apply in_map. apply Hin. eapply choice_in; eassumption. }
  destruct Hp as (obj & rest & Hp).
  destruct (1 <? length l)%nat; fields; rewrite Hp; eauto.
Qed.

(** Every exclusion takes exactly one candidate out of the dict. *)
Lemma exclusion_length (draw : nat) (s s' : State) :
  exclusion_of_candidates draw s = Ok s' ->
  length (candidates s) = S (length (candidates s')).
Proof.
  intro H. apply exclusion_inv in H.
  destruct H as (minimum & excluded & obj & rest & _ & _ & Hp & -> & _).
  apply pop_key_spec in Hp. tauto.
Qed.

Lemma list_remove_in (x y : string) (l : list string) :
  In y (list_remove x l) -> In y l.
Proof.
  induction l as [|z l IH]; simpl; [tauto|].
  destruct (String.eqb x z); simpl; tauto.
Qed.

Lemma list_remove_spec (x y : string) (l : list string) :
  NoDup l -> (In y (list_remove x l) <-> y <> x /\ In y l).
Proof.
  induction l as [|z l IH]; intro Hnd; cbn [list_remove].
  - simpl. tauto.
  - apply NoDup_cons_iff in Hnd. destruct Hnd as [Hz Hl].
    destruct (String.eqb_spec x z) as [->|Hxz].
    + split.
      * intro Hy. split; [congruence | now right].
      * intros [Hne [Hy|Hy]]; [congruence | exact Hy].
    + simpl. rewrite (IH Hl). split.
      * intros [<-|[Hne Hy]]; [split; [congruence | now left] | tauto].
      * intros [Hne [Hy|Hy]]; [now left | right; tauto].
Qed.

Lemma list_remove_nodup (x : string) (l : list string) :
  NoDup l -> NoDup (list_remove x l).
Proof.
  induction l as [|z l IH]; intro Hnd; cbn [list_remove]; [constructor|].
  pose proof Hnd as Hnd'. apply NoDup_cons_iff in Hnd. destruct Hnd as [Hz Hl].
  destruct (String.eqb x z); [exact Hl|].
  apply NoDup_cons; [|now apply IH].
  intro Hin. apply Hz. apply (list_remove_in x z l Hin).
Qed.

(** When no preference list of [self.votes] names a candidate twice, the
    candidate that an exclusion logs is in no preference list afterwards. *)
Lemma exclusion_strikes (draw : nat) (s s' : State) :
  (forall v, In v (votes s) -> NoDup (Vote.preference v)) ->
  exclusion_of_candidates draw s = Ok s' ->
  exists n, hd_error (log s') = Some (Excluding n) /\
            forall v', In v' (votes s') -> ~ In n (Vote.preference v').
Proof.
  intros Hnd H. apply exclusion_inv in H.
  destruct H as (minimum & excluded & obj & rest & H).
  destruct H as (_ & _ & _ & _ & _ & Hvs & _ & _ & _ & _ & Hl).
  exists (Candidate.name excluded). split; [now rewrite Hl|].
  intros v' Hv' Hin. rewrite Hvs in Hv'. apply in_map_iff in Hv'.
  destruct Hv' as (v & <- & Hv). unfold strike in Hin.
  destruct (existsb (String.eqb (Candidate.name excluded)) (Vote.preference v))
    eqn:E.
  - cbn [Vote.preference] in Hin.
    apply (list_remove_spec _ _ _ (Hnd v Hv)) in Hin. tauto.
  - assert (existsb (String.eqb (Candidate.name excluded)) (Vote.preference v)
            = true); [|congruence].
    apply existsb_exists. exists (Candidate.name excluded).
    split; [exact Hin | apply String.eqb_refl].
Qed.

Lemma exclusion_single_minimum (draw : nat) (s : State) (x : Candidate.t) :
  minimum_votes s = Ok [x] ->
  exclusion_of_candidates draw s = exclusion_of_candidates 0 s.
Proof.
  intro H. unfold exclusion_of_candidates, bind. rewrite H.
  now rewrite !choice_singleton.
Qed.

(** C2 (the code departs from the claim).  With one vacancy and the ballots
    [ballots_repeated_name], the first round reaches the exclusion step with
    A alone on the least total.  Whatever the draw, the step takes A out of
    the dict, which shrinks by one, but [list.remove] deletes only the first
    occurrence: ballot 1 still lists A. *)
Theorem exclusion_repeated_name (draw : nat) :
  distribution_of_preferences
    (logging (StartingRound 1) (init 1 ballots_repeated_name))
    = Ok repeated_name_distributed /\
  check_all_vacancies_filled repeated_name_distributed = false /\
  check_if_candidates_surplus repeated_name_distributed = false /\
  exists s',
    exclusion_of_candidates draw
      (logging (VotesAfterSurplus (candidates repeated_name_distributed))
               repeated_name_distributed) = Ok s' /\
    hd_error (log s') = Some (Excluding "A") /\
    S (length (candidates s')) = length (candidates repeated_name_distributed) /\
    ~ In "A"%string (map Candidate.name (candidates s')) /\
    exists v, In v (votes s') /\ Vote.id v = 1%Z /\
              In "A"%string (Vote.preference v).
Proof.
  split; [vm_compute; reflexivity|].
  split; [vm_compute; reflexivity|].
  split; [vm_compute; reflexivity|].
  rewrite (exclusion_single_minimum draw _
             (Candidate.mk "A" [1%Z] 1%Q)) by (vm_compute; reflexivity).
  set (r := exclusion_of_candidates 0 _). vm_compute in r. subst r.
  eexists. split; [reflexivity|].
  split; [reflexivity|].
  split; [reflexivity|].
  split.
  - cbn. intros [H|[H|[]]]; discriminate.
  - eexists. split; [left; reflexivity|]. split; [reflexivity|].
    left. reflexivity.
Qed.

(** ** No reference dangles *)

Lemma alloc_vote_names (n : string) (v : Vote.t) (s s' : State) :
  alloc_vote n v s = Ok s' ->
  map Candidate.name (candidates s') = map Candidate.name (candidates s) /\
  map Candidate.name (detached s') = map Candidate.name (detached s) /\
  votes s' = votes s.
Proof.
  intro H. apply alloc_vote_inv in H.
  destruct H as [[_ ->] | (_ & _ & ->)]; fields; repeat split; trivial;
    apply alloc_in_names.
Qed.

Lemma alloc_in_votes (n : string) (v : Vote.t) (cs : list Candidate.t)
  (c' : Candidate.t) (i : Z) :
  In c' (alloc_in n v cs) -> In i (Candidate.votes c') ->
  i = Vote.id v \/ exists c, In c cs /\ In i (Candidate.votes c).
Proof.
  unfold alloc_in. intros Hc Hi. apply in_map_iff in Hc.
  destruct Hc as (c & E & Hin). destruct (has_name n c); subst c'.
  - cbn in Hi. apply set_add_elim in Hi. destruct Hi as [->|Hi]; eauto.
  - eauto.
Qed.

Lemma alloc_vote_refs_ok (n : string) (v : Vote.t) (s s' : State) :
  refs_ok s -> In (Vote.id v) (map Vote.id (votes s)) ->
  alloc_vote n v s = Ok s' -> refs_ok s'.
Proof.
  intros [H1 H2] Hv H.
  destruct (alloc_vote_names _ _ _ _ H) as (Hc & Hd & Hvs).
  split.
  - intros v0 m Hv0 Hm. rewrite Hvs in Hv0. unfold known.
    rewrite Hc, Hd. now apply (H1 v0).
  - intros c' i Hc' Hi. rewrite Hvs.
    apply alloc_vote_inv in H.
    destruct H as [[_ ->] | (_ & _ & ->)]; fields.
    + destruct (alloc_in_votes _ _ _ _ _ Hc' Hi) as [->|(c & Hin & Hic)];
        [exact Hv | now apply (H2 c)].
    + now apply (H2 c').
Qed.


Lemma scale_refs_ok (vote : Vote.t) (x : Q) (s : State) :
  refs_ok s -> In vote (votes s) ->
  refs_ok (set_votes (update_vote (set_value x vote) (votes s)) s).
Proof.
  intros [H1 H2] Hin. split; fields.
  - intros v n Hv Hn. apply update_vote_in in Hv.
    destruct Hv as [->|Hv]; [now apply (H1 vote) | now apply (H1 v)].
  - intros c i Hc Hi. rewrite update_vote_ids. now apply (H2 c).
Qed.

Lemma logging_refs_ok (e : Event) (s : State) : refs_ok s -> refs_ok (logging e s).
Proof. intro H. exact H. Qed.

Lemma transfer_refs_ok (todo : list Z) (r : Q) (s s' : State) :
  refs_ok s -> transfer todo r s = Ok s' -> refs_ok s'.
Proof.
  revert s. induction todo as [|i rest IH]; intros s Hs H.
  - now injection H as <-.
  - rewrite transfer_cons in H. cbv zeta in H.
    destruct (find (has_id i) (votes s)) as [vote|] eqn:Ef; [|discriminate].
    apply find_has_id in Ef. destruct Ef as [Hin Hid].
    pose proof (scale_refs_ok vote (Vote.value vote * r)%Q s Hs Hin) as Hs1.
    destruct (Vote.get_preference_excluding _ _) as [next|].
    + unfold bind in H.
      destruct (alloc_vote _ _ _) as [s2|] eqn:Ea; [|discriminate H].
      apply (IH s2); trivial.
      eapply alloc_vote_refs_ok; [| |exact Ea].
      * now apply logging_refs_ok.
      * fields. rewrite update_vote_ids. cbn [set_value Vote.id].
        now apply in_map.
    + apply (IH _ (logging_refs_ok _ _ Hs1) H).
Qed.

Lemma transfer_ok (todo : list Z) (r : Q) (s : State) :
  refs_ok s -> (forall i, In i todo -> In i (map Vote.id (votes s))) ->
  exists s', transfer todo r s = Ok s'.
Proof.
  revert s. induction todo as [|i rest IH]; intros s Hs Hin.
  - simpl. eauto.
  - rewrite transfer_cons. cbv zeta.
    destruct (find_has_id_in i (votes s)) as (vote & Ef);
      [apply Hin; now left|].
    rewrite Ef. apply find_has_id in Ef. destruct Ef as [Hv Hid].
    pose proof (scale_refs_ok vote (Vote.value vote * r)%Q s Hs Hv) as Hs1.
    set (vote' := set_value (Vote.value vote * r)%Q vote) in *.
    set (s1 := set_votes (update_vote vote' (votes s)) s) in *.
    assert (Hids : forall s2, map Vote.id (votes s2) = map Vote.id (votes s1) ->
                   forall j, In j rest -> In j (map Vote.id (votes s2))).
    { intros s2 E j Hj. rewrite E. unfold s1; fields.
      rewrite update_vote_ids. apply Hin. now right. }
    destruct (Vote.get_preference_excluding vote' (provisional_winners s1))
      as [next|] eqn:En.
    + apply get_preference_excluding_spec in En. destruct En as [Hp _].
      assert (Hk : known (logging (AddingSTV (Vote.value vote') i next) s1) next).
      { destruct Hs as [H1 _]. apply (H1 vote next Hv Hp). }
      destruct (alloc_vote_known next vote' _ Hk) as (s2 & Ea).
      unfold bind. rewrite Ea. apply IH.
      * eapply alloc_vote_refs_ok; [| |exact Ea].
        -- now apply logging_refs_ok.
        -- unfold s1; fields. rewrite update_vote_ids.
           unfold vote'; cbn [set_value Vote.id]. now apply in_map.
      * apply Hids. apply alloc_vote_names in Ea. destruct Ea as (_ & _ & ->).
        reflexivity.
    + apply IH.
      * now apply logging_refs_ok.
      * now apply Hids.
Qed.

(** ** Progress of the surplus phase *)

Lemma winners_of_in (s : State) (c : Candidate.t) :
  In c (candidates s) -> Qle_bool (quota s) (Candidate.total_value c) = true ->
  In (Candidate.name c) (winners_of s).
Proof.
  intros Hin Hq. unfold winners_of. apply in_map. apply filter_In. now split.
Qed.

Lemma not_winner_below (s : State) (c : Candidate.t) :
  In c (candidates s) -> ~ In (Candidate.name c) (winners_of s) ->
  (Candidate.total_value c < quota s)%Q.
Proof.
  intros Hin Hnot. apply Qnot_le_lt. intro Hle. apply Hnot.
  apply winners_of_in; trivial. now apply Qle_bool_iff.
Qed.

Lemma count_decrease {A : Type} (R : A -> A -> Prop) (u : A -> bool)
  (l l' : list A) (x : A) :
  Forall2 R l l' ->
  (forall a b, In a l -> R a b -> u b = true -> u a = true) ->
  In x l -> u x = true -> (forall b, R x b -> u b = false) ->
  (length (filter u l') < length (filter u l))%nat.
Proof.
  intros HF Hmono.
  assert (Hle : forall l l', Forall2 R l l' ->
            (forall a b, In a l -> R a b -> u b = true -> u a = true) ->
            (length (filter u l') <= length (filter u l))%nat).
  { clear. intros l l' HF. induction HF as [|a b l l' Hab _ IH]; intro Hm.
    - simpl. lia.
    - simpl. assert (IH' := IH (fun a0 b0 H => Hm a0 b0 (or_intror H))).
      destruct (u b) eqn:Eb.
      + rewrite (Hm a b (or_introl eq_refl) Hab Eb). simpl. lia.
      + destruct (u a); simpl; lia. }
  revert Hmono. induction HF as [|a b l l' Hab HF IH]; intros Hm Hin Hx Hstrict.
  - contradiction.
  - simpl. destruct Hin as [->|Hin].
    + rewrite Hx, (Hstrict b Hab). simpl.
      pose proof (Hle l l' HF (fun a0 b0 H => Hm a0 b0 (or_intror H))). lia.
    + assert (IH' := IH (fun a0 b0 H => Hm a0 b0 (or_intror H)) Hin Hx Hstrict).
      destruct (u b) eqn:Eb.
      * rewrite (Hm a b (or_introl eq_refl) Hab Eb). simpl. lia.
      * destruct (u a); simpl; lia.
Qed.

Lemma Forall2_map_r {A B : Type} (R : A -> A -> Prop) (f : A -> B)
  (l l' : list A) :
  Forall2 R l l' ->
  Forall2 (fun a b => exists a', R a a' /\ b = f a') l (map f l').
Proof.
  induction 1; simpl; constructor; eauto.
Qed.

Lemma surplus_candidate_ok (s : State) :
  check_if_candidates_surplus s = true -> exists c, surplus_candidate s = Ok c.
Proof.
  unfold check_if_candidates_surplus, surplus_candidate, py_max. intro H.
  apply existsb_exists in H. destruct H as (c & Hin & Hs).
  destruct (filter (has_surplus s) (candidates s)) eqn:E; [|eauto].
  assert (Hf : In c (filter (has_surplus s) (candidates s)))
    by (apply filter_In; now split).
  rewrite E in Hf. contradiction.
Qed.

Lemma calc_ok (s : State) :
  refs_ok s -> (0 <= quota s)%Q -> check_if_candidates_surplus s = true ->
  exists s', calc_and_distribute_surplus s = Ok s'.
Proof.
  intros Hs Hq Hsur. destruct (surplus_candidate_ok s Hsur) as (c & Hc).
  unfold calc_and_distribute_surplus, bind. rewrite Hc. cbv zeta.
  pose proof (surplus_candidate_least s c Hc) as (Hin & Hsc & _).
  unfold has_surplus in Hsc. apply Qltb_iff in Hsc.
  destruct (Qeq_bool (Candidate.total_value c) 0) eqn:Ez.
  - apply Qeq_bool_iff in Ez. rewrite Ez in Hsc. exfalso.
    apply (Qlt_not_le _ _ Hsc Hq).
  - destruct (transfer_ok (Candidate.votes c)
                ((Candidate.total_value c - quota s) / Candidate.total_value c)%Q
                (logging (SurplusValue (Candidate.name c)
                            (Candidate.total_value c - quota s)%Q) s))
      as (s1 & Et).
    + now apply logging_refs_ok.
    + intros i Hi. destruct Hs as [_ H2]. now apply (H2 c).
    + fields. rewrite Et. eauto.
Qed.

Lemma calc_post (s s' : State) :
  calc_and_distribute_surplus s = Ok s' ->
  vacancies s' = vacancies s /\
  quota s' = quota s /\
  total_votes s' = total_votes s /\
  map Candidate.name (candidates s') = map Candidate.name (candidates s) /\
  map Candidate.name (detached s') = map Candidate.name (detached s) /\
  map Vote.id (votes s') = map Vote.id (votes s) /\
  fresh s' /\
  (refs_ok s -> refs_ok s') /\
  (exists c evs,
     surplus_candidate s = Ok c /\
     log s' = evs ++ SurplusValue (Candidate.name c)
                       (Candidate.total_value c - quota s)%Q :: log s /\
     forallb is_transfer_event evs = true /\
     (forall t, In t (allocation_targets evs) ->
                ~ In t (provisional_winners s))).
Proof.
  intro H. apply calc_inv in H. destruct H as (c & s1 & Hc & _ & Ht & ->).
  pose proof (transfer_spec _ _ _ _ Ht)
    as (Hv & Hp & Hq & Htv & Hr & Hd & Hi & Hf & evs & Hl & He & Ha).
  fields. apply receives_names in Hr.
  split; [exact Hv|]. split; [exact Hq|]. split; [exact Htv|].
  split; [now rewrite clamp_names|]. split; [exact Hd|]. split; [exact Hi|].
  split; [reflexivity|]. split.
  - intro Hs. apply (transfer_refs_ok _ _ _ _ (logging_refs_ok _ _ Hs)) in Ht.
    destruct Ht as [H1 H2]. split; fields.
    + intros v n Hv' Hn. unfold known; fields. rewrite clamp_names.
      now apply (H1 v).
    + intros c' i Hc' Hi'. apply clamp_in in Hc'.
      destruct Hc' as (c1 & Hin1 & [[_ ->] | [_ ->]]); now apply (H2 c1).
  - exists c, evs. split; [exact Hc|]. split; [exact Hl|]. now split.
Qed.

Lemma calc_decreases (s s' : State) :
  fresh s -> calc_and_distribute_surplus s = Ok s' ->
  (unsettled_count s' < unsettled_count s)%nat.
Proof.
  intros Hfresh H. apply calc_inv in H.
  destruct H as (c & s1 & Hc & _ & Ht & ->).
  pose proof (transfer_spec _ _ _ _ Ht) as (_ & _ & Hq & _ & Hr & _).
  fields. unfold unsettled_count; fields. rewrite Hq.
  pose proof (surplus_candidate_least s c Hc) as (Hin & Hsc & _).
  unfold has_surplus in Hsc. apply Qltb_iff in Hsc.
  unfold clamp.
  eapply count_decrease with (x := c);
    [apply Forall2_map_r; exact Hr | | exact Hin | |].
  - intros a b Ha (a' & [Hn Hcase] & ->) Hb.
    unfold has_name in Hb. rewrite Hn in Hb.
    destruct (String.eqb (Candidate.name c) (Candidate.name a)).
    + unfold unsettled in Hb. cbn in Hb. now rewrite Qeq_bool_refl in Hb.
    + destruct Hcase as [->|Hnot]; [exact Hb|].
      rewrite Hfresh in Hnot. apply not_winner_below in Hnot; trivial.
      unfold unsettled. apply negb_true_iff.
      destruct (Qeq_bool (Candidate.total_value a) (quota s)) eqn:E; trivial.
      apply Qeq_bool_iff in E. rewrite E in Hnot.
      exfalso. apply (Qlt_irrefl _ Hnot).
  - unfold unsettled. apply negb_true_iff.
    destruct (Qeq_bool (Candidate.total_value c) (quota s)) eqn:E; trivial.
    apply Qeq_bool_iff in E. rewrite E in Hsc.
    exfalso. apply (Qlt_irrefl _ Hsc).
  - intros b (a' & [Hn _] & ->). unfold has_name. rewrite Hn, String.eqb_refl.
    unfold unsettled. cbn. now rewrite Qeq_bool_refl.
Qed.

(** ** The distribution of preferences succeeds *)

Lemma distribute_refs (todo : list Vote.t) (s s' : State) :
  (forall c i, In c (candidates s) -> In i (Candidate.votes c) ->
               In i (map Vote.id (votes s))) ->
  distribute todo s = Ok s' ->
  forall c i, In c (candidates s') -> In i (Candidate.votes c) ->
              In i (map Vote.id (votes s')).
Proof.
  revert s. induction todo as [|vote rest IH]; intros s Hs H.
  - now injection H as <-.
  - rewrite distribute_cons in H.
    destruct (Vote.get_preference (set_value 1%Q vote)) as [n|]; [|discriminate].
    unfold bind in H.
    destruct (alloc_vote n (set_value 1%Q vote) s) as [s1|] eqn:Ea;
      [|discriminate H].
    eapply IH; [|exact H]. fields.
    intros c i Hc Hi. rewrite map_app, in_app_iff.
    pose proof (alloc_vote_names _ _ _ _ Ea) as (_ & _ & Hvs). rewrite Hvs.
    apply alloc_vote_inv in Ea. destruct Ea as [[_ ->] | (_ & _ & ->)]; fields.
    + destruct (alloc_in_votes _ _ _ _ _ Hc Hi) as [->|(c0 & Hc0 & Hi0)].
      * right. now left.
      * left. now apply (Hs c0).
    + left. now apply (Hs c).
Qed.

Lemma distribute_ok (todo : list Vote.t) (s : State) :
  (forall v, In v todo -> exhausted v = false) ->
  (forall v n, In v todo -> In n (Vote.preference v) -> known s n) ->
  exists s', distribute todo s = Ok s'.
Proof.
  revert s. induction todo as [|vote rest IH]; intros s Hex Hk.
  - simpl. eauto.
  - rewrite distribute_cons. unfold Vote.get_preference.
    cbn [set_value Vote.preference].
    pose proof (Hex vote (or_introl eq_refl)) as E. unfold exhausted in E.
    destruct (Vote.preference vote) as [|n pref] eqn:Ep; [discriminate|].
    assert (Hn : known s n) by (apply (Hk vote); [now left | rewrite Ep; now left]).
    destruct (alloc_vote_known n (set_value 1%Q vote) s Hn) as (s1 & Ea).
    unfold bind. rewrite Ea. apply IH.
    + intros v Hv. apply Hex. now right.
    + intros v m Hv Hm. unfold known; fields.
      apply alloc_vote_names in Ea. destruct Ea as (-> & -> & _).
      apply (Hk v); [now right | exact Hm].
Qed.

Lemma distribution_ok (s : State) :
  refs_ok s -> (1 + vacancies s <> 0)%Z ->
  exists s', distribution_of_preferences s = Ok s'.
Proof.
  intros [H1 _] Hz. unfold distribution_of_preferences. cbv zeta.
  set (s0 := set_votes [] _).
  destruct (distribute_ok
              (filter (fun v => negb (exhausted v)) (votes s)) s0)
    as (s1 & Ed).
  - intros v Hv. apply filter_In in Hv. destruct Hv as [_ Hv].
    now apply negb_true_iff in Hv.
  - intros v n Hv Hn. apply filter_In in Hv. destruct Hv as [Hv _].
    unfold known, s0; fields. rewrite map_map. cbn [reset Candidate.name].
    now apply (H1 v).
  - unfold bind. fields. fold s0. rewrite Ed.
    apply distribute_spec in Ed. destruct Ed as (Hv & _).
    rewrite Hv. unfold s0; fields.
    destruct (Z.eqb_spec (1 + vacancies s) 0); [contradiction | eauto].
Qed.

Lemma distribution_refs_ok (s s' : State) :
  refs_ok s -> distribution_of_preferences s = Ok s' -> refs_ok s'.
Proof.
  intros [H1 _] H.
  pose proof (distribution_inv _ _ H) as (_ & _ & Hc & Hd & Hvs & _).
  split.
  - intros v n Hv Hn. rewrite Hvs in Hv. apply in_map_iff in Hv.
    destruct Hv as (v0 & <- & Hv0). apply filter_In in Hv0.
    unfold known. rewrite Hc, Hd. now apply (H1 v0).
  - unfold distribution_of_preferences, bind in H. cbv zeta in H.
    destruct (distribute _ _) as [s1|] eqn:Ed; [|discriminate].
    destruct (Z.eqb (1 + vacancies s1) 0); [discriminate|].
    injection H as <-. fields.
    eapply distribute_refs; [|exact Ed].
    fields. intros c i Hc' Hi. apply in_map_iff in Hc'.
    destruct Hc' as (c0 & <- & _). contradiction.
Qed.

Lemma Qsum_nonneg (l : list Q) :
  (forall x, In x l -> (0 <= x)%Q) -> (0 <= Qsum l)%Q.
Proof.
  induction l as [|x l IH]; intro H; simpl.
  - apply Qle_refl.
  - assert (0 <= x)%Q by (apply H; now left).
    assert (0 <= Qsum l)%Q by (apply IH; intros y Hy; apply H; now right).
    lra.
Qed.

Lemma distribution_quota (s s' : State) :
  distribution_of_preferences s = Ok s' -> (0 <= vacancies s)%Z ->
  (1 <= quota s')%Q.
Proof.
  intros H Hv.
  pose proof (distribution_inv _ _ H) as (_ & Hv' & _ & _ & Hvs & Ht & Hq & _).
  rewrite Hq, Hv'.
  assert (H0 : (0 <= total_votes s')%Q).
  { rewrite Ht. apply Qsum_nonneg. intros x Hx. rewrite Hvs in Hx.
    rewrite map_map in Hx. apply in_map_iff in Hx.
    destruct Hx as (v & <- & _). cbn. discriminate. }
  assert (Hd : (0 < inject_Z (1 + vacancies s))%Q).
  { change 0%Q with (inject_Z 0). rewrite <- Zlt_Qlt. lia. }
  assert (Hdiv : (0 <= total_votes s' / inject_Z (1 + vacancies s))%Q).
  { apply Qle_shift_div_l; [exact Hd | lra]. }
  apply Qfloor_resp_le in Hdiv. change (Qfloor 0) with 0%Z in Hdiv.
  rewrite Zle_Qle in Hdiv. change (inject_Z 0) with 0%Q in Hdiv. lra.
Qed.

(** ** Exclusion keeps the references valid *)

Lemma strike_id (n : string) (v : Vote.t) : Vote.id (strike n v) = Vote.id v.
Proof.
  unfold strike. now destruct (existsb _ _).
Qed.

Lemma strike_value (n : string) (v : Vote.t) :
  Vote.value (strike n v) = Vote.value v.
Proof.
  unfold strike. now destruct (existsb _ _).
Qed.

Lemma strike_preference_in (n m : string) (v : Vote.t) :
  In m (Vote.preference (strike n v)) -> In m (Vote.preference v).
Proof.
  unfold strike. destruct (existsb _ _); cbn; [apply list_remove_in | tauto].
Qed.

Lemma strike_ids (n : string) (vs : list Vote.t) :
  map Vote.id (map (strike n) vs) = map Vote.id vs.
Proof.
  rewrite map_map. apply map_ext. intro v. apply strike_id.
Qed.

Lemma exclusion_refs_ok (draw : nat) (s s' : State) :
  refs_ok s -> exclusion_of_candidates draw s = Ok s' -> refs_ok s'.
Proof.
  intros [H1 H2] H. apply exclusion_inv in H.
  destruct H as (minimum & excluded & obj & rest & _ & _ & Hp & Hc & Hd & Hvs & _).
  apply pop_key_spec in Hp. destruct Hp as (Hn & _ & Hin & Hnm & _).
  split.
  - intros v' m Hv' Hm. rewrite Hvs in Hv'. apply in_map_iff in Hv'.
    destruct Hv' as (v & <- & Hv). apply strike_preference_in in Hm.
    unfold known. rewrite Hc, Hd. cbn [map]. rewrite Hn.
    destruct (H1 v m Hv Hm) as [Hk|Hk].
    + apply Hnm in Hk. destruct Hk as [->|Hk]; [right; now left | now left].
    + right. now right.
  - intros c i Hc' Hi. rewrite Hvs, strike_ids. rewrite Hc in Hc'.
    apply (H2 c); trivial. apply Hin. now right.
Qed.

(** ** The state built by the constructor *)

Lemma NoDup_snoc {A : Type} (x : A) (l : list A) :
  NoDup l -> ~ In x l -> NoDup (l ++ [x]).
Proof.
  induction l as [|y l IH]; intros Hd Hx; simpl.
  - constructor; [tauto | constructor].
  - inversion Hd as [|? ? Hy Hd']; subst. constructor.
    + rewrite in_app_iff. intros [H|[H|[]]]; [tauto|]. apply Hx. now left.
    + apply IH; trivial. intro H. apply Hx. now right.
Qed.

Lemma add_candidate_spec (n : string) (s : State) :
  vacancies (add_candidate n s) = vacancies s /\
  detached (add_candidate n s) = detached s /\
  votes (add_candidate n s) = votes s /\
  provisional_winners (add_candidate n s) = provisional_winners s /\
  log (add_candidate n s) = log s /\
  In n (map Candidate.name (candidates (add_candidate n s))) /\
  (forall m, In m (map Candidate.name (candidates s)) ->
             In m (map Candidate.name (candidates (add_candidate n s)))) /\
  (NoDup (map Candidate.name (candidates s)) ->
   NoDup (map Candidate.name (candidates (add_candidate n s)))) /\
  (forall c, In c (candidates (add_candidate n s)) ->
             In c (candidates s) \/ c = Candidate.new n).
Proof.
  unfold add_candidate.
  destruct (existsb (has_name n) (candidates s)) eqn:E.
  - apply existsb_has_name in E. repeat split; trivial. intros c Hc. now left.
  - apply existsb_has_name_false in E. fields.
    split; [reflexivity|]. split; [reflexivity|]. split; [reflexivity|].
    split; [reflexivity|]. split; [reflexivity|].
    split; [rewrite map_app, in_app_iff; right; now left|].
    split; [intros m Hm; rewrite map_app, in_app_iff; now left|].
    split.
    + intro Hd. rewrite map_app. cbn [map Candidate.new Candidate.name].
      now apply NoDup_snoc.
    + intros c Hc. apply in_app_or in Hc. destruct Hc as [Hc|[<-|[]]]; auto.
Qed.

Lemma add_candidates_spec (preference : list string) (s : State) :
  let s' := fold_left (fun s c => add_candidate c s) preference s in
  vacancies s' = vacancies s /\
  detached s' = detached s /\
  votes s' = votes s /\
  provisional_winners s' = provisional_winners s /\
  log s' = log s /\
  (forall n, In n preference -> In n (map Candidate.name (candidates s'))) /\
  (forall m, In m (map Candidate.name (candidates s)) ->
             In m (map Candidate.name (candidates s'))) /\
  (NoDup (map Candidate.name (candidates s)) ->
   NoDup (map Candidate.name (candidates s'))) /\
  (forall c, In c (candidates s') ->
             In c (candidates s) \/ exists n, c = Candidate.new n).
Proof.
  revert s. induction preference as [|n pref IH]; intro s; cbn [fold_left].
  - cbv zeta. repeat split; trivial; try tauto. intros n [].
  - specialize (IH (add_candidate n s)). cbv zeta in IH |- *.
    destruct IH as (Hv & Hd & Hvs & Hp & Hl & Hin & Hmono & Hnd & Hc).
    destruct (add_candidate_spec n s)
      as (Hv' & Hd' & Hvs' & Hp' & Hl' & Hin' & Hmono' & Hnd' & Hc').
    split; [congruence|]. split; [congruence|]. split; [congruence|].
    split; [congruence|]. split; [congruence|].
    split; [intros m [<-|Hm]; auto|].
    split; [auto|]. split; [auto|].
    intros c H. destruct (Hc c H) as [H0|H0]; [|now right].
    destruct (Hc' c H0) as [H1|H1]; [now left | right; eauto].
Qed.

Lemma add_ballot_pristine (s : State) (ballot : Z * list string) :
  pristine s -> pristine (add_ballot s ballot).
Proof.
  destruct ballot as [i preference].
  intros (Hd & Hl & Hp & Hc & Hnd & Hk & Hval). unfold add_ballot.
  destruct (add_candidates_spec preference s)
    as (_ & Hd' & Hvs' & Hp' & Hl' & Hin' & Hmono' & Hnd' & Hc').
  cbv zeta in *. set (s1 := fold_left _ preference s) in *.
  unfold pristine; fields.
  split; [congruence|]. split; [congruence|]. split; [congruence|].
  split.
  { intros c H. destruct (Hc' c H) as [H0|[n ->]]; [now apply Hc | now split]. }
  split; [auto|]. split.
  - intros v n Hv Hn. rewrite Hvs' in Hv. apply in_app_or in Hv.
    destruct Hv as [Hv|[<-|[]]].
    + apply Hmono'. now apply (Hk v).
    + now apply Hin'.
  - intros v Hv. rewrite Hvs' in Hv. apply in_app_or in Hv.
    destruct Hv as [Hv|[<-|[]]]; [now apply Hval | reflexivity].
Qed.

Lemma add_ballot_ids (s : State) (ballot : Z * list string) :
  vacancies (add_ballot s ballot) = vacancies s /\
  map Vote.id (votes (add_ballot s ballot))
  = map Vote.id (votes s) ++ [fst ballot].
Proof.
  destruct ballot as [i preference]. unfold add_ballot.
  destruct (add_candidates_spec preference s) as (Hv & _ & Hvs & _).
  cbv zeta in *. fields. rewrite Hvs, map_app. now split.
Qed.

Lemma fold_add_ballot (ballots : list (Z * list string)) (s : State) :
  pristine s ->
  pristine (fold_left add_ballot ballots s) /\
  vacancies (fold_left add_ballot ballots s) = vacancies s /\
  map Vote.id (votes (fold_left add_ballot ballots s))
  = map Vote.id (votes s) ++ map fst ballots.
Proof.
  revert s. induction ballots as [|b bs IH]; intros s Hs; cbn [fold_left map].
  - rewrite app_nil_r. split; [exact Hs | split; reflexivity].
  - destruct (IH (add_ballot s b) (add_ballot_pristine s b Hs)) as (H1 & H2 & H3).
    destruct (add_ballot_ids s b) as [H4 H5].
    split; [exact H1|]. split; [congruence|].
    rewrite H3, H5, <- app_assoc. reflexivity.
Qed.

Lemma init_spec (vac : Z) (ballots : list (Z * list string)) :
  pristine (init vac ballots) /\
  vacancies (init vac ballots) = vac /\
  map Vote.id (votes (init vac ballots)) = map fst ballots.
Proof.
  unfold init. apply fold_add_ballot.
  unfold pristine; cbn.
  split; [reflexivity|]. split; [reflexivity|]. split; [reflexivity|].
  split; [intros c []|]. split; [constructor|].
  split; [intros v n []|intros v []].
Qed.

Lemma pristine_refs_ok (s : State) : pristine s -> refs_ok s.
Proof.
  intros (_ & _ & _ & Hc & _ & Hk & _). split.
  - intros v n Hv Hn. left. now apply (Hk v).
  - intros c i Hin Hi. destruct (Hc c Hin) as [E _]. rewrite E in Hi.
    contradiction.
Qed.

(** ** Counting rounds and surplus distributions in the log *)

Lemma transfer_events_rounds (evs : list Event) :
  forallb is_transfer_event evs = true ->
  filter is_round_start evs = [] /\ filter is_surplus_event evs = [].
Proof.
  induction evs as [|e evs IH]; simpl; [now split|].
  intro H. apply andb_true_iff in H. destruct H as [He H].
  destruct (IH H) as [IH1 IH2]. destruct e; try discriminate; simpl; now split.
Qed.

Lemma distribution_counts (s s' : State) :
  distribution_of_preferences s = Ok s' ->
  rounds s' = rounds s /\ surplus_steps s' = surplus_steps s.
Proof.
  intro H. apply distribution_inv in H.
  destruct H as (_ & _ & _ & _ & _ & _ & _ & _ & Hl).
  unfold rounds, surplus_steps. rewrite Hl. now split.
Qed.

Lemma calc_counts (s s' : State) :
  calc_and_distribute_surplus s = Ok s' ->
  rounds s' = rounds s /\ surplus_steps s' = S (surplus_steps s).
Proof.
  intro H. apply calc_post in H.
  destruct H as (_ & _ & _ & _ & _ & _ & _ & _ & c & evs & _ & Hl & He & _).
  apply transfer_events_rounds in He. destruct He as [E1 E2].
  unfold rounds, surplus_steps. rewrite Hl, !filter_app, E1, E2. now split.
Qed.

Lemma exclusion_counts (draw : nat) (s s' : State) :
  exclusion_of_candidates draw s = Ok s' ->
  rounds s' = rounds s /\ surplus_steps s' = surplus_steps s.
Proof.
  intro H. apply exclusion_inv in H.
  destruct H as (minimum & excluded & obj & rest & H).
  destruct H as (_ & _ & _ & _ & _ & _ & _ & _ & _ & _ & Hl).
  unfold rounds, surplus_steps. rewrite Hl.
  destruct (1 <? length minimum)%nat; now split.
Qed.

(** ** Termination of [elect] *)

Lemma not_filled (s : State) :
  check_all_vacancies_filled s = false ->
  (vacancies s < Z.of_nat (length (candidates s)))%Z /\
  (Z.of_nat (length (provisional_winners s)) < vacancies s)%Z.
Proof.
  unfold check_all_vacancies_filled. intro H.
  apply orb_false_iff in H. destruct H as [H1 H2].
  apply Z.leb_gt in H1. apply Z.leb_gt in H2. now split.
Qed.

Lemma unsettled_count_le (s : State) :
  (unsettled_count s <= length (candidates s))%nat.
Proof.
  unfold unsettled_count. apply filter_length_le.
Qed.

Lemma same_names_length (cs cs' : list Candidate.t) :
  map Candidate.name cs' = map Candidate.name cs -> length cs' = length cs.
Proof.
  intro H. apply (f_equal (@length string)) in H. now rewrite !length_map in H.
Qed.

Lemma surplus_loop_ok (fuel : nat) (s : State) :
  refs_ok s -> fresh s -> (0 <= quota s)%Q ->
  check_all_vacancies_filled s = false ->
  (unsettled_count s <= fuel)%nat ->
  exists returned s',
    surplus_loop fuel s = Ok (returned, s') /\
    refs_ok s' /\
    vacancies s' = vacancies s /\
    length (candidates s') = length (candidates s) /\
    rounds s' = rounds s /\
    (surplus_steps s' <= surplus_steps s + fuel)%nat /\
    check_all_vacancies_filled s' = returned.
Proof.
  revert s. induction fuel as [|fuel IH]; intros s Hs Hf Hq Hnf Hm.
  - cbn [surplus_loop].
    destruct (check_if_candidates_surplus s) eqn:Esur.
    + destruct (calc_ok s Hs Hq Esur) as (s1 & Hc).
      pose proof (calc_decreases s s1 Hf Hc). lia.
    + exists false, s. split; [reflexivity|]. split; [exact Hs|].
      split; [reflexivity|]. split; [reflexivity|]. split; [reflexivity|].
      split; [lia | exact Hnf].
  - cbn [surplus_loop].
    destruct (check_if_candidates_surplus s) eqn:Esur.
    + destruct (calc_ok s Hs Hq Esur) as (s1 & Hc).
      unfold bind. rewrite Hc.
      pose proof (calc_decreases s s1 Hf Hc) as Hdec.
      pose proof (calc_counts s s1 Hc) as [Hr Hss].
      pose proof (calc_post s s1 Hc)
        as (Hv & Hq1 & _ & Hn & _ & _ & Hf1 & Hrefs & _).
      apply same_names_length in Hn.
      destruct (check_all_vacancies_filled s1) eqn:Efill.
      * exists true, s1. split; [reflexivity|]. split; [auto|].
        split; [exact Hv|]. split; [exact Hn|]. split; [exact Hr|].
        split; [lia | exact Efill].
      * destruct (IH s1) as (b & s' & Hl & Hs' & Hv' & Hn' & Hr' & Hss' & Hb);
          auto; [now rewrite Hq1 | lia |].
        exists b, s'. split; [exact Hl|]. split; [exact Hs'|].
        split; [congruence|]. split; [congruence|]. split; [congruence|].
        split; [lia | exact Hb].
    + exists false, s. split; [reflexivity|]. split; [exact Hs|].
      split; [reflexivity|]. split; [reflexivity|]. split; [reflexivity|].
      split; [lia | exact Hnf].
Qed.

Lemma elect_loop_ok (lots : nat -> nat) (fuel : nat) :
  forall (round_nr : nat) (s : State),
  refs_ok s ->
  (length (candidates s) <= fuel + Z.to_nat (vacancies s))%nat ->
  exists s',
    elect_loop fuel lots round_nr s = Ok s' /\
    check_all_vacancies_filled s' = true /\
    (rounds s <= rounds s')%nat /\
    (rounds s' <= rounds s
                  + (length (candidates s) - Z.to_nat (vacancies s)))%nat /\
    (surplus_steps s' + rounds s * length (candidates s)
     <= surplus_steps s + rounds s' * length (candidates s))%nat.
Proof.
  induction fuel as [|fuel IH]; intros round_nr s Hs Hfuel.
  - cbn [elect_loop].
    destruct (check_all_vacancies_filled s) eqn:Efill.
    + exists s. split; [reflexivity|]. split; [exact Efill|]. lia.
    + apply not_filled in Efill. lia.
  - cbn [elect_loop].
    destruct (check_all_vacancies_filled s) eqn:Efill.
    + exists s. split; [reflexivity|]. split; [exact Efill|]. lia.
    + pose proof (not_filled s Efill) as [Hlen Hpw]. cbv zeta.
      set (s0 := logging (StartingRound (S round_nr)) s).
      destruct (distribution_ok s0) as (s1 & Hd);
        [exact Hs | unfold s0; fields; lia |].
      unfold bind. rewrite Hd.
      pose proof (distribution_refs_ok s0 s1 Hs Hd) as Hs1.
      pose proof (distribution_counts s0 s1 Hd) as [Hr1 Hss1].
      assert (Hq1 : (1 <= quota s1)%Q)
        by (apply (distribution_quota s0 s1 Hd); unfold s0; fields; lia).
      pose proof (distribution_inv s0 s1 Hd)
        as (_ & Hv1 & Hn1 & _ & _ & _ & _ & Hf1 & _).
      apply same_names_length in Hn1. unfold s0 in Hv1, Hn1; fields.
      assert (Er : rounds s0 = S (rounds s)) by reflexivity.
      assert (Ess : surplus_steps s0 = surplus_steps s) by reflexivity.
      destruct (check_all_vacancies_filled s1) eqn:Efill1.
      * exists s1. split; [reflexivity|]. split; [exact Efill1|]. nia.
      * destruct (surplus_loop_ok (length (candidates s1)) s1)
          as (b & s2 & Hl & Hs2 & Hv2 & Hn2 & Hr2 & Hss2 & Hb); trivial;
          [lra | apply unsettled_count_le |].
        rewrite Hl. destruct b.
        -- exists s2. split; [reflexivity|]. split; [exact Hb|]. nia.
        -- set (s3 := logging (VotesAfterSurplus (candidates s2)) s2).
           destruct (exclusion_ok (lots (S round_nr)) s3) as (s4 & He).
           { unfold s3; fields. intro E. rewrite E in Hn2. simpl in Hn2. lia. }
           rewrite He.
           pose proof (exclusion_refs_ok _ s3 s4 Hs2 He) as Hs4.
           pose proof (exclusion_counts _ s3 s4 He) as [Hr4 Hss4].
           pose proof (exclusion_length _ s3 s4 He) as Hn4.
           pose proof (exclusion_inv _ s3 s4 He)
             as (? & ? & ? & ? & _ & _ & _ & _ & _ & _ & Hv4 & _).
           unfold s3 in Hn4, Hv4; fields.
           assert (Er3 : rounds s3 = rounds s2) by reflexivity.
           assert (Ess3 : surplus_steps s3 = surplus_steps s2) by reflexivity.
           destruct (IH (S round_nr) s4 Hs4) as (s' & Hl' & Hfill' & Hmono & Hr' & Hss');
             [rewrite Hv4, Hv2, Hv1; lia |].
           exists s'. split; [exact Hl'|]. split; [exact Hfill'|].
           rewrite Hv4, Hv2, Hv1 in Hr'.
           assert (length (candidates s) = S (length (candidates s4))) by lia.
           nia.
Qed.

Lemma WrightSystem_ok (vac : Z) (ballots : list (Z * list string))
  (lots : nat -> nat) :
  exists s,
    WrightSystem vac ballots lots = Ok s /\
    check_all_vacancies_filled s = true /\
    (rounds s <= length (candidates (init vac ballots)) - Z.to_nat vac)%nat /\
    (surplus_steps s <= rounds s * length (candidates (init vac ballots)))%nat.
Proof.
  destruct (init_spec vac ballots) as (Hp & Hv & _).
  pose proof (pristine_refs_ok _ Hp) as Hs.
  destruct Hp as (_ & Hl & _).
  destruct (elect_loop_ok lots (length (candidates (init vac ballots))) 0
              (init vac ballots) Hs) as (s & He & Hf & _ & Hr & Hss); [lia|].
  unfold rounds, surplus_steps in Hr, Hss. rewrite Hl, Hv in *.
  cbn [filter length] in Hr, Hss.
  exists s. split; [exact He|]. split; [exact Hf|].
  unfold rounds, surplus_steps. split; lia.
Qed.

(** C3.  With at least one vacancy and at least one candidate, the count
    started by the constructor returns, in a state that
    [check_all_vacancies_filled] accepts, whatever the draws.  The number
    of rounds started is at most [|initial candidates| - vacancies + 1]
    (the difference read as 0 when there are more vacancies than
    candidates), and each round runs at most [|initial candidates|]
    surplus distributions. *)
Theorem elect_terminates (vac : Z) (ballots : list (Z * list string))
  (lots : nat -> nat) :
  (1 <= vac)%Z ->
  candidates (init vac ballots) <> [] ->
  exists s,
    WrightSystem vac ballots lots = Ok s /\
    check_all_vacancies_filled s = true /\
    (rounds s
     <= length (candidates (init vac ballots)) - Z.to_nat vac + 1)%nat /\
    (surplus_steps s
     <= rounds s * length (candidates (init vac ballots)))%nat.
Proof.
  intros _ _. destruct (WrightSystem_ok vac ballots lots) as (s & H1 & H2 & H3 & H4).
  exists s. split; [exact H1|]. split; [exact H2|]. split; [lia | exact H4].
Qed.

Lemma elect_terminates_witness :
  (1 <= VACANCIES)%Z /\
  candidates (init VACANCIES INITIAL_BALLOTS) <> [] /\
  exists s,
    WrightSystem VACANCIES INITIAL_BALLOTS (fun _ => 0%nat) = Ok s /\
    check_all_vacancies_filled s = true /\
    (rounds s
     <= length (candidates (init VACANCIES INITIAL_BALLOTS))
        - Z.to_nat VACANCIES + 1)%nat /\
    (surplus_steps s
     <= rounds s * length (candidates (init VACANCIES INITIAL_BALLOTS)))%nat.
Proof.
  assert (H1 : (1 <= VACANCIES)%Z) by (unfold VACANCIES; lia).
  assert (H2 : candidates (init VACANCIES INITIAL_BALLOTS) <> [])
    by (vm_compute; discriminate).
  split; [exact H1|]. split; [exact H2|].
  exact (elect_terminates VACANCIES INITIAL_BALLOTS (fun _ => 0%nat) H1 H2).
Defined.

(** C9.  [get_winners] raises exactly when [check_all_vacancies_filled] is
    false; the state that the constructor returns is one in which it is
    true, so the query answers there; and the query leaves the state as it
    is, so asking again gives the same answer. *)
Theorem get_winners_guard :
  (forall s, fst (get_winners s) = Err NotElected
             <-> check_all_vacancies_filled s = false) /\
  (forall s, check_all_vacancies_filled s = true
             <-> exists ws, fst (get_winners s) = Ok ws) /\
  (forall vac ballots lots,
     exists s ws, WrightSystem vac ballots lots = Ok s /\
                  fst (get_winners s) = Ok ws) /\
  (forall s, snd (get_winners s) = s /\
             fst (get_winners (snd (get_winners s))) = fst (get_winners s)).
Proof.
  assert (H : forall s,
            (check_all_vacancies_filled s = true /\
             exists ws, fst (get_winners s) = Ok ws) \/
            (check_all_vacancies_filled s = false /\
             fst (get_winners s) = Err NotElected)).
  { intro s. unfold check_all_vacancies_filled, get_winners.
    destruct (Z.of_nat (length (candidates s)) <=? vacancies s)%Z; cbn [orb fst].
    - left. eauto.
    - destruct (vacancies s <=? Z.of_nat (length (provisional_winners s)))%Z;
        cbn [fst]; [left | right]; eauto. }
  assert (Hsnd : forall s, snd (get_winners s) = s).
  { intro s. unfold get_winners.
    destruct (Z.of_nat (length (candidates s)) <=? vacancies s)%Z;
      [reflexivity|].
    now destruct (vacancies s <=? Z.of_nat (length (provisional_winners s)))%Z. }
  split; [|split; [|split]].
  - intro s. destruct (H s) as [[H1 [ws H2]]|[H1 H2]]; split; intro H3;
      congruence.
  - intro s. destruct (H s) as [[H1 [ws H2]]|[H1 H2]]; split; intro H3;
      eauto; try congruence.
    destruct H3 as [ws H3]. congruence.
  - intros vac ballots lots.
    destruct (WrightSystem_ok vac ballots lots) as (s & H1 & H2 & _).
    destruct (H s) as [[_ [ws H3]]|[H3 _]]; [|congruence].
    exists s, ws. now split.
  - intro s. split; [apply Hsnd|]. now rewrite Hsnd.
Qed.

(** ** Tallies *)

Lemma set_add_new (i : Z) (l : list Z) :
  ~ In i l -> set_add Z.eq_dec i l = l ++ [i].
Proof.
  induction l as [|j l IH]; intro H; simpl; [reflexivity|].
  destruct (Z.eq_dec i j) as [->|_].
  - exfalso. apply H. now left.
  - rewrite IH; [reflexivity|]. intro Hin. apply H. now right.
Qed.

Lemma find_vote_app (i : Z) (vs ws : list Vote.t) :
  find (has_id i) (vs ++ ws)
  = match find (has_id i) vs with
    | Some v => Some v
    | None => find (has_id i) ws
    end.
Proof.
  induction vs as [|v vs IH]; [reflexivity|].
  cbn [app find]. destruct (has_id i v); [reflexivity | exact IH].
Qed.


Lemma find_has_id_none (i : Z) (vs : list Vote.t) :
  ~ In i (map Vote.id vs) -> find (has_id i) vs = None.
Proof.
  intro H. destruct (find (has_id i) vs) as [v|] eqn:E; [|reflexivity].
  apply find_has_id in E. destruct E as [Hin <-].
  exfalso. apply H. now apply in_map.
Qed.

Lemma value_in_snoc_other (vs : list Vote.t) (v : Vote.t) (j : Z) :
  j <> Vote.id v -> value_in (vs ++ [v]) j = value_in vs j.
Proof.
  intro H. unfold value_in. rewrite find_vote_app.
  destruct (find (has_id j) vs); [reflexivity|]. simpl.
  unfold has_id. destruct (Z.eqb_spec j (Vote.id v)); [contradiction | reflexivity].
Qed.

Lemma value_in_snoc_new (vs : list Vote.t) (v : Vote.t) :
  ~ In (Vote.id v) (map Vote.id vs) ->
  value_in (vs ++ [v]) (Vote.id v) = Vote.value v.
Proof.
  intro H. unfold value_in. rewrite find_vote_app, (find_has_id_none _ _ H). simpl.
  unfold has_id. now rewrite Z.eqb_refl.
Qed.

Lemma has_id_true (i : Z) (v : Vote.t) : has_id i v = true <-> i = Vote.id v.
Proof. unfold has_id. apply Z.eqb_eq. Qed.

Lemma has_id_false (i : Z) (v : Vote.t) : has_id i v = false <-> i <> Vote.id v.
Proof. unfold has_id. apply Z.eqb_neq. Qed.

Lemma find_update_other (vote : Vote.t) (vs : list Vote.t) (j : Z) :
  j <> Vote.id vote ->
  find (has_id j) (update_vote vote vs) = find (has_id j) vs.
Proof.
  intro H. induction vs as [|v vs IH]; [reflexivity|].
  cbn [update_vote map find]. fold (update_vote vote vs). rewrite IH.
  destruct (has_id (Vote.id vote) v) eqn:E.
  - apply has_id_true in E.
    assert (E1 : has_id j vote = false) by now apply has_id_false.
    assert (E2 : has_id j v = false) by (apply has_id_false; congruence).
    now rewrite E1, E2.
  - reflexivity.
Qed.

Lemma find_update_same (vote : Vote.t) (vs : list Vote.t) :
  In (Vote.id vote) (map Vote.id vs) ->
  find (has_id (Vote.id vote)) (update_vote vote vs) = Some vote.
Proof.
  induction vs as [|v vs IH]; [contradiction|].
  intro H. cbn [update_vote map find]. fold (update_vote vote vs).
  destruct (has_id (Vote.id vote) v) eqn:E.
  - assert (E1 : has_id (Vote.id vote) vote = true) by now apply has_id_true.
    now rewrite E1.
  - rewrite E. apply IH. destruct H as [H|H]; [|exact H].
    apply has_id_false in E. congruence.
Qed.

Lemma tallied_ext (vs vs' : list Vote.t) (c : Candidate.t) :
  (forall j, In j (Candidate.votes c) -> value_in vs' j = value_in vs j) ->
  tallied vs c -> tallied vs' c.
Proof.
  intros H [Ht Hn]. split; trivial. rewrite Ht. unfold allocated_in.
  rewrite (map_ext_in _ _ _ H). reflexivity.
Qed.

Lemma alloc_tallied (vs : list Vote.t) (c : Candidate.t) (v : Vote.t) :
  tallied vs c -> ~ In (Vote.id v) (Candidate.votes c) ->
  value_in vs (Vote.id v) = Vote.value v ->
  tallied vs (Candidate.alloc_vote c (Vote.id v) (Vote.value v)).
Proof.
  intros [Ht Hn] Hnew Hval. unfold tallied, allocated_in, Candidate.alloc_vote.
  cbn [Candidate.votes Candidate.total_value]. rewrite (set_add_new _ _ Hnew).
  split.
  - rewrite map_app, Qsum_app, Ht. unfold allocated_in. simpl.
    rewrite Hval. ring.
  - now apply NoDup_snoc.
Qed.

Lemma alloc_in_in (n : string) (v : Vote.t) (cs : list Candidate.t)
  (c' : Candidate.t) :
  In c' (alloc_in n v cs) ->
  exists c, In c cs /\ Candidate.name c' = Candidate.name c /\
    ((Candidate.name c = n /\
      c' = Candidate.alloc_vote c (Vote.id v) (Vote.value v)) \/
     (Candidate.name c <> n /\ c' = c)).
Proof.
  unfold alloc_in. intro H. apply in_map_iff in H. destruct H as (c & E & Hin).
  exists c. split; trivial. unfold has_name in E.
  destruct (String.eqb_spec n (Candidate.name c)); subst c'; split; auto.
Qed.

Lemma ledger_skip (P : string -> Prop) (vs : list Vote.t)
  (cs : list Candidate.t) (i : Z) (rest : list Z) :
  ledger P vs cs (i :: rest) -> ledger P vs cs rest.
Proof.
  intros [H1 H2]. split; trivial.
  intros c Hc Hp. destruct (H1 c Hc Hp) as [Ht Hd]. split; trivial.
  intros j Hj Hr. apply (Hd j Hj). now right.
Qed.

Lemma ledger_store (P : string -> Prop) (vs vs' : list Vote.t)
  (cs : list Candidate.t) (rest : list Z) :
  (forall j, ~ In j rest -> value_in vs' j = value_in vs j) ->
  ledger P vs cs rest -> ledger P vs' cs rest.
Proof.
  intros Hv [H1 H2]. split; trivial.
  intros c Hc Hp. destruct (H1 c Hc Hp) as [Ht Hd]. split; trivial.
  apply (tallied_ext vs); trivial.
  intros j Hj. apply Hv. intro Hr. apply (Hd j Hj Hr).
Qed.

Lemma ledger_alloc (P : string -> Prop) (vs : list Vote.t)
  (cs : list Candidate.t) (n : string) (v : Vote.t) (rest : list Z) :
  ledger P vs cs (Vote.id v :: rest) ->
  ~ In (Vote.id v) rest ->
  value_in vs (Vote.id v) = Vote.value v ->
  ledger P vs (alloc_in n v cs) rest.
Proof.
  intros [H1 H2] Hnew Hval.
  assert (Hfresh : forall c, In c cs -> P (Candidate.name c) ->
                             ~ In (Vote.id v) (Candidate.votes c)).
  { intros c Hc Hp Hin. destruct (H1 c Hc Hp) as [_ Hd].
    apply (Hd _ Hin). now left. }
  split.
  - intros c' Hc' Hp. apply alloc_in_in in Hc'.
    destruct Hc' as (c & Hc & Hn & Hcase). rewrite Hn in Hp.
    destruct (H1 c Hc Hp) as [Ht Hd].
    destruct Hcase as [[_ ->] | [_ ->]].
    + split.
      * apply alloc_tallied; auto.
      * intros j Hj Hr. cbn in Hj. apply set_add_elim in Hj.
        destruct Hj as [->|Hj]; [now apply Hnew|].
        apply (Hd j Hj). now right.
    + split; trivial. intros j Hj Hr. apply (Hd j Hj). now right.
  - intros c1' c2' Hc1' Hc2' Hne Hp1 Hp2 j Hj1 Hj2.
    apply alloc_in_in in Hc1'. destruct Hc1' as (c1 & Hc1 & Hn1 & Hcase1).
    apply alloc_in_in in Hc2'. destruct Hc2' as (c2 & Hc2 & Hn2 & Hcase2).
    rewrite Hn1 in Hp1, Hne. rewrite Hn2 in Hp2, Hne.
    pose proof (Hfresh c1 Hc1 Hp1) as Hf1.
    pose proof (Hfresh c2 Hc2 Hp2) as Hf2.
    destruct Hcase1 as [[E1 ->] | [E1 ->]], Hcase2 as [[E2 ->] | [E2 ->]].
    + congruence.
    + cbn in Hj1. apply set_add_elim in Hj1.
      destruct Hj1 as [->|Hj1]; [contradiction|].
      apply (H2 c1 c2 Hc1 Hc2 Hne Hp1 Hp2 j Hj1 Hj2).
    + cbn in Hj2. apply set_add_elim in Hj2.
      destruct Hj2 as [->|Hj2]; [contradiction|].
      apply (H2 c1 c2 Hc1 Hc2 Hne Hp1 Hp2 j Hj1 Hj2).
    + apply (H2 c1 c2 Hc1 Hc2 Hne Hp1 Hp2 j Hj1 Hj2).
Qed.

Lemma distribute_ledger (P : string -> Prop) (todo : list Vote.t) (s s' : State) :
  NoDup (map Vote.id (votes s) ++ map Vote.id todo) ->
  ledger P (votes s) (candidates s) (map Vote.id todo) ->
  distribute todo s = Ok s' ->
  ledger P (votes s') (candidates s') [].
Proof.
  revert s. induction todo as [|vote rest IH]; intros s Hnd Hl H.
  - now injection H as <-.
  - rewrite distribute_cons in H.
    destruct (Vote.get_preference (set_value 1%Q vote)) as [n|]; [|discriminate].
    unfold bind in H.
    destruct (alloc_vote n (set_value 1%Q vote) s) as [s1|] eqn:Ea;
      [|discriminate H].
    set (v' := set_value 1%Q vote) in *.
    assert (Hid : Vote.id v' = Vote.id vote) by reflexivity.
    cbn [map] in Hnd, Hl.
    assert (Hi1 : ~ In (Vote.id vote) (map Vote.id (votes s))).
    { intro Hin. apply NoDup_remove_2 in Hnd. apply Hnd.
      apply in_or_app. now left. }
    assert (Hi2 : ~ In (Vote.id vote) (map Vote.id rest)).
    { intro Hin. apply NoDup_remove_2 in Hnd. apply Hnd.
      apply in_or_app. now right. }
    assert (Hl1 : ledger P (votes s ++ [v']) (candidates s)
                         (Vote.id v' :: map Vote.id rest)).
    { apply (ledger_store P (votes s)); [|exact Hl].
      intros j Hj. apply value_in_snoc_other. intro E. apply Hj. left.
      now rewrite E. }
    eapply IH; [| |exact H]; fields.
    + pose proof (alloc_vote_names _ _ _ _ Ea) as (_ & _ & ->).
      rewrite map_app. cbn [map]. rewrite <- app_assoc. exact Hnd.
    + pose proof (alloc_vote_names _ _ _ _ Ea) as (_ & _ & Hvs). rewrite Hvs.
      apply alloc_vote_inv in Ea. destruct Ea as [[_ ->] | (_ & _ & ->)]; fields.
      * apply ledger_alloc; trivial.
        apply value_in_snoc_new. exact Hi1.
      * eapply ledger_skip. exact Hl1.
Qed.

Lemma transfer_ledger (P : string -> Prop) (todo : list Z) (r : Q) (s s' : State) :
  NoDup (map Vote.id (votes s)) -> NoDup todo ->
  ledger P (votes s) (candidates s) todo ->
  transfer todo r s = Ok s' ->
  ledger P (votes s') (candidates s') [].
Proof.
  revert s. induction todo as [|i rest IH]; intros s Hnd Htodo Hl H.
  - now injection H as <-.
  - rewrite transfer_cons in H. cbv zeta in H.
    destruct (find (has_id i) (votes s)) as [vote|] eqn:Ef; [|discriminate].
    apply find_has_id in Ef. destruct Ef as [Hin Hid].
    set (v' := set_value (Vote.value vote * r)%Q vote) in *.
    assert (Hid' : Vote.id v' = i) by exact Hid.
    inversion Htodo as [|? ? Hi Hrest]; subst.
    assert (Hids : In (Vote.id v') (map Vote.id (votes s)))
      by (rewrite Hid'; now apply in_map).
    assert (Hl1 : ledger P (update_vote v' (votes s)) (candidates s)
                         (Vote.id v' :: rest)).
    { apply (ledger_store P (votes s)); [|now rewrite Hid'].
      intros j Hj. unfold value_in. rewrite find_update_other; trivial.
      intro E. apply Hj. left. now rewrite E. }
    assert (Hval : value_in (update_vote v' (votes s)) (Vote.id v')
                   = Vote.value v').
    { unfold value_in. now rewrite find_update_same. }
    destruct (Vote.get_preference_excluding v' _) as [next|].
    + unfold bind in H.
      destruct (alloc_vote _ _ _) as [s2|] eqn:Ea; [|discriminate H].
      eapply IH; [| | |exact H]; trivial.
      * pose proof (alloc_vote_names _ _ _ _ Ea) as (_ & _ & ->). fields.
        now rewrite update_vote_ids.
      * pose proof (alloc_vote_names _ _ _ _ Ea) as (_ & _ & Hvs). rewrite Hvs.
        apply alloc_vote_inv in Ea.
        destruct Ea as [[_ ->] | (_ & _ & ->)]; fields.
        -- apply ledger_alloc; trivial.
        -- eapply ledger_skip. exact Hl1.
    + eapply IH; [| | |exact H]; trivial; fields.
      * now rewrite update_vote_ids.
      * eapply ledger_skip. exact Hl1.
Qed.

(** Dropping votes from [self.votes] keeps the ids distinct. *)
Lemma active_ids_distinct (keep : Vote.t -> bool) (vs : list Vote.t) :
  NoDup (map Vote.id vs) -> NoDup (map Vote.id (filter keep vs)).
Proof.
  intro Hnd. induction vs as [|v vs IH]; [constructor|].
  cbn [map] in Hnd. apply NoDup_cons_iff in Hnd. destruct Hnd as [Hv Hrest].
  cbn [filter]. destruct (keep v); [|now apply IH].
  cbn [map]. apply NoDup_cons; [|now apply IH].
  intro Hin. apply Hv. apply in_map_iff in Hin.
  destruct Hin as (w & E & Hw). apply filter_In in Hw.
  apply in_map_iff. exists w. tauto.
Qed.

(** ** The books through the three operations *)

Lemma books_ok_distribution (s s' : State) :
  NoDup (map Vote.id (votes s)) ->
  NoDup (map Candidate.name (candidates s)) ->
  distribution_of_preferences s = Ok s' ->
  books_ok [] s'.
Proof.
  intros Hids Hnames H.
  pose proof (distribution_inv _ _ H) as (_ & _ & Hn & _ & Hvs & _).
  unfold distribution_of_preferences, bind in H. cbv zeta in H.
  destruct (distribute _ _) as [s1|] eqn:Ed; [|discriminate].
  destruct (Z.eqb (1 + vacancies s1) 0); [discriminate|].
  injection H as <-. unfold books_ok. fields.
  split; [|split; [|split]].
  - rewrite Hvs, map_map. cbn [set_value Vote.id].
    change (fun x : Vote.t => Vote.id x) with Vote.id.
    now apply active_ids_distinct.
  - now rewrite Hn.
  - eapply distribute_ledger; [| |exact Ed]; fields.
    + cbn [map app]. now apply active_ids_distinct.
    + split.
      * intros c Hc _. apply in_map_iff in Hc. destruct Hc as (c0 & <- & _).
        split; [split|].
        -- reflexivity.
        -- constructor.
        -- intros j [].
      * intros c1 c2 Hc1 _ _ _ _ j Hj. apply in_map_iff in Hc1.
        destruct Hc1 as (c0 & <- & _). contradiction.
  - intros c _ [].
Qed.

Lemma Forall2_in_r {A : Type} (R : A -> A -> Prop) (l l' : list A) (b : A) :
  Forall2 R l l' -> In b l' -> exists a, In a l /\ R a b.
Proof.
  induction 1 as [|x y l l' Hxy _ IH]; simpl; [contradiction|].
  intros [<-|Hin]; [eauto|]. destruct (IH Hin) as (a & Ha & Hr). eauto.
Qed.

Lemma ledger_sub (P : string -> Prop) (vs : list Vote.t)
  (cs cs' : list Candidate.t) (rest : list Z) :
  (forall c, In c cs' -> In c cs) -> ledger P vs cs rest -> ledger P vs cs' rest.
Proof.
  intros Hsub [H1 H2]. split.
  - intros c Hc. apply H1. now apply Hsub.
  - intros c1 c2 Hc1 Hc2. apply H2; now apply Hsub.
Qed.


Lemma books_ok_calc (done : list string) (s s' : State) (x : Candidate.t) :
  books_ok done s -> fresh s ->
  surplus_candidate s = Ok x ->
  calc_and_distribute_surplus s = Ok s' ->
  books_ok (Candidate.name x :: done) s'.
Proof.
  intros (Hids & Hnames & [Hl1 Hl2] & Hdone) Hfresh Hx H.
  apply calc_inv in H. destruct H as (x0 & s1 & Hx0 & _ & Ht & ->).
  rewrite Hx in Hx0. injection Hx0 as <-.
  pose proof (surplus_candidate_least s x Hx) as (Hxin & Hxs & _).
  unfold has_surplus in Hxs. apply Qltb_iff in Hxs.
  assert (Hxdone : ~ In (Candidate.name x) done).
  { intro Hin. rewrite (Hdone x Hxin Hin) in Hxs. apply (Qlt_irrefl _ Hxs). }
  pose proof (transfer_spec _ _ _ _ Ht)
    as (_ & _ & Hq & _ & Hr & _ & Hi & _). fields.
  assert (Hled : ledger (fun n => ~ In n (Candidate.name x :: done))
                        (votes s1) (candidates s1) []).
  { eapply transfer_ledger; [| | |exact Ht]; fields; trivial.
    - destruct (Hl1 x Hxin Hxdone) as [[_ Hnd] _]. exact Hnd.
    - split.
      + intros c Hc Hp.
        assert (Hp0 : ~ In (Candidate.name c) done)
          by (intro; apply Hp; now right).
        destruct (Hl1 c Hc Hp0) as [Htal _]. split; trivial.
        apply (Hl2 c x Hc Hxin); trivial.
        intro E. apply Hp. left. now symmetry.
      + intros c1 c2 Hc1 Hc2 Hne Hp1 Hp2. apply Hl2; trivial.
        * intro; apply Hp1; now right.
        * intro; apply Hp2; now right. }
  unfold books_ok. fields.
  split; [now rewrite Hi|]. split; [now rewrite clamp_names,
    (receives_names _ _ _ Hr)|]. split.
  - destruct Hled as [Hled1 Hled2]. split.
    + intros c' Hc' Hp. apply clamp_in in Hc'.
      destruct Hc' as (c & Hc & [[E ->] | [E ->]]).
      * exfalso. apply Hp. left. now rewrite <- E.
      * now apply Hled1.
    + intros c1' c2' Hc1' Hc2' Hne Hp1 Hp2.
      apply clamp_in in Hc1'.
      destruct Hc1' as (c1 & Hc1 & [[E1 ->] | [E1 ->]]);
        [exfalso; apply Hp1; left; now rewrite <- E1|].
      apply clamp_in in Hc2'.
      destruct Hc2' as (c2 & Hc2 & [[E2 ->] | [E2 ->]]);
        [exfalso; apply Hp2; left; now rewrite <- E2|].
      now apply Hled2.
  - intros c' Hc' Hin. apply clamp_in in Hc'.
    destruct Hc' as (c1 & Hc1 & [[E ->] | [E ->]]); [reflexivity|].
    destruct Hin as [Hin|Hin]; [congruence|].
    destruct (Forall2_in_r _ _ _ _ Hr Hc1) as (c0 & Hc0 & Hn & Hcase).
    rewrite Hn in Hin.
    pose proof (Hdone c0 Hc0 Hin) as Htot.
    destruct Hcase as [->|Hnot]; [now rewrite Hq|].
    exfalso. apply Hnot. rewrite Hfresh. apply winners_of_in; trivial.
    rewrite Htot. apply Qle_bool_iff. apply Qle_refl.
Qed.

Lemma value_in_strike (n : string) (vs : list Vote.t) (j : Z) :
  value_in (map (strike n) vs) j = value_in vs j.
Proof.
  unfold value_in. induction vs as [|v vs IH]; [reflexivity|].
  cbn [map find]. unfold has_id at 1 3. rewrite strike_id.
  destruct (j =? Vote.id v)%Z; [apply strike_value | exact IH].
Qed.

Lemma books_ok_exclusion (done : list string) (draw : nat) (s s' : State) :
  books_ok done s -> exclusion_of_candidates draw s = Ok s' ->
  books_ok done s'.
Proof.
  intros (Hids & Hnames & Hled & Hdone) H. apply exclusion_inv in H.
  destruct H as (minimum & excluded & obj & rest & H).
  destruct H as (_ & _ & Hp & Hc & _ & Hvs & _ & _ & Hq & _).
  apply pop_key_spec in Hp. destruct Hp as (_ & _ & Hin & _ & Hnd).
  assert (Hsub : forall c, In c (candidates s') -> In c (candidates s)).
  { intros c Hc'. rewrite Hc in Hc'. apply Hin. now right. }
  split; [now rewrite Hvs, strike_ids|].
  split; [rewrite Hc; now apply Hnd|]. split.
  - rewrite Hvs. apply (ledger_sub _ _ (candidates s)); trivial.
    apply (ledger_store _ (votes s)); trivial.
    intros j _. apply value_in_strike.
  - intros c Hc' Hd. rewrite Hq. apply Hdone; auto.
Qed.

Lemma pristine_books_ok (s : State) :
  pristine s -> NoDup (map Vote.id (votes s)) -> books_ok [] s.
Proof.
  intros (_ & _ & _ & Hc & Hnd & _) Hids.
  split; [exact Hids|]. split; [exact Hnd|]. split; [|intros c _ []].
  split.
  - intros c Hin _. destruct (Hc c Hin) as [Ev Et].
    split; [split|].
    + unfold allocated_in. rewrite Ev, Et. reflexivity.
    + rewrite Ev. constructor.
    + rewrite Ev. intros j [].
  - intros c1 c2 Hc1 _ _ _ _ j Hj. destruct (Hc c1 Hc1) as [Ev _].
    rewrite Ev in Hj. contradiction.
Qed.

(** ** The values of the votes *)

(** Two votes of [self.votes] with the same id are the same vote. *)
Lemma vote_by_id_unique (vs : list Vote.t) (v w : Vote.t) :
  NoDup (map Vote.id vs) -> In v vs -> In w vs ->
  Vote.id v = Vote.id w -> v = w.
Proof.
  induction vs as [|u vs IH]; intros Hnd Hv Hw E; [contradiction|].
  cbn [map] in Hnd. apply NoDup_cons_iff in Hnd. destruct Hnd as [Hu Hrest].
  destruct Hv as [Hv|Hv], Hw as [Hw|Hw].
  - congruence.
  - subst u. exfalso. apply Hu. rewrite E. now apply in_map.
  - subst u. exfalso. apply Hu. rewrite <- E. now apply in_map.
  - now apply IH.
Qed.

Lemma update_vote_rescale (vote : Vote.t) (r : Q) (vs : list Vote.t) :
  NoDup (map Vote.id vs) -> In vote vs ->
  update_vote (set_value (Vote.value vote * r)%Q vote) vs
  = map (rescale [Vote.id vote] r) vs.
Proof.
  intros Hnd Hin. unfold update_vote. apply map_ext_in. intros v Hv.
  unfold rescale, has_id. cbn [set_value Vote.id existsb].
  rewrite orb_false_r, (Z.eqb_sym (Vote.id v)).
  destruct (Z.eqb_spec (Vote.id vote) (Vote.id v)) as [E|E]; [|reflexivity].
  now rewrite (vote_by_id_unique vs vote v Hnd Hin Hv E).
Qed.

Lemma rescale_id (todo : list Z) (r : Q) (v : Vote.t) :
  Vote.id (rescale todo r v) = Vote.id v.
Proof.
  unfold rescale. now destruct (existsb _ _).
Qed.

Lemma rescale_cons (i : Z) (rest : list Z) (r : Q) (v : Vote.t) :
  ~ In i rest ->
  rescale rest r (rescale [i] r v) = rescale (i :: rest) r v.
Proof.
  intro Hi. unfold rescale at 2 3. cbn [existsb]. rewrite orb_false_r.
  destruct (Z.eqb_spec (Vote.id v) i) as [E|E]; cbn [orb].
  - unfold rescale. cbn [set_value Vote.id].
    destruct (existsb (Z.eqb (Vote.id v)) rest) eqn:Ex; [|reflexivity].
    exfalso. apply existsb_exists in Ex. destruct Ex as (j & Hj & Ej).
    apply Z.eqb_eq in Ej. apply Hi. congruence.
  - reflexivity.
Qed.

Lemma transfer_votes (todo : list Z) (r : Q) (s s' : State) :
  NoDup (map Vote.id (votes s)) -> NoDup todo ->
  transfer todo r s = Ok s' ->
  votes s' = map (rescale todo r) (votes s).
Proof.
  revert s. induction todo as [|i rest IH]; intros s Hnd Htodo H.
  - injection H as <-. unfold rescale. cbn [existsb]. now rewrite map_id.
  - rewrite transfer_cons in H. cbv zeta in H.
    destruct (find (has_id i) (votes s)) as [vote|] eqn:Ef; [|discriminate].
    apply find_has_id in Ef. destruct Ef as [Hin Hid].
    inversion Htodo as [|? ? Hi Hrest]; subst.
    rewrite (update_vote_rescale vote r (votes s) Hnd Hin) in H.
    assert (Hnd1 : NoDup (map Vote.id
                            (map (rescale [Vote.id vote] r) (votes s)))).
    { rewrite map_map. erewrite map_ext; [exact Hnd|].
      intro v. apply rescale_id. }
    assert (Hgoal : forall s2,
              votes s2 = map (rescale [Vote.id vote] r) (votes s) ->
              transfer rest r s2 = Ok s' ->
              votes s' = map (rescale (Vote.id vote :: rest) r) (votes s)).
    { intros s2 E H2. rewrite (IH s2); trivial; [|now rewrite E].
      rewrite E, map_map. apply map_ext. intro v. now apply rescale_cons. }
    destruct (Vote.get_preference_excluding _ _) as [next|].
    + unfold bind in H.
      destruct (alloc_vote _ _ _) as [s2|] eqn:Ea; [|discriminate H].
      apply (Hgoal s2); trivial.
      apply alloc_vote_names in Ea. destruct Ea as (_ & _ & ->). reflexivity.
    + eapply Hgoal; [|exact H]. reflexivity.
Qed.

Lemma ratio_bounds (q t : Q) :
  (0 < q)%Q -> (q < t)%Q -> (0 < (t - q) / t < 1)%Q.
Proof.
  intros Hq Ht. assert (H0 : (0 < t)%Q) by lra. split.
  - apply Qlt_shift_div_l; trivial. lra.
  - apply Qlt_shift_div_r; trivial. lra.
Qed.

Lemma rescale_value (todo : list Z) (r : Q) (v : Vote.t) :
  (0 < r < 1)%Q -> (0 < Vote.value v <= 1)%Q ->
  (0 < Vote.value (rescale todo r v) <= Vote.value v)%Q.
Proof.
  intros [Hr0 Hr1] [Hv0 Hv1]. unfold rescale.
  destruct (existsb _ _); cbn [set_value Vote.value].
  - split; nra.
  - split; [exact Hv0 | apply Qle_refl].
Qed.

Lemma surplus_candidate_undone (done : list string) (s : State) (x : Candidate.t) :
  books_ok done s -> surplus_candidate s = Ok x ->
  In x (candidates s) /\ (quota s < Candidate.total_value x)%Q /\
  ~ In (Candidate.name x) done /\ NoDup (Candidate.votes x).
Proof.
  intros (_ & _ & [Hl _] & Hdone) Hx.
  pose proof (surplus_candidate_least s x Hx) as (Hin & Hs & _).
  unfold has_surplus in Hs. apply Qltb_iff in Hs.
  assert (Hnot : ~ In (Candidate.name x) done).
  { intro Hd. rewrite (Hdone x Hin Hd) in Hs. apply (Qlt_irrefl _ Hs). }
  split; [exact Hin|]. split; [exact Hs|]. split; [exact Hnot|].
  destruct (Hl x Hin Hnot) as [[_ Hnd] _]. exact Hnd.
Qed.

Lemma calc_votes (done : list string) (s s' : State) (x : Candidate.t) :
  books_ok done s -> surplus_candidate s = Ok x ->
  calc_and_distribute_surplus s = Ok s' ->
  votes s' = map (rescale (Candidate.votes x)
                    ((Candidate.total_value x - quota s)
                     / Candidate.total_value x)%Q) (votes s).
Proof.
  intros Hb Hx H.
  pose proof (surplus_candidate_undone done s x Hb Hx) as (_ & _ & _ & Hnd).
  destruct Hb as (Hids & _).
  apply calc_inv in H. destruct H as (x0 & s1 & Hx0 & _ & Ht & ->).
  rewrite Hx in Hx0. injection Hx0 as <-. fields.
  apply (transfer_votes _ _ (logging _ s) _ Hids Hnd Ht).
Qed.

(** ** The invariant of the run *)

Lemma inv_init (vac : Z) (ballots : list (Z * list string)) :
  NoDup (map fst ballots) -> count_inv LoopTop [] (init vac ballots).
Proof.
  intro Hnd. destruct (init_spec vac ballots) as (Hp & _ & Hids).
  split; [now apply pristine_refs_ok|].
  split; [apply pristine_books_ok; trivial; now rewrite Hids|].
  split; [|discriminate].
  intros v Hv. destruct Hp as (_ & _ & _ & _ & _ & _ & Hval).
  rewrite (Hval v Hv). split; [reflexivity | apply Qle_refl].
Qed.

Lemma inv_distribution (done : list string) (e : Event) (s s' : State) :
  count_inv LoopTop done s ->
  check_all_vacancies_filled s = false ->
  distribution_of_preferences (logging e s) = Ok s' ->
  count_inv InRound [] s'.
Proof.
  intros (Hrefs & Hbooks & _ & _) Hnf H.
  destruct Hbooks as (Hids & Hnames & _).
  apply not_filled in Hnf. destruct Hnf as [_ Hpw].
  split; [apply (distribution_refs_ok _ _ (logging_refs_ok e s Hrefs) H)|].
  split; [apply (books_ok_distribution (logging e s)); trivial|].
  pose proof (distribution_inv _ _ H) as (_ & _ & _ & _ & Hvs & _ & _ & Hf & _).
  split.
  - intros v Hv. rewrite Hvs in Hv. apply in_map_iff in Hv.
    destruct Hv as (v0 & <- & _). cbn. split; [reflexivity | apply Qle_refl].
  - intros _. split; [exact Hf|]. split; [|intros n []].
    apply (distribution_quota _ _ H). fields. lia.
Qed.

Lemma inv_calc (done : list string) (s s' : State) (x : Candidate.t) :
  count_inv InRound done s ->
  surplus_candidate s = Ok x ->
  calc_and_distribute_surplus s = Ok s' ->
  count_inv InRound (Candidate.name x :: done) s'.
Proof.
  intros (Hrefs & Hbooks & Hval & Hround) Hx H.
  destruct (Hround eq_refl) as (Hfresh & Hq & Hdone).
  pose proof (surplus_candidate_undone done s x Hbooks Hx) as (Hin & Hs & _).
  pose proof (calc_post s s' H) as (_ & Hq' & _ & Hn & _ & _ & Hf' & Hr' & _).
  split; [auto|].
  split; [now apply (books_ok_calc done s s' x)|].
  split.
  - intros v' Hv'. rewrite (calc_votes done s s' x Hbooks Hx H) in Hv'.
    apply in_map_iff in Hv'. destruct Hv' as (v & <- & Hv).
    destruct (Hval v Hv) as [Hv0 Hv1].
    destruct (rescale_value (Candidate.votes x)
                ((Candidate.total_value x - quota s) / Candidate.total_value x)%Q
                v) as [H0 H1].
    + apply ratio_bounds; [lra | exact Hs].
    + now split.
    + split; [exact H0 | lra].
  - intros _. split; [exact Hf'|]. split; [now rewrite Hq'|].
    intros n [<-|Hd]; rewrite Hn; [now apply in_map | now apply Hdone].
Qed.

Lemma inv_exclusion (done : list string) (draw : nat) (e : Event) (s s' : State) :
  count_inv InRound done s ->
  exclusion_of_candidates draw (logging e s) = Ok s' ->
  count_inv LoopTop done s'.
Proof.
  intros (Hrefs & Hbooks & Hval & _) H.
  split; [apply (exclusion_refs_ok draw _ _ (logging_refs_ok e s Hrefs) H)|].
  split; [apply (books_ok_exclusion done draw (logging e s)); trivial|].
  split; [|discriminate].
  apply exclusion_inv in H.
  destruct H as (minimum & excluded & obj & rest & H).
  destruct H as (_ & _ & _ & _ & _ & Hvs & _). fields.
  intros v' Hv'. rewrite Hvs in Hv'. apply in_map_iff in Hv'.
  destruct Hv' as (v & <- & Hv). rewrite strike_value. now apply Hval.
Qed.

Lemma reachable_inv (vac : Z) (ballots : list (Z * list string))
  (p : phase) (done : list string) (s : State) :
  NoDup (map fst ballots) ->
  reachable vac ballots p done s -> count_inv p done s.
Proof.
  intros Hnd H. induction H.
  - now apply inv_init.
  - eapply inv_distribution; eassumption.
  - eapply inv_calc; eassumption.
  - eapply inv_exclusion; eassumption.
Qed.

(** ** [elect] follows the step relation *)

Lemma surplus_loop_reachable (vac : Z) (ballots : list (Z * list string))
  (fuel : nat) :
  forall (done : list string) (s : State) (returned : bool) (s' : State),
  reachable vac ballots InRound done s ->
  check_all_vacancies_filled s = false ->
  surplus_loop fuel s = Ok (returned, s') ->
  exists done',
    reachable vac ballots InRound done' s' /\
    (returned = false ->
     check_all_vacancies_filled s' = false /\
     check_if_candidates_surplus s' = false).
Proof.
  induction fuel as [|fuel IH]; intros done s returned s' Hr Hnf H;
    cbn [surplus_loop] in H;
    destruct (check_if_candidates_surplus s) eqn:Esur; try discriminate.
  - injection H as <- <-. exists done. now repeat split.
  - unfold bind in H.
    destruct (calc_and_distribute_surplus s) as [s1|] eqn:Ec; [|discriminate].
    pose proof (calc_inv s s1 Ec) as (c & _ & Hc & _).
    pose proof (reach_surplus vac ballots done s c s1 Hr Hnf Esur Hc Ec) as Hr1.
    destruct (check_all_vacancies_filled s1) eqn:Efill.
    + injection H as <- <-. exists (Candidate.name c :: done).
      split; [exact Hr1 | discriminate].
    + apply (IH _ _ _ _ Hr1 Efill H).
  - injection H as <- <-. exists done. now repeat split.
Qed.

Lemma elect_loop_reachable (vac : Z) (ballots : list (Z * list string))
  (lots : nat -> nat) (fuel : nat) :
  forall (round_nr : nat) (done : list string) (s s' : State),
  reachable vac ballots LoopTop done s ->
  elect_loop fuel lots round_nr s = Ok s' ->
  exists p done', reachable vac ballots p done' s'.
Proof.
  induction fuel as [|fuel IH]; intros round_nr done s s' Hr H;
    cbn [elect_loop] in H;
    destruct (check_all_vacancies_filled s) eqn:Efill; try discriminate.
  - injection H as <-. eauto.
  - injection H as <-. eauto.
  - cbv zeta in H. unfold bind in H.
    destruct (distribution_of_preferences _) as [s1|] eqn:Ed; [|discriminate].
    pose proof (reach_distribution vac ballots _ done s s1 Hr Efill Ed) as Hr1.
    destruct (check_all_vacancies_filled s1) eqn:Efill1.
    + injection H as <-. eauto.
    + destruct (surplus_loop _ s1) as [[returned s2]|] eqn:El; [|discriminate].
      destruct (surplus_loop_reachable vac ballots _ _ _ _ _ Hr1 Efill1 El)
        as (done2 & Hr2 & Hexit).
      destruct returned.
      * injection H as <-. eauto.
      * destruct (Hexit eq_refl) as [Hnf2 Hns2].
        destruct (exclusion_of_candidates _ _) as [s3|] eqn:Ee; [|discriminate].
        pose proof (reach_exclusion vac ballots _ done2 s2 s3 Hr2 Hnf2 Hns2 Ee)
          as Hr3.
        apply (IH _ _ _ _ Hr3 H).
Qed.

(** The state that the constructor returns is a state of the step
    relation. *)
Lemma WrightSystem_reachable (vac : Z) (ballots : list (Z * list string))
  (lots : nat -> nat) (s : State) :
  WrightSystem vac ballots lots = Ok s ->
  exists p done, reachable vac ballots p done s.
Proof.
  unfold WrightSystem, elect. intro H.
  eapply elect_loop_reachable; [apply reach_init | exact H].
Qed.

(** ** Candidates whose surplus has been distributed *)

Lemma Forall2_in_l {A : Type} (R : A -> A -> Prop) (l l' : list A) (a : A) :
  Forall2 R l l' -> In a l -> exists b, In b l' /\ R a b.
Proof.
  induction 1 as [|x y l l' Hxy _ IH]; simpl; [contradiction|].
  intros [<-|Hin]; [eauto|]. destruct (IH Hin) as (b & Hb & Hr). eauto.
Qed.

Lemma clamp_total (n : string) (q : Q) (cs : list Candidate.t) (c : Candidate.t) :
  In c cs ->
  exists c', In c' (clamp n q cs) /\
             Candidate.name c' = Candidate.name c /\
             Candidate.votes c' = Candidate.votes c /\
             ((Candidate.name c = n /\ Candidate.total_value c' = q) \/
              (Candidate.name c <> n /\ c' = c)).
Proof.
  intro Hin. unfold clamp.
  exists (if has_name n c then set_total_value q c else c).
  split; [apply in_map_iff; now exists c|].
  unfold has_name. destruct (String.eqb_spec n (Candidate.name c));
    cbn; repeat split; auto.
Qed.

Lemma clamped_calc (done : list string) (s s' : State) (x : Candidate.t) :
  clamped_inv InRound done s ->
  surplus_candidate s = Ok x ->
  calc_and_distribute_surplus s = Ok s' ->
  clamped_inv InRound (Candidate.name x :: done) s'.
Proof.
  intros Hinv Hx H _. destruct (Hinv eq_refl) as [Hfresh Hdone].
  pose proof (calc_post s s' H) as (_ & Hq' & _ & _ & _ & _ & Hf' & _).
  split; [exact Hf'|].
  apply calc_inv in H. destruct H as (x0 & s1 & Hx0 & _ & Ht & ->).
  rewrite Hx in Hx0. injection Hx0 as <-.
  pose proof (transfer_spec _ _ _ _ Ht) as (_ & _ & Hq & _ & Hr & _). fields.
  pose proof (surplus_candidate_least s x Hx) as (Hxin & _).
  assert (Hstep : forall c, In c (candidates s) ->
            Candidate.name c = Candidate.name x \/
            Candidate.total_value c = quota s ->
            exists c', In c' (clamp (Candidate.name x) (quota s1) (candidates s1))
                       /\ Candidate.name c' = Candidate.name c
                       /\ Candidate.total_value c' = quota s1).
  { intros c Hc Hcase.
    destruct (Forall2_in_l _ _ _ _ Hr Hc) as (c1 & Hc1 & Hn & Hrec).
    destruct (clamp_total (Candidate.name x) (quota s1) _ c1 Hc1)
      as (c' & Hc' & Hn' & _ & Hcl).
    exists c'. split; [exact Hc'|]. split; [congruence|].
    destruct Hcl as [[_ E] | [Hne ->]]; [exact E|].
    destruct Hcase as [E|E]; [congruence|].
    destruct Hrec as [->|Hnot]; [congruence|].
    exfalso. apply Hnot. rewrite Hfresh. apply winners_of_in; trivial.
    rewrite E. apply Qle_bool_iff. apply Qle_refl. }
  intros n [<-|Hn].
  - apply (Hstep x Hxin). now left.
  - destruct (Hdone n Hn) as (c & Hc & <- & Et).
    apply (Hstep c Hc). now right.
Qed.

Lemma reachable_clamped (vac : Z) (ballots : list (Z * list string))
  (p : phase) (done : list string) (s : State) :
  reachable vac ballots p done s -> clamped_inv p done s.
Proof.
  intro H. induction H.
  - discriminate.
  - intros _. pose proof (distribution_inv _ _ H1)
      as (_ & _ & _ & _ & _ & _ & _ & Hf & _).
    split; [exact Hf | intros n []].
  - eapply clamped_calc; eassumption.
  - discriminate.
Qed.

(** ** Example runs *)

Ltac step_by_computation := vm_compute; reflexivity.

Lemma one_surplus_reachable :
  reachable 2 ballots_one_surplus InRound [] one_surplus_distributed /\
  reachable 2 ballots_one_surplus InRound ["A"%string] one_surplus_transferred.
Proof.
  assert (H : reachable 2 ballots_one_surplus InRound []
                        one_surplus_distributed).
  { eapply reach_distribution with (round_nr := 1%nat);
      [apply reach_init | step_by_computation | step_by_computation]. }
  split; [exact H|].
  apply (reach_surplus 2 ballots_one_surplus [] one_surplus_distributed
           one_surplus_candidate); trivial; step_by_computation.
Qed.

Lemma two_surpluses_reachable :
  reachable 3 ballots_two_surpluses InRound ["B"%string] two_surpluses_first.
Proof.
  apply (reach_surplus 3 ballots_two_surpluses [] two_surpluses_distributed
           two_surpluses_first_candidate); try step_by_computation.
  eapply reach_distribution with (round_nr := 1%nat);
    [apply reach_init | step_by_computation | step_by_computation].
Qed.

Lemma repeated_name_reachable :
  reachable 1 ballots_repeated_name InRound [] repeated_name_second_round.
Proof.
  eapply reach_distribution with (round_nr := 2%nat) (s := repeated_name_excluded);
    [|step_by_computation | step_by_computation].
  eapply reach_exclusion with (draw := 0%nat) (s := repeated_name_distributed);
    [|step_by_computation | step_by_computation | step_by_computation].
  eapply reach_distribution with (round_nr := 1%nat);
    [apply reach_init | step_by_computation | step_by_computation].
Qed.

(** ** Conservation of value after the distribution of preferences *)

(** C6 (the code departs from the claim).  With one vacancy and the ballots
    [ballots_repeated_name], the second round starts after the exclusion of
    A with ballot 1 still naming A.  After its distribution of preferences
    the five active votes have value 1 each and [total_votes] is 5, but
    ballot 1 went to the deleted candidate: the candidates of the dict hold
    4. *)
Theorem conservation_repeated_name :
  reachable 1 ballots_repeated_name InRound [] repeated_name_second_round /\
  (Qsum (map Vote.value (votes repeated_name_second_round)) == 5)%Q /\
  (total_votes repeated_name_second_round == 5)%Q /\
  (Qsum (map Candidate.total_value (candidates repeated_name_second_round))
   == 4)%Q.
Proof.
  split; [exact repeated_name_reachable|].
  repeat split; vm_compute; reflexivity.
Qed.

(** ** Totals and allocated votes *)

(** Two vacancies and [ballots_one_surplus]: after the distribution of A's
    surplus A holds the quota, 3, while the four votes in its vote set have
    value 1/4 each. *)
Lemma tally_counterexample :
  reachable 2 ballots_one_surplus InRound ["A"%string] one_surplus_transferred /\
  exists c,
    In c (candidates one_surplus_transferred) /\
    Candidate.name c = "A"%string /\
    ~ (Candidate.total_value c
       == allocated_value one_surplus_transferred c)%Q.
Proof.
  split; [exact (proj2 one_surplus_reachable)|].
  eexists. split; [left; reflexivity|]. split; [reflexivity|].
  intro H. vm_compute in H. discriminate H.
Qed.

Lemma reachable_unscaled (vac : Z) (ballots : list (Z * list string))
  (p : phase) (done : list string) (s : State) :
  reachable vac ballots p done s ->
  done = [] -> forall v, In v (votes s) -> Vote.value v = 1%Q.
Proof.
  intro H. induction H as [|round_nr done s s' _ _ _ Hd
                            |done s c s' _ _ _ _ _ _
                            |draw done s s' _ IH _ _ He]; intros Hdone v Hv.
  - destruct (init_spec vac ballots) as ((_ & _ & _ & _ & _ & _ & Hone) & _).
    now apply Hone.
  - pose proof (distribution_inv _ _ Hd) as (_ & _ & _ & _ & Hvs & _).
    rewrite Hvs in Hv. apply in_map_iff in Hv.
    destruct Hv as (v0 & <- & _). reflexivity.
  - discriminate Hdone.
  - apply exclusion_inv in He.
    destruct He as (minimum & excluded & obj & rest & He).
    destruct He as (_ & _ & _ & _ & _ & Hvs & _). fields.
    rewrite Hvs in Hv. apply in_map_iff in Hv.
    destruct Hv as (v0 & <- & Hv0). rewrite strike_value. now apply IH.
Qed.

Lemma allocated_count (vs : list Vote.t) (c : Candidate.t) :
  (forall i, In i (Candidate.votes c) -> (value_in vs i == 1)%Q) ->
  (allocated_in vs c == inject_Z (Z.of_nat (length (Candidate.votes c))))%Q.
Proof.
  unfold allocated_in. induction (Candidate.votes c) as [|i l IH]; intro H.
  - reflexivity.
  - cbn [map Qsum fold_right length].
    fold (Qsum (map (value_in vs) l)).
    rewrite (H i (or_introl eq_refl)), IH, Nat2Z.inj_succ;
      [|intros j Hj; apply H; now right].
    unfold Z.succ. rewrite inject_Z_plus. change (inject_Z 1) with 1%Q. ring.
Qed.

Lemma value_in_one (vs : list Vote.t) (i : Z) :
  (forall v, In v vs -> Vote.value v = 1%Q) ->
  In i (map Vote.id vs) -> value_in vs i = 1%Q.
Proof.
  intros Hone Hi. unfold value_in.
  destruct (find_has_id_in i vs Hi) as (v & Hv). rewrite Hv.
  apply Hone. now apply find_has_id in Hv.
Qed.


Ltac nodup_by_computation :=
  repeat (apply NoDup_cons; [cbn; intuition discriminate|]); apply NoDup_nil.



(** ** The value of a vote *)

Lemma Forall2_map_self {A : Type} (R : A -> A -> Prop) (f : A -> A) (l : list A) :
  (forall x, In x l -> R x (f x)) -> Forall2 R l (map f l).
Proof.
  induction l as [|x l IH]; intro H; simpl; constructor.
  - apply H. now left.
  - apply IH. intros y Hy. apply H. now right.
Qed.

Lemma rescale_outside (todo : list Z) (r : Q) (v : Vote.t) :
  ~ In (Vote.id v) todo -> rescale todo r v = v.
Proof.
  intro H. unfold rescale.
  destruct (existsb (Z.eqb (Vote.id v)) todo) eqn:E; [|reflexivity].
  exfalso. apply H. apply existsb_exists in E. destruct E as (i & Hi & E).
  apply Z.eqb_eq in E. now rewrite E.
Qed.




(** ** No allocation to a provisional winner *)

(** C10.  A surplus distribution in a round logs every allocation it makes,
    and every target is outside [provisional_winners] as it stood when the
    step began; the vote sets of the candidates in [provisional_winners]
    are left as they were.  The candidates whose surplus has already been
    distributed in the round are in [provisional_winners], which holds the
    candidates of the dict with [total_value >= quota]. *)
Theorem no_allocation_to_winners (vac : Z) (ballots : list (Z * list string))
  (done : list string) (s s' : State) (x : Candidate.t) :
  reachable vac ballots InRound done s ->
  surplus_candidate s = Ok x ->
  calc_and_distribute_surplus s = Ok s' ->
  (exists evs,
     log s' = evs ++ SurplusValue (Candidate.name x)
                       (Candidate.total_value x - quota s)%Q :: log s /\
     forallb is_transfer_event evs = true /\
     forall t, In t (allocation_targets evs) ->
               ~ In t (provisional_winners s)) /\
  Forall2 (fun c c' =>
             Candidate.name c' = Candidate.name c /\
             (In (Candidate.name c) (provisional_winners s) ->
              Candidate.votes c' = Candidate.votes c))
          (candidates s) (candidates s') /\
  (forall n, In n done -> In n (provisional_winners s)) /\
  provisional_winners s = winners_of s.
Proof.
  intros Hr Hx H.
  destruct (reachable_clamped vac ballots InRound done s Hr eq_refl)
    as [Hfresh Hdone].
  split; [|split; [|split; [|exact Hfresh]]].
  - pose proof (calc_post s s' H)
      as (_ & _ & _ & _ & _ & _ & _ & _ & x0 & evs & Hx0 & Hl & He & Ha).
    rewrite Hx in Hx0. injection Hx0 as <-. exists evs. now repeat split.
  - apply calc_inv in H. destruct H as (x0 & s1 & _ & _ & Ht & ->).
    pose proof (transfer_spec _ _ _ _ Ht) as (_ & _ & _ & _ & Hrec & _).
    fields. unfold clamp.
    eapply Forall2_impl; [|apply Forall2_map_r; exact Hrec].
    intros c c' (c1 & [Hn Hcase] & ->). cbn beta.
    assert (E : Candidate.votes
                  (if has_name (Candidate.name x0) c1
                   then set_total_value (quota s1) c1 else c1)
                = Candidate.votes c1)
      by now destruct (has_name _ c1).
    assert (E' : Candidate.name
                   (if has_name (Candidate.name x0) c1
                    then set_total_value (quota s1) c1 else c1)
                 = Candidate.name c1)
      by now destruct (has_name _ c1).
    rewrite E, E'. split; [exact Hn|].
    intro Hin. destruct Hcase as [->|Hnot]; [reflexivity | contradiction].
  - intros n Hn. destruct (Hdone n Hn) as (c & Hc & <- & Et).
    rewrite Hfresh. apply winners_of_in; trivial.
    rewrite Et. apply Qle_bool_iff. apply Qle_refl.
Qed.

Lemma no_allocation_to_winners_witness :
  reachable 3 ballots_two_surpluses InRound ["B"%string] two_surpluses_first /\
  surplus_candidate two_surpluses_first = Ok two_surpluses_second_candidate /\
  calc_and_distribute_surplus two_surpluses_first = Ok two_surpluses_second /\
  ((exists evs,
      log two_surpluses_second
      = evs ++ SurplusValue (Candidate.name two_surpluses_second_candidate)
                 (Candidate.total_value two_surpluses_second_candidate
                  - quota two_surpluses_first)%Q :: log two_surpluses_first /\
      forallb is_transfer_event evs = true /\
      forall t, In t (allocation_targets evs) ->
                ~ In t (provisional_winners two_surpluses_first)) /\
   Forall2 (fun c c' =>
              Candidate.name c' = Candidate.name c /\
              (In (Candidate.name c) (provisional_winners two_surpluses_first) ->
               Candidate.votes c' = Candidate.votes c))
           (candidates two_surpluses_first) (candidates two_surpluses_second) /\
   (forall n, In n ["B"%string] ->
              In n (provisional_winners two_surpluses_first)) /\
   provisional_winners two_surpluses_first = winners_of two_surpluses_first).
Proof.
  assert (H1 := two_surpluses_reachable).
  assert (H2 : surplus_candidate two_surpluses_first
               = Ok two_surpluses_second_candidate) by (vm_compute; reflexivity).
  assert (H3 : calc_and_distribute_surplus two_surpluses_first
               = Ok two_surpluses_second) by (vm_compute; reflexivity).
  split; [exact H1|]. split; [exact H2|]. split; [exact H3|].
  exact (no_allocation_to_winners 3 ballots_two_surpluses ["B"%string]
           two_surpluses_first two_surpluses_second
           two_surpluses_second_candidate H1 H2 H3).
Defined.

(** ** Ballots that name no candidate twice *)

Lemma fold_add_ballot_votes (ballots : list (Z * list string)) (s : State)
  (v : Vote.t) :
  In v (votes (fold_left add_ballot ballots s)) ->
  In v (votes s) \/ In (Vote.preference v) (map snd ballots).
Proof.
  revert s. induction ballots as [|b bs IH]; intros s H; cbn [fold_left] in H.
  - now left.
  - apply IH in H. destruct H as [H|H]; [|right; now right].
    destruct b as [i preference]. unfold add_ballot in H.
    destruct (add_candidates_spec preference s) as (_ & _ & Hvs & _).
    cbv zeta in Hvs. fields. rewrite Hvs in H. apply in_app_or in H.
    destruct H as [H|[<-|[]]]; [now left | right; now left].
Qed.

Lemma prefs_ok_init (vac : Z) (ballots : list (Z * list string)) :
  (forall b, In b ballots -> NoDup (snd b)) -> prefs_ok (init vac ballots).
Proof.
  intro Hb. destruct (init_spec vac ballots) as ((_ & _ & _ & _ & Hnd & Hk & _) & _).
  split; [exact Hnd|]. intros v Hv. split; [|intros n Hn; now apply (Hk v)].
  unfold init in Hv. apply fold_add_ballot_votes in Hv.
  destruct Hv as [[]|Hv]. apply in_map_iff in Hv.
  destruct Hv as (b & <- & Hin). now apply Hb.
Qed.

Lemma prefs_ok_distribution (s s' : State) :
  prefs_ok s -> distribution_of_preferences s = Ok s' -> prefs_ok s'.
Proof.
  intros [Hnd Hp] H.
  pose proof (distribution_inv _ _ H) as (_ & _ & Hn & _ & Hvs & _).
  split; [now rewrite Hn|]. intros v Hv. rewrite Hvs in Hv.
  apply in_map_iff in Hv. destruct Hv as (v0 & <- & Hv0).
  apply filter_In in Hv0. destruct Hv0 as [Hv0 _]. rewrite Hn.
  cbn [set_value Vote.preference]. now apply Hp.
Qed.

Lemma prefs_ok_calc (s s' : State) :
  prefs_ok s -> calc_and_distribute_surplus s = Ok s' -> prefs_ok s'.
Proof.
  intros [Hnd Hp] H.
  pose proof (calc_post s s' H) as (_ & _ & _ & Hn & _).
  apply calc_inv in H. destruct H as (x & s1 & _ & _ & Ht & ->).
  apply transfer_spec in Ht.
  destruct Ht as (_ & _ & _ & _ & _ & _ & _ & Hf & _). unfold prefs_ok. fields.
  split; [now rewrite Hn|]. intros v' Hv'. rewrite Hn.
  destruct (Hf v' Hv') as (v & Hv & ->). now apply Hp.
Qed.

Lemma prefs_ok_exclusion (draw : nat) (s s' : State) :
  prefs_ok s -> exclusion_of_candidates draw s = Ok s' -> prefs_ok s'.
Proof.
  intros [Hnd Hp] H. apply exclusion_inv in H.
  destruct H as (minimum & excluded & obj & rest & H).
  destruct H as (_ & _ & Hpop & Hc & _ & Hvs & _).
  apply pop_key_spec in Hpop. destruct Hpop as (_ & _ & _ & Hnm & Hrest).
  destruct (Hrest Hnd) as [Hnd' Hout].
  split; [now rewrite Hc|]. intros v' Hv'. rewrite Hvs in Hv'.
  apply in_map_iff in Hv'. destruct Hv' as (v & <- & Hv).
  destruct (Hp v Hv) as [Hv1 Hv2]. unfold strike.
  destruct (existsb _ (Vote.preference v)) eqn:E; cbn [Vote.preference].
  - split; [now apply list_remove_nodup|].
    intros n Hn. apply (list_remove_spec _ _ _ Hv1) in Hn.
    destruct Hn as [Hne Hn]. rewrite Hc.
    destruct (proj1 (Hnm n) (Hv2 n Hn)) as [->|Hin]; [contradiction | exact Hin].
  - split; [exact Hv1|]. intros n Hn. rewrite Hc.
    destruct (proj1 (Hnm n) (Hv2 n Hn)) as [->|Hin]; [|exact Hin].
    exfalso.
    assert (existsb (String.eqb (Candidate.name excluded)) (Vote.preference v)
            = true); [|congruence].
    apply existsb_exists. exists (Candidate.name excluded).
    split; [exact Hn | apply String.eqb_refl].
Qed.

Lemma reachable_prefs_ok (vac : Z) (ballots : list (Z * list string))
  (p : phase) (done : list string) (s : State) :
  (forall b, In b ballots -> NoDup (snd b)) ->
  reachable vac ballots p done s -> prefs_ok s.
Proof.
  intros Hb H. induction H.
  - now apply prefs_ok_init.
  - eapply prefs_ok_distribution; [|eassumption]. exact IHreachable.
  - eapply prefs_ok_calc; eassumption.
  - eapply prefs_ok_exclusion; [|eassumption]. exact IHreachable.
Qed.

Lemma alloc_in_absent (n : string) (v : Vote.t) (cs : list Candidate.t) :
  ~ In n (map Candidate.name cs) -> alloc_in n v cs = cs.
Proof.
  induction cs as [|c cs IH]; intro H; [reflexivity|].
  cbn [alloc_in map]. fold (alloc_in n v cs). unfold has_name.
  destruct (String.eqb_spec n (Candidate.name c)) as [E|E].
  - exfalso. apply H. left. now symmetry.
  - rewrite IH; [reflexivity|]. intro Hin. apply H. now right.
Qed.

Lemma alloc_in_sum (n : string) (v : Vote.t) (cs : list Candidate.t) :
  NoDup (map Candidate.name cs) -> In n (map Candidate.name cs) ->
  (Qsum (map Candidate.total_value (alloc_in n v cs))
   == Qsum (map Candidate.total_value cs) + Vote.value v)%Q.
Proof.
  induction cs as [|c cs IH]; intros Hnd Hin; [contradiction|].
  cbn [map] in Hnd. apply NoDup_cons_iff in Hnd. destruct Hnd as [Hc Hrest].
  cbn [alloc_in map]. fold (alloc_in n v cs). unfold has_name.
  destruct (String.eqb_spec n (Candidate.name c)) as [E|E].
  - subst n. rewrite (alloc_in_absent _ v cs Hc).
    cbn [map Qsum fold_right Candidate.alloc_vote Candidate.total_value].
    ring.
  - destruct Hin as [Hin|Hin]; [congruence|].
    cbn [map Qsum fold_right].
    change (fold_right Qplus 0%Q (map Candidate.total_value (alloc_in n v cs)))
      with (Qsum (map Candidate.total_value (alloc_in n v cs))).
    rewrite (IH Hrest Hin). unfold Qsum. ring.
Qed.

Lemma distribute_sum (todo : list Vote.t) (s s' : State) :
  NoDup (map Candidate.name (candidates s)) ->
  (forall v n, In v todo -> In n (Vote.preference v) ->
               In n (map Candidate.name (candidates s))) ->
  distribute todo s = Ok s' ->
  (Qsum (map Candidate.total_value (candidates s')) + total_votes s
   == Qsum (map Candidate.total_value (candidates s)) + total_votes s')%Q.
Proof.
  revert s. induction todo as [|vote rest IH]; intros s Hnd Hp H.
  - injection H as <-. ring.
  - rewrite distribute_cons in H. unfold Vote.get_preference in H.
    cbn [set_value Vote.preference] in H.
    destruct (Vote.preference vote) as [|n pref] eqn:Ep; [discriminate|].
    unfold bind in H.
    destruct (alloc_vote n _ s) as [s1|] eqn:Ea; [|discriminate H].
    assert (Hn : In n (map Candidate.name (candidates s)))
      by (apply (Hp vote); [now left | rewrite Ep; now left]).
    apply alloc_vote_inv in Ea.
    destruct Ea as [[_ ->] | (Hnot & _)]; [|contradiction]. fields.
    apply IH in H; fields.
    + pose proof (alloc_in_sum n (set_value 1%Q vote) _ Hnd Hn) as Hs. lra.
    + now rewrite alloc_in_names.
    + intros v m Hv Hm. rewrite alloc_in_names. apply (Hp v); [now right | exact Hm].
Qed.

Lemma Qsum_zero (cs : list Candidate.t) :
  (Qsum (map Candidate.total_value (map reset cs)) == 0)%Q.
Proof.
  induction cs as [|c cs IH]; [reflexivity|].
  cbn [map Qsum fold_right reset Candidate.total_value].
  fold (Qsum (map Candidate.total_value (map reset cs))). rewrite IH. ring.
Qed.

(** When no ballot names a candidate twice, the state right after a
    distribution of preferences of the run conserves value: the values of
    the active votes sum to [total_votes], and so do the totals of the
    candidates of the dict. *)
Lemma conservation_ranked_ballots (vac : Z) (ballots : list (Z * list string))
  (s : State) :
  (forall b, In b ballots -> NoDup (snd b)) ->
  reachable vac ballots InRound [] s ->
  (Qsum (map Vote.value (votes s)) == total_votes s)%Q /\
  (total_votes s == Qsum (map Candidate.total_value (candidates s)))%Q.
Proof.
  intros Hb H. inversion H as [|round_nr done0 s0 s1 Hr0 Hnf Hd| |]; subst.
  pose proof (reachable_prefs_ok vac ballots _ _ _ Hb Hr0) as [Hnd Hp].
  pose proof (distribution_inv _ _ Hd) as (_ & _ & _ & _ & _ & Ht & _).
  split; [now rewrite Ht|].
  unfold distribution_of_preferences, bind in Hd. cbv zeta in Hd.
  destruct (distribute _ _) as [s1|] eqn:Ed; [|discriminate].
  destruct (Z.eqb (1 + vacancies s1) 0); [discriminate|].
  injection Hd as <-. fields.
  apply distribute_sum in Ed; fields.
  - rewrite Qsum_zero in Ed. lra.
  - rewrite map_map. exact Hnd.
  - intros v n Hv Hn. apply filter_In in Hv. destruct Hv as [Hv _].
    rewrite map_map. cbn [reset Candidate.name]. now apply (Hp v).
Qed.

(** * Further properties of the engine *)

(** ** [Vote.get_preference_excluding] *)

Lemma find_first_split (f : string -> bool) (l : list string) :
  match find f l with
  | Some n => exists l1 l2, l = l1 ++ n :: l2 /\ f n = true /\
                            forall m, In m l1 -> f m = false
  | None => forall m, In m l -> f m = false
  end.
Proof.
  induction l as [|x l IH]; cbn [find]; [intros m []|].
  destruct (f x) eqn:E.
  - exists [], l. split; [reflexivity|]. split; [exact E | intros m []].
  - destruct (find f l) as [n|].
    + destruct IH as (l1 & l2 & -> & Hn & Hl1). exists (x :: l1), l2.
      split; [reflexivity|]. split; [exact Hn|].
      intros m [<-|Hm]; [exact E | now apply Hl1].
    + intros m [<-|Hm]; [exact E | now apply IH].
Qed.

Lemma excluded_iff (m : string) (excluding : list string) :
  negb (existsb (String.eqb m) excluding) = false <-> In m excluding.
Proof.
  rewrite negb_false_iff, existsb_exists. split.
  - intros (x & Hx & E). apply String.eqb_eq in E. now subst.
  - intro H. exists m. split; [exact H | apply String.eqb_refl].
Qed.

(** X1.  [get_preference_excluding] returns the first candidate of the
    preference list that is not in [excluding]: everything before it is
    excluded.  It returns [None] exactly when every entry is excluded, and
    with nothing excluded it is [get_preference]. *)
Theorem get_preference_excluding_first (v : Vote.t) (excluding : list string) :
  match Vote.get_preference_excluding v excluding with
  | Some n =>
      exists l1 l2,
        Vote.preference v = l1 ++ n :: l2 /\
        ~ In n excluding /\
        forall m, In m l1 -> In m excluding
  | None => forall m, In m (Vote.preference v) -> In m excluding
  end /\
  Vote.get_preference_excluding v [] = Vote.get_preference v.
Proof.
  split.
  - unfold Vote.get_preference_excluding.
    pose proof (find_first_split
                  (fun c => negb (existsb (String.eqb c) excluding))
                  (Vote.preference v)) as H.
    destruct (find _ (Vote.preference v)) as [n|].
    + destruct H as (l1 & l2 & E & Hn & Hl1). exists l1, l2.
      split; [exact E|]. split.
      * intro Hin. apply excluded_iff in Hin. congruence.
      * intros m Hm. apply excluded_iff. now apply Hl1.
    + intros m Hm. apply excluded_iff. now apply H.
  - unfold Vote.get_preference_excluding, Vote.get_preference.
    now destruct (Vote.preference v).
Qed.

(** ** The constructor *)

Lemma add_candidate_names (n m : string) (s : State) :
  In m (map Candidate.name (candidates (add_candidate n s)))
  <-> In m (map Candidate.name (candidates s)) \/ m = n.
Proof.
  unfold add_candidate. destruct (existsb (has_name n) (candidates s)) eqn:E.
  - apply existsb_has_name in E. split; [now left|].
    intros [H| ->]; trivial.
  - fields. rewrite map_app, in_app_iff. cbn. intuition congruence.
Qed.

Lemma add_candidates_names (preference : list string) (m : string) (s : State) :
  In m (map Candidate.name
          (candidates (fold_left (fun s c => add_candidate c s) preference s)))
  <-> In m (map Candidate.name (candidates s)) \/ In m preference.
Proof.
  revert s. induction preference as [|n pref IH]; intro s; cbn [fold_left].
  - simpl. tauto.
  - rewrite IH, add_candidate_names. simpl. intuition congruence.
Qed.

Lemma fold_add_ballot_state (ballots : list (Z * list string)) (s : State) :
  votes (fold_left add_ballot ballots s)
  = votes s ++ map (fun b => Vote.new (fst b) (snd b)) ballots /\
  forall m,
    In m (map Candidate.name (candidates (fold_left add_ballot ballots s)))
    <-> In m (map Candidate.name (candidates s)) \/
        exists b, In b ballots /\ In m (snd b).
Proof.
  revert s. induction ballots as [|b bs IH]; intro s; cbn [fold_left map].
  - rewrite app_nil_r. split; [reflexivity|]. intro m. split; [now left|].
    intros [H|(b & [] & _)]. exact H.
  - destruct (IH (add_ballot s b)) as [Hv Hn]. destruct b as [i preference].
    unfold add_ballot in Hv, Hn |- *.
    destruct (add_candidates_spec preference s) as (_ & _ & Hvs & _).
    cbv zeta in Hvs. fields. split.
    + rewrite Hv, Hvs, <- app_assoc. reflexivity.
    + intro m. rewrite Hn, add_candidates_names. split.
      * intros [[H|H]|(b & Hb & Hm)]; [now left | right | right].
        -- exists (i, preference). split; [now left | exact H].
        -- exists b. split; [now right | exact Hm].
      * intros [H|(b & [<-|Hb] & Hm)]; [left; now left | left; now right |].
        right. now exists b.
Qed.

(** X2.  The constructor, before it calls [elect], has made one vote per
    ballot, in order, with the ballot's preference list and value 1, and
    one candidate per name that occurs on a ballot: the names of the dict
    are distinct, they are exactly the names on the ballots, and every
    candidate starts with no votes and total 0. *)
Theorem init_characterisation (vac : Z) (ballots : list (Z * list string)) :
  vacancies (init vac ballots) = vac /\
  votes (init vac ballots) = map (fun b => Vote.new (fst b) (snd b)) ballots /\
  NoDup (map Candidate.name (candidates (init vac ballots))) /\
  (forall n, In n (map Candidate.name (candidates (init vac ballots)))
             <-> exists b, In b ballots /\ In n (snd b)) /\
  (forall c, In c (candidates (init vac ballots)) ->
             c = Candidate.new (Candidate.name c)) /\
  provisional_winners (init vac ballots) = [].
Proof.
  destruct (init_spec vac ballots) as ((_ & _ & Hpw & Hc & Hnd & _) & Hv & _).
  destruct (fold_add_ballot_state ballots (mkState vac [] [] [] [] 0%Q 0%Q []))
    as [Hvs Hn].
  fold (init vac ballots) in Hvs, Hn. cbn [votes candidates map app] in Hvs, Hn.
  split; [exact Hv|]. split; [exact Hvs|]. split; [exact Hnd|]. split.
  - intro n. rewrite Hn. split; [intros [[]|H]; exact H | now right].
  - split; [|exact Hpw]. intros c Hin. destruct (Hc c Hin) as [E1 E2].
    destruct c as [n vs t]. cbn in *. now subst.
Qed.

(** ** Exclusion: who is excluded and what is left *)

Lemma min_from_le (m : Q) (l : list Q) :
  (min_from m l <= m)%Q /\ forall x, In x l -> (min_from m l <= x)%Q.
Proof.
  revert m. induction l as [|y l IH]; intro m; cbn [min_from].
  - split; [apply Qle_refl | intros x []].
  - destruct (Qltb y m) eqn:E.
    + apply Qltb_iff in E. destruct (IH y) as [H1 H2]. split; [lra|].
      intros x [<-|Hx]; [exact H1 | now apply H2].
    + apply Qltb_false_iff in E. destruct (IH m) as [H1 H2].
      split; [exact H1|]. intros x [<-|Hx]; [lra | now apply H2].
Qed.

Lemma minimum_votes_least (s : State) (minimum : list Candidate.t) :
  minimum_votes s = Ok minimum ->
  forall x, In x minimum ->
    In x (candidates s) /\
    forall c, In c (candidates s) ->
              (Candidate.total_value x <= Candidate.total_value c)%Q.
Proof.
  unfold minimum_votes, py_min, bind.
  destruct (map Candidate.total_value (candidates s)) as [|m l] eqn:E;
    [discriminate|].
  intros [= <-] x Hx. apply filter_In in Hx. destruct Hx as [Hin Hq].
  split; [exact Hin|]. intros c Hc. apply Qeq_bool_iff in Hq. rewrite Hq.
  assert (Hc' : In (Candidate.total_value c) (m :: l))
    by (rewrite <- E; now apply in_map).
  destruct (min_from_le m l) as [H1 H2].
  destruct Hc' as [<-|Hc']; [exact H1 | now apply H2].
Qed.

Lemma pop_key_split (n : string) (cs : list Candidate.t)
  (x : Candidate.t) (rest : list Candidate.t) :
  pop_key n cs = Some (x, rest) ->
  exists l1 l2, cs = l1 ++ x :: l2 /\ rest = l1 ++ l2 /\
                forall c, In c l1 -> Candidate.name c <> n.
Proof.
  revert rest. induction cs as [|c cs IH]; intros rest H; cbn [pop_key] in H.
  - discriminate.
  - unfold has_name in H. destruct (String.eqb_spec n (Candidate.name c)) as [E|E].
    + injection H as <- <-. exists [], cs. repeat split. intros c0 [].
    + destruct (pop_key n cs) as [[x0 rest0]|]; [|discriminate].
      injection H as <- <-.
      destruct (IH rest0 eq_refl) as (l1 & l2 & -> & -> & Hl1).
      exists (c :: l1), l2. split; [reflexivity|]. split; [reflexivity|].
      intros c0 [<-|H0]; [congruence | now apply Hl1].
Qed.

Lemma same_name_same_candidate (cs : list Candidate.t) (a b : Candidate.t) :
  NoDup (map Candidate.name cs) -> In a cs -> In b cs ->
  Candidate.name a = Candidate.name b -> a = b.
Proof.
  induction cs as [|c cs IH]; intros Hnd Ha Hb E; [contradiction|].
  cbn [map] in Hnd. apply NoDup_cons_iff in Hnd. destruct Hnd as [Hc Hrest].
  destruct Ha as [Ha|Ha], Hb as [Hb|Hb].
  - congruence.
  - subst c. exfalso. apply Hc. rewrite E. now apply in_map.
  - subst c. exfalso. apply Hc. rewrite <- E. now apply in_map.
  - now apply IH.
Qed.

(** X3.  An exclusion that returns has taken exactly one candidate out of
    the dict, one with the least [total_value] of all; the other
    candidates stay as they are, in their order; the excluded one is
    logged. *)
Theorem exclusion_removes_minimum (draw : nat) (s s' : State) :
  NoDup (map Candidate.name (candidates s)) ->
  exclusion_of_candidates draw s = Ok s' ->
  exists x l1 l2,
    candidates s = l1 ++ x :: l2 /\
    candidates s' = l1 ++ l2 /\
    (forall c, In c (candidates s) ->
               (Candidate.total_value x <= Candidate.total_value c)%Q) /\
    hd_error (log s') = Some (Excluding (Candidate.name x)) /\
    ~ In (Candidate.name x) (map Candidate.name (candidates s')).
Proof.
  intros Hnd H. apply exclusion_inv in H.
  destruct H as (minimum & excluded & obj & rest & H).
  destruct H as (Hm & Hc & Hp & Hcs & _ & _ & _ & _ & _ & _ & Hl).
  apply choice_in in Hc.
  destruct (minimum_votes_least s minimum Hm excluded Hc) as [Hin Hleast].
  pose proof (pop_key_spec _ _ _ _ Hp) as (Hn & _ & Hmem & _ & Hrest).
  assert (E : obj = excluded).
  { apply (same_name_same_candidate (candidates s)); trivial.
    apply Hmem. now left. }
  subst obj. destruct (pop_key_split _ _ _ _ Hp) as (l1 & l2 & E1 & E2 & _).
  exists excluded, l1, l2. split; [exact E1|]. split; [congruence|].
  split; [exact Hleast|]. split; [now rewrite Hl|].
  rewrite Hcs. now apply Hrest.
Qed.

Lemma exclusion_removes_minimum_witness :
  NoDup (map Candidate.name (candidates repeated_name_distributed)) /\
  exclusion_of_candidates 0 repeated_name_distributed
    = Ok (state_of (exclusion_of_candidates 0 repeated_name_distributed)) /\
  exists x l1 l2,
    candidates repeated_name_distributed = l1 ++ x :: l2 /\
    candidates (state_of (exclusion_of_candidates 0 repeated_name_distributed))
      = l1 ++ l2 /\
    (forall c, In c (candidates repeated_name_distributed) ->
               (Candidate.total_value x <= Candidate.total_value c)%Q) /\
    hd_error (log (state_of (exclusion_of_candidates 0
                               repeated_name_distributed)))
      = Some (Excluding (Candidate.name x)) /\
    ~ In (Candidate.name x)
         (map Candidate.name
            (candidates (state_of (exclusion_of_candidates 0
                                     repeated_name_distributed)))).
Proof.
  assert (H1 : NoDup (map Candidate.name (candidates repeated_name_distributed))).
  { repeat (apply NoDup_cons; [cbn; intuition discriminate|]). apply NoDup_nil. }
  assert (H2 : exclusion_of_candidates 0 repeated_name_distributed
               = Ok (state_of (exclusion_of_candidates 0
                                 repeated_name_distributed)))
    by (vm_compute; reflexivity).
  split; [exact H1|]. split; [exact H2|].
  exact (exclusion_removes_minimum 0 repeated_name_distributed _ H1 H2).
Defined.

Lemma list_remove_split (x : string) (l : list string) :
  In x l ->
  exists l1 l2, l = l1 ++ x :: l2 /\ ~ In x l1 /\ list_remove x l = l1 ++ l2.
Proof.
  induction l as [|y l IH]; intro H; [contradiction|].
  cbn [list_remove]. destruct (String.eqb_spec x y) as [->|Hne].
  - exists [], l. repeat split. intros [].
  - destruct H as [H|H]; [congruence|].
    destruct (IH H) as (l1 & l2 & -> & Hl1 & ->).
    exists (y :: l1), l2. split; [reflexivity|]. split; [|reflexivity].
    intros [E|E]; [congruence | contradiction].
Qed.

(** X4.  An exclusion edits the preference lists of [self.votes] and
    nothing else of the votes: in every list that names the excluded
    candidate it deletes the first occurrence and keeps the other entries
    in their order; the other lists, the ids and the values are left as
    they are. *)
Theorem exclusion_edits_preferences (draw : nat) (s s' : State) :
  exclusion_of_candidates draw s = Ok s' ->
  exists n,
    hd_error (log s') = Some (Excluding n) /\
    Forall2 (fun v v' =>
               Vote.id v' = Vote.id v /\
               Vote.value v' = Vote.value v /\
               ((~ In n (Vote.preference v) /\
                 Vote.preference v' = Vote.preference v) \/
                exists l1 l2,
                  Vote.preference v = l1 ++ n :: l2 /\
                  ~ In n l1 /\
                  Vote.preference v' = l1 ++ l2))
            (votes s) (votes s').
Proof.
  intro H. apply exclusion_inv in H.
  destruct H as (minimum & excluded & obj & rest & H).
  destruct H as (_ & _ & _ & _ & _ & Hvs & _ & _ & _ & _ & Hl).
  exists (Candidate.name excluded). split; [now rewrite Hl|].
  rewrite Hvs. apply Forall2_map_self. intros v _.
  split; [apply strike_id|]. split; [apply strike_value|].
  unfold strike.
  destruct (existsb (String.eqb (Candidate.name excluded)) (Vote.preference v))
    eqn:E.
  - right. cbn [Vote.preference]. apply list_remove_split.
    apply existsb_exists in E. destruct E as (m & Hm & Em).
    apply String.eqb_eq in Em. now subst.
  - left. split; [|reflexivity]. intro Hin.
    assert (existsb (String.eqb (Candidate.name excluded)) (Vote.preference v)
            = true); [|congruence].
    apply existsb_exists. exists (Candidate.name excluded).
    split; [exact Hin | apply String.eqb_refl].
Qed.

Lemma exclusion_edits_preferences_witness :
  exclusion_of_candidates 0 repeated_name_distributed
    = Ok (state_of (exclusion_of_candidates 0 repeated_name_distributed)) /\
  exists n,
    hd_error (log (state_of (exclusion_of_candidates 0
                               repeated_name_distributed)))
      = Some (Excluding n) /\
    Forall2 (fun v v' =>
               Vote.id v' = Vote.id v /\
               Vote.value v' = Vote.value v /\
               ((~ In n (Vote.preference v) /\
                 Vote.preference v' = Vote.preference v) \/
                exists l1 l2,
                  Vote.preference v = l1 ++ n :: l2 /\
                  ~ In n l1 /\
                  Vote.preference v' = l1 ++ l2))
            (votes repeated_name_distributed)
            (votes (state_of (exclusion_of_candidates 0
                                repeated_name_distributed))).
Proof.
  assert (H : exclusion_of_candidates 0 repeated_name_distributed
              = Ok (state_of (exclusion_of_candidates 0
                                repeated_name_distributed)))
    by (vm_compute; reflexivity).
  split; [exact H|].
  exact (exclusion_edits_preferences 0 repeated_name_distributed _ H).
Defined.

(** X5.  [exclusion_of_candidates] fails exactly on an empty dict, and then
    with the [ValueError] of [min()]: [random.choice] always has a
    candidate to draw and [del] always finds the key. *)
Theorem exclusion_fails_on_empty (draw : nat) (s : State) :
  (candidates s = [] <-> exclusion_of_candidates draw s = Err ValueError) /\
  (forall e, exclusion_of_candidates draw s = Err e -> e = ValueError).
Proof.
  assert (Hempty : candidates s = [] ->
                   exclusion_of_candidates draw s = Err ValueError).
  { intro E. unfold exclusion_of_candidates, minimum_votes, bind.
    now rewrite E. }
  assert (Herr : forall e, exclusion_of_candidates draw s = Err e ->
                           candidates s = []).
  { intros e He. destruct (candidates s) as [|c cs] eqn:E; [reflexivity|].
    destruct (exclusion_ok draw s) as (s' & Hs'); [now rewrite E|].
    congruence. }
  split; [split|].
  - exact Hempty.
  - apply Herr.
  - intros e He. pose proof (Hempty (Herr e He)). congruence.
Qed.

(** X6.  Every candidate tied on the least [total_value] can be the one
    excluded: for each of them some outcome of the draw excludes it. *)
Theorem exclusion_draws_any_tied (s : State) (minimum : list Candidate.t)
  (x : Candidate.t) :
  minimum_votes s = Ok minimum ->
  In x minimum ->
  exists draw s',
    exclusion_of_candidates draw s = Ok s' /\
    hd_error (log s') = Some (Excluding (Candidate.name x)).
Proof.
  intros Hm Hx. destruct (In_nth_error _ _ Hx) as (k & Hk).
  assert (Hlt : (k < length minimum)%nat)
    by (apply nth_error_Some; congruence).
  assert (Hc : choice k minimum = Ok x).
  { unfold choice. rewrite Nat.mod_small by exact Hlt. now rewrite Hk. }
  destruct (minimum_votes_least s minimum Hm x Hx) as [Hin _].
  destruct (pop_key_ok (Candidate.name x) (candidates s)) as (obj & rest & Hp);
    [now apply in_map|].
  exists k. unfold exclusion_of_candidates, bind. rewrite Hm, Hc. cbv zeta.
  destruct (1 <? length minimum)%nat; fields; rewrite Hp; eexists;
    (split; [reflexivity|]); reflexivity.
Qed.

Lemma exclusion_draws_any_tied_witness :
  minimum_votes repeated_name_excluded
    = Ok (candidates repeated_name_excluded) /\
  In (nth 1 (candidates repeated_name_excluded) (Candidate.new ""))
     (candidates repeated_name_excluded) /\
  exists draw s',
    exclusion_of_candidates draw repeated_name_excluded = Ok s' /\
    hd_error (log s')
    = Some (Excluding
              (Candidate.name
                 (nth 1 (candidates repeated_name_excluded)
                      (Candidate.new "")))).
Proof.
  assert (H1 : minimum_votes repeated_name_excluded
               = Ok (candidates repeated_name_excluded))
    by (vm_compute; reflexivity).
  assert (H2 : In (nth 1 (candidates repeated_name_excluded) (Candidate.new ""))
                  (candidates repeated_name_excluded))
    by (right; left; reflexivity).
  split; [exact H1|]. split; [exact H2|].
  exact (exclusion_draws_any_tied repeated_name_excluded _ _ H1 H2).
Defined.

(** ** Errors of the surplus distribution and of the distribution of
       preferences *)

Lemma alloc_vote_error (n : string) (v : Vote.t) (s : State) (e : error) :
  alloc_vote n v s = Err e -> e = DanglingRef.
Proof.
  unfold alloc_vote.
  destruct (existsb (has_name n) (candidates s)); [discriminate|].
  destruct (existsb (has_name n) (detached s)); [discriminate|].
  now intros [= <-].
Qed.

Lemma transfer_error (todo : list Z) (r : Q) (s : State) (e : error) :
  transfer todo r s = Err e -> e = DanglingRef.
Proof.
  revert s. induction todo as [|i rest IH]; intros s H; [discriminate|].
  rewrite transfer_cons in H. cbv zeta in H.
  destruct (find (has_id i) (votes s)) as [vote|]; [|now injection H as <-].
  destruct (Vote.get_preference_excluding _ _) as [next|].
  - unfold bind in H. destruct (alloc_vote _ _ _) as [s2|e2] eqn:Ea.
    + now apply (IH s2).
    + injection H as <-. now apply alloc_vote_error in Ea.
  - now apply (IH _ H).
Qed.

Lemma no_surplus_filter (s : State) :
  check_if_candidates_surplus s = false ->
  filter (has_surplus s) (candidates s) = [].
Proof.
  unfold check_if_candidates_surplus. intro H.
  induction (candidates s) as [|c cs IH]; [reflexivity|].
  cbn [existsb filter] in *. apply orb_false_iff in H. destruct H as [H1 H2].
  rewrite H1. now apply IH.
Qed.

(** X7.  [calc_and_distribute_surplus] raises the [ValueError] of [max()]
    exactly when no candidate exceeds the quota, that is when
    [check_if_candidates_surplus] is false. *)
Theorem surplus_step_needs_surplus (s : State) :
  check_if_candidates_surplus s = false
  <-> calc_and_distribute_surplus s = Err ValueError.
Proof.
  split.
  - intro H. unfold calc_and_distribute_surplus, surplus_candidate, bind.
    now rewrite (no_surplus_filter s H).
  - intro H. destruct (check_if_candidates_surplus s) eqn:E; [|reflexivity].
    exfalso. destruct (surplus_candidate_ok s E) as (c & Hc).
    unfold calc_and_distribute_surplus, bind in H. rewrite Hc in H.
    cbv zeta in H.
    destruct (Qeq_bool (Candidate.total_value c) 0); [discriminate|].
    destruct (transfer _ _ _) as [s1|e] eqn:Et; [discriminate|].
    apply transfer_error in Et. congruence.
Qed.

Lemma distribute_error (todo : list Vote.t) (s : State) (e : error) :
  (forall v, In v todo -> exhausted v = false) ->
  distribute todo s = Err e -> e = DanglingRef.
Proof.
  revert s. induction todo as [|vote rest IH]; intros s Hex H; [discriminate|].
  rewrite distribute_cons in H. unfold Vote.get_preference in H.
  cbn [set_value Vote.preference] in H.
  pose proof (Hex vote (or_introl eq_refl)) as E. unfold exhausted in E.
  destruct (Vote.preference vote) as [|n pref]; [discriminate|].
  unfold bind in H. destruct (alloc_vote _ _ _) as [s1|e1] eqn:Ea.
  - apply (IH _ (fun v Hv => Hex v (or_intror Hv)) H).
  - injection H as <-. now apply alloc_vote_error in Ea.
Qed.

(** X8.  When [1 + vacancies] converts to a float,
    [distribution_of_preferences] fails exactly when [vacancies] is -1,
    with the [ZeroDivisionError] of the quota.  In particular it never
    reaches [None.alloc_vote]: the exhausted votes are set aside before the
    loop.  (Beyond the range of floats the division raises
    [OverflowError]: [distribution_overflow_binary64].) *)
Theorem distribution_fails_on_division (s : State) :
  refs_ok s ->
  converts_to_float (1 + vacancies s) = true ->
  (vacancies s = (-1)%Z
   <-> distribution_of_preferences s = Err ZeroDivisionError) /\
  (forall e, distribution_of_preferences s = Err e -> e = ZeroDivisionError).
Proof.
  intros Hrefs _.
  assert (Hact : forall v,
            In v (filter (fun v => negb (exhausted v)) (votes s)) ->
            exhausted v = false).
  { intros v Hv. apply filter_In in Hv. destruct Hv as [_ Hv].
    now apply negb_true_iff in Hv. }
  - assert (Hcase : (vacancies s = (-1)%Z /\
                     distribution_of_preferences s = Err ZeroDivisionError) \/
                    (vacancies s <> (-1)%Z /\
                     exists s', distribution_of_preferences s = Ok s')).
    { destruct (Z.eq_dec (vacancies s) (-1)) as [E|E].
      - left. split; [exact E|].
        unfold distribution_of_preferences, bind. cbv zeta.
        set (s0 := set_votes [] _).
        destruct (distribute_ok
                    (filter (fun v => negb (exhausted v)) (votes s)) s0 Hact)
          as (s1 & Ed).
        + intros v n Hv Hn. apply filter_In in Hv. destruct Hv as [Hv _].
          destruct Hrefs as [H1 _]. unfold known, s0; fields.
          rewrite map_map. cbn [reset Candidate.name]. now apply (H1 v).
        + fields. fold s0. rewrite Ed. apply distribute_spec in Ed.
          destruct Ed as (Hv & _). rewrite Hv. unfold s0; fields.
          now rewrite E.
      - right. split; [exact E|]. apply distribution_ok; [exact Hrefs | lia]. }
    destruct Hcase as [[E H]|[E (s' & H)]]; split.
    + split; intro; trivial.
    + intros e He. congruence.
    + split; intro; [contradiction | congruence].
    + intros e He. congruence.
Qed.

Lemma distribution_fails_on_division_witness :
  refs_ok (init (-1) ballots_one_surplus) /\
  converts_to_float (1 + vacancies (init (-1) ballots_one_surplus)) = true /\
  (vacancies (init (-1) ballots_one_surplus) = (-1)%Z
   <-> distribution_of_preferences (init (-1) ballots_one_surplus)
       = Err ZeroDivisionError) /\
  (forall e, distribution_of_preferences (init (-1) ballots_one_surplus) = Err e
             -> e = ZeroDivisionError).
Proof.
  assert (H : refs_ok (init (-1) ballots_one_surplus))
    by (apply pristine_refs_ok; apply init_spec).
  assert (H' : converts_to_float
                 (1 + vacancies (init (-1) ballots_one_surplus)) = true)
    by (vm_compute; reflexivity).
  split; [exact H|]. split; [exact H'|].
  exact (distribution_fails_on_division (init (-1) ballots_one_surplus) H H').
Defined.

(** In binary64, with [10 ** 400] vacancies the division of
    [distribution_of_preferences] raises [OverflowError] (the constructor
    does not get there: with so many vacancies [elect] returns at once). *)
Lemma distribution_overflow_binary64 :
  converts_to_float (1 + 10 ^ 400) = false /\
  Binary64.distribution_of_preferences
    (Binary64.init (10 ^ 400) ballots_one_surplus) = Err OverflowError /\
  Binary64.distribution_of_preferences
    (Binary64.init (-1) ballots_one_surplus) = Err ZeroDivisionError /\
  exists s, Binary64.WrightSystem (10 ^ 400) ballots_one_surplus (fun _ => 0%nat)
            = Ok s.
Proof.
  split; [vm_compute; reflexivity|]. split; [vm_compute; reflexivity|].
  split; [vm_compute; reflexivity|]. eexists. vm_compute. reflexivity.
Qed.

(** ** Elections decided without a round *)

Lemma elect_loop_filled (fuel : nat) (lots : nat -> nat) (round_nr : nat)
  (s : State) :
  check_all_vacancies_filled s = true ->
  elect_loop fuel lots round_nr s = Ok s.
Proof.
  intro H. destruct fuel; cbn [elect_loop]; now rewrite H.
Qed.

(** X9.  When there are at least as many vacancies as candidates, the
    constructor runs no round and [get_winners] returns every candidate. *)
Theorem everyone_elected (vac : Z) (ballots : list (Z * list string))
  (lots : nat -> nat) :
  (Z.of_nat (length (candidates (init vac ballots))) <= vac)%Z ->
  WrightSystem vac ballots lots = Ok (init vac ballots) /\
  rounds (init vac ballots) = 0%nat /\
  fst (get_winners (init vac ballots))
  = Ok (map Candidate.name (candidates (init vac ballots))).
Proof.
  intro H. destruct (init_spec vac ballots) as ((_ & Hl & _) & Hv & _).
  assert (Hle : (Z.of_nat (length (candidates (init vac ballots)))
                 <=? vacancies (init vac ballots))%Z = true)
    by (rewrite Hv; now apply Z.leb_le).
  split; [|split].
  - unfold WrightSystem, elect. apply elect_loop_filled.
    unfold check_all_vacancies_filled. now rewrite Hle.
  - unfold rounds. now rewrite Hl.
  - unfold get_winners. now rewrite Hle.
Qed.

Lemma everyone_elected_witness :
  (Z.of_nat (length (candidates (init 3 ballots_one_surplus))) <= 3)%Z /\
  WrightSystem 3 ballots_one_surplus (fun _ => 0%nat)
    = Ok (init 3 ballots_one_surplus) /\
  rounds (init 3 ballots_one_surplus) = 0%nat /\
  fst (get_winners (init 3 ballots_one_surplus))
  = Ok (map Candidate.name (candidates (init 3 ballots_one_surplus))).
Proof.
  assert (H : (Z.of_nat (length (candidates (init 3 ballots_one_surplus)))
               <= 3)%Z) by (vm_compute; discriminate).
  split; [exact H|].
  exact (everyone_elected 3 ballots_one_surplus (fun _ => 0%nat) H).
Defined.

(** X10.  With no vacancy to fill (zero or a negative number), the
    constructor runs no round and [get_winners] returns the empty list,
    whatever the ballots. *)
Theorem nobody_elected (vac : Z) (ballots : list (Z * list string))
  (lots : nat -> nat) :
  (vac <= 0)%Z ->
  WrightSystem vac ballots lots = Ok (init vac ballots) /\
  rounds (init vac ballots) = 0%nat /\
  fst (get_winners (init vac ballots)) = Ok [].
Proof.
  intro H. destruct (init_spec vac ballots) as ((_ & Hl & Hpw & _) & Hv & _).
  assert (Hpwle : (vacancies (init vac ballots)
                   <=? Z.of_nat (length (provisional_winners (init vac ballots))))%Z
                  = true)
    by (rewrite Hv, Hpw; apply Z.leb_le; simpl; lia).
  split; [|split].
  - unfold WrightSystem, elect. apply elect_loop_filled.
    unfold check_all_vacancies_filled. rewrite Hpwle. apply orb_true_r.
  - unfold rounds. now rewrite Hl.
  - unfold get_winners. rewrite Hpwle, Hpw.
    destruct (Z.leb_spec (Z.of_nat (length (candidates (init vac ballots))))
                         (vacancies (init vac ballots))) as [Hle|_];
      [|reflexivity].
    rewrite Hv in Hle.
    destruct (candidates (init vac ballots)); [reflexivity|].
    simpl length in Hle. lia.
Qed.

Lemma nobody_elected_witness :
  (0 <= 0)%Z /\
  WrightSystem 0 INITIAL_BALLOTS (fun _ => 0%nat)
    = Ok (init 0 INITIAL_BALLOTS) /\
  rounds (init 0 INITIAL_BALLOTS) = 0%nat /\
  fst (get_winners (init 0 INITIAL_BALLOTS)) = Ok [].
Proof.
  assert (H : (0 <= 0)%Z) by lia.
  split; [exact H|].
  exact (nobody_elected 0 INITIAL_BALLOTS (fun _ => 0%nat) H).
Defined.

(** ** The quota *)

Lemma quota_bounds (tv : Q) (d : Z) :
  (0 < d)%Z ->
  (tv < (inject_Z (Qfloor (tv / inject_Z d)) + 1) * inject_Z d)%Q /\
  ((inject_Z (Qfloor (tv / inject_Z d)) + 1) * inject_Z d
   <= tv + inject_Z d)%Q.
Proof.
  intro Hd.
  assert (Hd' : (0 < inject_Z d)%Q)
    by (change 0%Q with (inject_Z 0); now rewrite <- Zlt_Qlt).
  assert (Hx : (tv / inject_Z d * inject_Z d == tv)%Q)
    by (field; lra).
  pose proof (Qlt_floor (tv / inject_Z d)) as Hlt.
  pose proof (Qfloor_le (tv / inject_Z d)) as Hle.
  rewrite inject_Z_plus in Hlt. change (inject_Z 1) with 1%Q in Hlt.
  split.
  - rewrite <- Hx at 1. now apply Qmult_lt_compat_r.
  - apply (Qmult_le_compat_r _ _ (inject_Z d)) in Hle; [|lra].
    rewrite Hx in Hle. lra.
Qed.

(** X11.  The quota set by [distribution_of_preferences] is a whole number
    of votes, at least 1, strictly greater than
    [total_votes / (vacancies + 1)] and at most that plus 1: it is the
    least whole number that [vacancies + 1] candidates cannot all reach. *)
Theorem quota_is_droop (s s' : State) :
  (0 <= vacancies s)%Z ->
  distribution_of_preferences s = Ok s' ->
  (exists k : Z, (0 <= k)%Z /\ quota s' = (inject_Z k + 1)%Q) /\
  (total_votes s' < quota s' * inject_Z (1 + vacancies s'))%Q /\
  (quota s' * inject_Z (1 + vacancies s')
   <= total_votes s' + inject_Z (1 + vacancies s'))%Q.
Proof.
  intros Hv H.
  pose proof (distribution_quota s s' H Hv) as Hq1.
  pose proof (distribution_inv _ _ H) as (_ & Hv' & _ & _ & _ & _ & Hq & _).
  assert (Hd : (0 < 1 + vacancies s')%Z) by lia.
  destruct (quota_bounds (total_votes s') (1 + vacancies s') Hd) as [H1 H2].
  rewrite <- Hq in H1, H2.
  split; [|now split].
  exists (Qfloor (total_votes s' / inject_Z (1 + vacancies s'))).
  split; [|exact Hq].
  rewrite Hq in Hq1.
  assert (H0 : (inject_Z 0 <= inject_Z
                  (Qfloor (total_votes s' / inject_Z (1 + vacancies s'))))%Q)
    by (change (inject_Z 0) with 0%Q; lra).
  now rewrite <- Zle_Qle in H0.
Qed.

Lemma quota_is_droop_witness :
  (0 <= vacancies (logging (StartingRound 1) (init 2 ballots_one_surplus)))%Z /\
  distribution_of_preferences
    (logging (StartingRound 1) (init 2 ballots_one_surplus))
    = Ok one_surplus_distributed /\
  (exists k : Z, (0 <= k)%Z /\
                 quota one_surplus_distributed = (inject_Z k + 1)%Q) /\
  (total_votes one_surplus_distributed
   < quota one_surplus_distributed
     * inject_Z (1 + vacancies one_surplus_distributed))%Q /\
  (quota one_surplus_distributed
   * inject_Z (1 + vacancies one_surplus_distributed)
   <= total_votes one_surplus_distributed
      + inject_Z (1 + vacancies one_surplus_distributed))%Q.
Proof.
  assert (H1 : (0 <= vacancies (logging (StartingRound 1)
                                   (init 2 ballots_one_surplus)))%Z)
    by (vm_compute; discriminate).
  assert (H2 : distribution_of_preferences
                 (logging (StartingRound 1) (init 2 ballots_one_surplus))
               = Ok one_surplus_distributed) by (vm_compute; reflexivity).
  split; [exact H1|]. split; [exact H2|].
  exact (quota_is_droop _ _ H1 H2).
Defined.

(** ** First preferences *)

Lemma distribute_first_preferences (todo : list Vote.t) (s s' : State) :
  NoDup (map Vote.id (votes s) ++ map Vote.id todo) ->
  (forall c, In c (candidates s) ->
     Candidate.votes c
     = map Vote.id (filter (prefers (Candidate.name c)) (votes s)) /\
     (Candidate.total_value c
      == inject_Z (Z.of_nat (length (Candidate.votes c))))%Q) ->
  distribute todo s = Ok s' ->
  forall c, In c (candidates s') ->
    Candidate.votes c
    = map Vote.id (filter (prefers (Candidate.name c)) (votes s')) /\
    (Candidate.total_value c
     == inject_Z (Z.of_nat (length (Candidate.votes c))))%Q.
Proof.
  revert s. induction todo as [|vote rest IH]; intros s Hnd Hinv H.
  - now injection H as <-.
  - rewrite distribute_cons in H.
    destruct (Vote.get_preference (set_value 1%Q vote)) as [n|] eqn:Ep;
      [|discriminate].
    unfold bind in H.
    destruct (alloc_vote n (set_value 1%Q vote) s) as [s1|] eqn:Ea;
      [|discriminate H].
    set (v' := set_value 1%Q vote) in *.
    cbn [map] in Hnd.
    assert (Hnew : ~ In (Vote.id v') (map Vote.id (votes s))).
    { intro Hin. apply NoDup_remove_2 in Hnd. apply Hnd.
      apply in_or_app. now left. }
    pose proof (alloc_vote_names _ _ _ _ Ea) as (_ & _ & Hvs).
    eapply IH; [| |exact H]; fields.
    + rewrite Hvs, map_app. cbn [map]. rewrite <- app_assoc. exact Hnd.
    + rewrite Hvs. intros c' Hc'. rewrite filter_app, map_app.
      cbn [filter]. unfold prefers at 2. rewrite Ep.
      assert (Hcase : exists c, In c (candidates s) /\
                Candidate.name c' = Candidate.name c /\
                ((Candidate.name c = n /\
                  c' = Candidate.alloc_vote c (Vote.id v') (Vote.value v')) \/
                 (Candidate.name c <> n /\ c' = c))).
      { apply alloc_vote_inv in Ea. destruct Ea as [[_ ->] | (Hnot & _ & ->)];
          fields.
        - now apply alloc_in_in.
        - exists c'. split; [exact Hc'|]. split; [reflexivity|]. right.
          split; [|reflexivity]. intro E. apply Hnot. rewrite <- E.
          now apply in_map. }
      destruct Hcase as (c & Hc & Hn & [[En ->] | [En ->]]).
      * destruct (Hinv c Hc) as [Hvotes Htot].
        assert (Hfresh : ~ In (Vote.id v') (Candidate.votes c)).
        { rewrite Hvotes. intro Hin. apply Hnew. apply in_map_iff in Hin.
          destruct Hin as (w & <- & Hw). apply filter_In in Hw.
          apply in_map. tauto. }
        cbn [Candidate.alloc_vote Candidate.name Candidate.votes
             Candidate.total_value].
        rewrite (set_add_new _ _ Hfresh), En, String.eqb_refl.
        split; [now rewrite Hvotes, En|].
        rewrite Htot, length_app. cbn [length].
        rewrite Nat2Z.inj_add, inject_Z_plus. reflexivity.
      * destruct (Hinv c Hc) as [Hvotes Htot].
        assert (E : String.eqb (Candidate.name c) n = false)
          by now apply String.eqb_neq.
        rewrite E. cbn [map]. rewrite app_nil_r. now split.
Qed.

Lemma first_preferences_active (n : string) (vs : list Vote.t) :
  map Vote.id
      (filter (prefers n)
              (map (set_value 1%Q) (filter (fun v => negb (exhausted v)) vs)))
  = map Vote.id (filter (prefers n) vs).
Proof.
  induction vs as [|v vs IH]; [reflexivity|].
  cbn [filter]. unfold exhausted at 1, prefers at 2, Vote.get_preference.
  destruct (Vote.preference v) as [|m pref] eqn:Ep; cbn [negb].
  - exact IH.
  - cbn [map filter]. unfold prefers at 1, Vote.get_preference.
    cbn [set_value Vote.preference]. rewrite Ep.
    destruct (String.eqb n m); [|exact IH].
    cbn [map set_value Vote.id]. now rewrite IH.
Qed.

(** X12.  [distribution_of_preferences] keeps the votes of [self.votes]
    that are not exhausted, with value 1, and the candidates of the dict;
    afterwards every candidate holds exactly the votes that ranked it
    first before the step, in the order of [self.votes], and its
    [total_value] is their number. *)
Theorem distribution_counts_first_preferences (s s' : State) (c : Candidate.t) :
  NoDup (map Vote.id (votes s)) ->
  distribution_of_preferences s = Ok s' ->
  In c (candidates s') ->
  votes s' = map (set_value 1%Q)
                 (filter (fun v => negb (exhausted v)) (votes s)) /\
  map Candidate.name (candidates s') = map Candidate.name (candidates s) /\
  Candidate.votes c
  = map Vote.id (filter (prefers (Candidate.name c)) (votes s)) /\
  (Candidate.total_value c
   == inject_Z (Z.of_nat (length (filter (prefers (Candidate.name c))
                                         (votes s)))))%Q.
Proof.
  intros Hids H Hc.
  pose proof (distribution_inv _ _ H) as (_ & _ & Hn & _ & Hvs & _).
  split; [exact Hvs|]. split; [exact Hn|].
  unfold distribution_of_preferences, bind in H. cbv zeta in H.
  destruct (distribute _ _) as [s1|] eqn:Ed; [|discriminate].
  destruct (Z.eqb (1 + vacancies s1) 0); [discriminate|].
  injection H as <-. fields.
  assert (Hgoal : Candidate.votes c
                  = map Vote.id (filter (prefers (Candidate.name c)) (votes s1))
                  /\ (Candidate.total_value c
                      == inject_Z (Z.of_nat (length (Candidate.votes c))))%Q).
  { eapply distribute_first_preferences; [| |exact Ed|exact Hc]; fields.
    - cbn [map app]. now apply active_ids_distinct.
    - intros c0 Hc0. apply in_map_iff in Hc0. destruct Hc0 as (c1 & <- & _).
      now split. }
  destruct Hgoal as [Hv Ht].
  rewrite Hvs, first_preferences_active in Hv.
  split; [exact Hv|]. rewrite Ht, Hv, length_map. reflexivity.
Qed.

Lemma distribution_counts_first_preferences_witness :
  NoDup (map Vote.id
           (votes (logging (StartingRound 1) (init 2 ballots_one_surplus)))) /\
  distribution_of_preferences
    (logging (StartingRound 1) (init 2 ballots_one_surplus))
    = Ok one_surplus_distributed /\
  In one_surplus_candidate (candidates one_surplus_distributed) /\
  Candidate.votes one_surplus_candidate
  = map Vote.id
        (filter (prefers (Candidate.name one_surplus_candidate))
                (votes (logging (StartingRound 1)
                          (init 2 ballots_one_surplus)))) /\
  (Candidate.total_value one_surplus_candidate
   == inject_Z
        (Z.of_nat
           (length (filter (prefers (Candidate.name one_surplus_candidate))
                           (votes (logging (StartingRound 1)
                                     (init 2 ballots_one_surplus)))))))%Q.
Proof.
  assert (H1 : NoDup (map Vote.id
                        (votes (logging (StartingRound 1)
                                        (init 2 ballots_one_surplus)))))
    by (repeat (apply NoDup_cons; [cbn; intuition discriminate|]);
        apply NoDup_nil).
  assert (H2 : distribution_of_preferences
                 (logging (StartingRound 1) (init 2 ballots_one_surplus))
               = Ok one_surplus_distributed) by (vm_compute; reflexivity).
  assert (H3 : In one_surplus_candidate (candidates one_surplus_distributed))
    by (left; reflexivity).
  split; [exact H1|]. split; [exact H2|]. split; [exact H3|].
  exact (proj2 (proj2 (distribution_counts_first_preferences _ _ _ H1 H2 H3))).
Defined.

(** ** The dict during the run *)

Lemma reachable_names (vac : Z) (ballots : list (Z * list string))
  (p : phase) (done : list string) (s : State) :
  reachable vac ballots p done s -> names_inv vac ballots s.
Proof.
  intro H. induction H as [|round_nr done s s' _ IH _ Hd
                            |done s c s' _ IH _ _ _ Hc
                            |draw done s s' _ IH _ _ He].
  - destruct (init_spec vac ballots) as ((_ & _ & _ & _ & Hnd & _) & Hv & _).
    split; [exact Hnd|]. split; [auto | exact Hv].
  - destruct IH as (Hnd & Hsub & Hv).
    pose proof (distribution_inv _ _ Hd) as (_ & Hv' & Hn & _). fields.
    split; [now rewrite Hn|]. split; [now rewrite Hn | congruence].
  - destruct IH as (Hnd & Hsub & Hv).
    pose proof (calc_post _ _ Hc) as (Hv' & _ & _ & Hn & _).
    split; [now rewrite Hn|]. split; [now rewrite Hn | congruence].
  - destruct IH as (Hnd & Hsub & Hv). apply exclusion_inv in He.
    destruct He as (minimum & excluded & obj & rest & He).
    destruct He as (_ & _ & Hp & Hc & _ & _ & Hv' & _). fields.
    apply pop_key_spec in Hp. destruct Hp as (_ & _ & _ & Hnm & Hrest).
    split; [rewrite Hc; now apply Hrest|]. split; [|congruence].
    intros n Hn. rewrite Hc in Hn. apply Hsub. apply Hnm. now right.
Qed.

(** X13.  Within a round the surplus of a candidate is distributed at most
    once: the candidates selected by the surplus distributions since the
    last distribution of preferences are pairwise different, and all of
    them are still in the dict inside the round. *)
Theorem surplus_once_per_round (vac : Z) (ballots : list (Z * list string))
  (p : phase) (done : list string) (s : State) :
  reachable vac ballots p done s ->
  NoDup done /\
  (p = InRound ->
   forall n, In n done -> In n (map Candidate.name (candidates s))).
Proof.
  intro H. split.
  - induction H as [| |done s c s' Hr IH _ _ Hx _|]; try assumption;
      try constructor; trivial.
    intro Hin.
    destruct (reachable_clamped vac ballots InRound done s Hr eq_refl)
      as [_ Hdone].
    destruct (Hdone _ Hin) as (c' & Hc' & En & Et).
    destruct (reachable_names vac ballots _ _ _ Hr) as (Hnd & _).
    pose proof (surplus_candidate_least s c Hx) as (Hc & Hs & _).
    rewrite (same_name_same_candidate _ c' c Hnd Hc' Hc En) in Et.
    unfold has_surplus in Hs. apply Qltb_iff in Hs. rewrite Et in Hs.
    apply (Qlt_irrefl _ Hs).
  - intros Hp n Hn.
    destruct (reachable_clamped vac ballots p done s H Hp) as [_ Hdone].
    destruct (Hdone n Hn) as (c & Hc & <- & _). now apply in_map.
Qed.

Lemma surplus_once_per_round_witness :
  reachable 3 ballots_two_surpluses InRound ["B"%string] two_surpluses_first /\
  NoDup ["B"%string] /\
  (InRound = InRound ->
   forall n, In n ["B"%string] ->
             In n (map Candidate.name (candidates two_surpluses_first))).
Proof.
  assert (H := two_surpluses_reachable).
  split; [exact H|].
  exact (surplus_once_per_round 3 ballots_two_surpluses InRound ["B"%string]
           two_surpluses_first H).
Defined.

(** ** What a surplus distribution leaves alone *)

Lemma rescale_preference (todo : list Z) (r : Q) (v : Vote.t) :
  Vote.preference (rescale todo r v) = Vote.preference v.
Proof.
  unfold rescale. now destruct (existsb _ _).
Qed.

Lemma selected_untouched (done : list string) (s s1 : State) (x : Candidate.t) :
  fresh s -> NoDup (map Candidate.name (candidates s)) ->
  In x (candidates s) -> (quota s < Candidate.total_value x)%Q ->
  Forall2 (receives (provisional_winners s)) (candidates s) (candidates s1) ->
  In x (candidates s1) /\
  forall x1, In x1 (candidates s1) ->
             Candidate.name x1 = Candidate.name x -> x1 = x.
Proof.
  intros Hfresh Hnd Hx Hs Hr.
  assert (Hpw : In (Candidate.name x) (provisional_winners s)).
  { rewrite Hfresh. apply winners_of_in; trivial.
    apply Qle_bool_iff. now apply Qlt_le_weak. }
  split.
  - destruct (Forall2_in_l _ _ _ _ Hr Hx) as (x1 & Hx1 & _ & [->| Hnot]);
      [exact Hx1 | contradiction].
  - intros x1 Hx1 En.
    destruct (Forall2_in_r _ _ _ _ Hr Hx1) as (c0 & Hc0 & Hn & Hcase).
    assert (c0 = x)
      by (apply (same_name_same_candidate (candidates s)); trivial; congruence).
    subst c0. destruct Hcase as [->|Hnot]; [reflexivity | contradiction].
Qed.

(** X14.  A surplus distribution of the run touches the values of the
    votes in the vote set of the selected candidate and nothing else of
    the votes: [self.votes] keeps its votes in their order, with their ids
    and preference lists, and a vote outside that vote set keeps its
    value.  The selected candidate keeps its vote set, and [vacancies],
    [quota] and [total_votes] are as before. *)
Theorem surplus_step_frame (vac : Z) (ballots : list (Z * list string))
  (done : list string) (s s' : State) (x : Candidate.t) :
  NoDup (map fst ballots) ->
  reachable vac ballots InRound done s ->
  surplus_candidate s = Ok x ->
  calc_and_distribute_surplus s = Ok s' ->
  (forall x', In x' (candidates s') ->
              Candidate.name x' = Candidate.name x ->
              Candidate.votes x' = Candidate.votes x) /\
  Forall2 (fun v v' =>
             Vote.id v' = Vote.id v /\
             Vote.preference v' = Vote.preference v /\
             (~ In (Vote.id v) (Candidate.votes x) ->
              Vote.value v' = Vote.value v))
          (votes s) (votes s') /\
  vacancies s' = vacancies s /\
  quota s' = quota s /\
  total_votes s' = total_votes s.
Proof.
  intros Hnd Hr Hx H.
  destruct (reachable_inv vac ballots InRound done s Hnd Hr)
    as (_ & Hbooks & _ & Hround).
  destruct (Hround eq_refl) as (Hfresh & _).
  pose proof (surplus_candidate_undone done s x Hbooks Hx)
    as (Hin & Hs & _).
  pose proof (calc_votes done s s' x Hbooks Hx H) as Hvs.
  pose proof (calc_post _ _ H) as (Hv & Hq & Ht & _).
  destruct Hbooks as (_ & Hnames & _).
  split; [|split; [|now split]].
  - intros x' Hx' En.
    apply calc_inv in H. destruct H as (x0 & s1 & Hx0 & _ & Htr & ->).
    rewrite Hx in Hx0. injection Hx0 as <-.
    pose proof (transfer_spec _ _ _ _ Htr) as (_ & _ & _ & _ & Hrec & _).
    fields.
    destruct (selected_untouched done _ s1 x Hfresh Hnames Hin Hs Hrec)
      as [_ Hsame].
    apply clamp_in in Hx'. destruct Hx' as (x1 & Hx1 & [[E ->] | [E ->]]).
    + now rewrite (Hsame x1 Hx1 E).
    + exfalso. congruence.
  - rewrite Hvs. apply Forall2_map_self. intros v _.
    split; [apply rescale_id|]. split; [apply rescale_preference|].
    intro Hout. now rewrite rescale_outside.
Qed.

Lemma surplus_step_frame_witness :
  NoDup (map fst ballots_one_surplus) /\
  reachable 2 ballots_one_surplus InRound [] one_surplus_distributed /\
  surplus_candidate one_surplus_distributed = Ok one_surplus_candidate /\
  calc_and_distribute_surplus one_surplus_distributed
    = Ok one_surplus_transferred /\
  Forall2 (fun v v' =>
             Vote.id v' = Vote.id v /\
             Vote.preference v' = Vote.preference v /\
             (~ In (Vote.id v) (Candidate.votes one_surplus_candidate) ->
              Vote.value v' = Vote.value v))
          (votes one_surplus_distributed) (votes one_surplus_transferred).
Proof.
  assert (H1 : NoDup (map fst ballots_one_surplus)) by nodup_by_computation.
  assert (H2 := proj1 one_surplus_reachable).
  assert (H3 : surplus_candidate one_surplus_distributed
               = Ok one_surplus_candidate) by (vm_compute; reflexivity).
  assert (H4 : calc_and_distribute_surplus one_surplus_distributed
               = Ok one_surplus_transferred) by (vm_compute; reflexivity).
  split; [exact H1|]. split; [exact H2|]. split; [exact H3|].
  split; [exact H4|].
  exact (proj1 (proj2 (surplus_step_frame 2 ballots_one_surplus [] _ _ _
                         H1 H2 H3 H4))).
Defined.

(** ** The winners of a distribution of preferences *)

Lemma distribute_pool (todo : list Vote.t) (s s' : State) :
  NoDup (map Candidate.name (candidates s)) ->
  distribute todo s = Ok s' ->
  (pool_total s' + total_votes s <= pool_total s + total_votes s')%Q.
Proof.
  revert s. induction todo as [|vote rest IH]; intros s Hnd H.
  - injection H as <-. lra.
  - rewrite distribute_cons in H.
    destruct (Vote.get_preference (set_value 1%Q vote)) as [n|]; [|discriminate].
    unfold bind in H.
    destruct (alloc_vote n _ s) as [s1|] eqn:Ea; [|discriminate H].
    apply alloc_vote_inv in Ea.
    destruct Ea as [[Hn ->] | (_ & _ & ->)]; fields; apply IH in H; fields.
    + unfold pool_total in *. fields.
      pose proof (alloc_in_sum n (set_value 1%Q vote) _ Hnd Hn) as Hs.
      cbn [set_value Vote.value] in *. lra.
    + now rewrite alloc_in_names.
    + unfold pool_total in *. fields. cbn [set_value Vote.value] in *. lra.
    + exact Hnd.
Qed.

Lemma distribute_nonneg (todo : list Vote.t) (s s' : State) :
  (forall c, In c (candidates s) -> (0 <= Candidate.total_value c)%Q) ->
  distribute todo s = Ok s' ->
  forall c, In c (candidates s') -> (0 <= Candidate.total_value c)%Q.
Proof.
  revert s. induction todo as [|vote rest IH]; intros s Hpos H c Hc.
  - injection H as <-. now apply Hpos.
  - rewrite distribute_cons in H.
    destruct (Vote.get_preference (set_value 1%Q vote)) as [n|]; [|discriminate].
    unfold bind in H.
    destruct (alloc_vote n _ s) as [s1|] eqn:Ea; [|discriminate H].
    apply alloc_vote_inv in Ea.
    destruct Ea as [[_ ->] | (_ & _ & ->)];
      (eapply IH; [|exact H|exact Hc]); fields; [|exact Hpos].
    intros c1 Hc1. unfold alloc_in in Hc1. apply in_map_iff in Hc1.
    destruct Hc1 as (c0 & <- & Hc0). pose proof (Hpos c0 Hc0) as H0.
    destruct (has_name n c0); [|exact H0].
    cbn [Candidate.alloc_vote Candidate.total_value set_value Vote.value].
    lra.
Qed.

Lemma winners_count (q : Q) (cs : list Candidate.t) :
  (0 <= q)%Q ->
  (forall c, In c cs -> (0 <= Candidate.total_value c)%Q) ->
  (inject_Z (Z.of_nat (length (filter (fun c =>
                                         Qle_bool q (Candidate.total_value c))
                                      cs))) * q
   <= Qsum (map Candidate.total_value cs))%Q.
Proof.
  intros Hq. induction cs as [|c cs IH]; intro H.
  - cbn [filter length map Qsum fold_right]. change (Z.of_nat 0) with 0%Z.
    change (inject_Z 0) with 0%Q. lra.
  - assert (IH' := IH (fun c' Hc' => H c' (or_intror Hc'))).
    assert (Hc := H c (or_introl eq_refl)).
    cbn [filter map Qsum fold_right].
    fold (Qsum (map Candidate.total_value cs)).
    destruct (Qle_bool q (Candidate.total_value c)) eqn:E.
    + apply Qle_bool_iff in E. cbn [length].
      rewrite Nat2Z.inj_succ. unfold Z.succ. rewrite inject_Z_plus.
      change (inject_Z 1) with 1%Q. lra.
    + lra.
Qed.

(** X15.  A distribution of preferences never declares more provisional
    winners than there are vacancies.  With distinct candidate names and
    [vacancies >= 0], the candidates of the dict hold afterwards whole,
    non-negative numbers of votes that sum to no more than [total_votes],
    which is below [quota * (vacancies + 1)]. *)
Theorem distribution_winners_bounded (s s' : State) :
  NoDup (map Candidate.name (candidates s)) ->
  (0 <= vacancies s)%Z ->
  distribution_of_preferences s = Ok s' ->
  (pool_total s' <= total_votes s')%Q /\
  (forall c, In c (candidates s') -> (0 <= Candidate.total_value c)%Q) /\
  (total_votes s' < quota s' * inject_Z (1 + vacancies s'))%Q /\
  provisional_winners s' = winners_of s' /\
  (Z.of_nat (length (provisional_winners s')) <= vacancies s')%Z.
Proof.
  intros Hnames Hvac Hd.
  pose proof (distribution_quota _ _ Hd Hvac) as Hq.
  pose proof (distribution_inv _ _ Hd)
    as (_ & Hv & _ & _ & _ & _ & Hqv & Hfresh & _).
  assert (Hquota : (total_votes s' < quota s' * inject_Z (1 + vacancies s'))%Q).
  { rewrite Hqv at 1.
    apply (quota_bounds (total_votes s') (1 + vacancies s')). lia. }
  assert (Hboth : (pool_total s' <= total_votes s')%Q /\
                  forall c, In c (candidates s') ->
                            (0 <= Candidate.total_value c)%Q).
  { unfold distribution_of_preferences, bind in Hd. cbv zeta in Hd.
    destruct (distribute _ _) as [s1|] eqn:Ed; [|discriminate].
    destruct (Z.eqb (1 + vacancies s1) 0); [discriminate|].
    injection Hd as <-. unfold pool_total. fields. split.
    - apply distribute_pool in Ed; fields.
      + unfold pool_total in Ed. fields. rewrite Qsum_zero in Ed. lra.
      + rewrite map_map. exact Hnames.
    - intros c Hc. eapply distribute_nonneg; [|exact Ed|exact Hc]. fields.
      intros c1 Hc1. apply in_map_iff in Hc1. destruct Hc1 as (c0 & <- & _).
      cbn [reset Candidate.total_value]. lra. }
  destruct Hboth as [Hpool Hpos].
  split; [exact Hpool|]. split; [exact Hpos|]. split; [exact Hquota|].
  split; [exact Hfresh|].
  rewrite Hfresh. unfold winners_of. rewrite length_map.
  assert (Hcount := winners_count (quota s') (candidates s')
                      ltac:(lra) Hpos).
  fold (pool_total s') in Hcount.
  apply Z.lt_succ_r. apply Z.nle_gt. intro Hle.
  rewrite Zle_Qle in Hle. unfold Z.succ in Hle.
  rewrite <- (Z.add_comm 1) in Hle.
  apply (Qmult_le_compat_r _ _ (quota s')) in Hle; [|lra].
  lra.
Qed.

Lemma distribution_winners_bounded_witness :
  NoDup (map Candidate.name
           (candidates (logging (StartingRound 1)
                          (init 3 ballots_two_surpluses)))) /\
  (0 <= vacancies (logging (StartingRound 1)
                     (init 3 ballots_two_surpluses)))%Z /\
  distribution_of_preferences
    (logging (StartingRound 1) (init 3 ballots_two_surpluses))
  = Ok two_surpluses_distributed /\
  (Z.of_nat (length (provisional_winners two_surpluses_distributed))
   <= vacancies two_surpluses_distributed)%Z.
Proof.
  assert (H1 : NoDup (map Candidate.name
                        (candidates (logging (StartingRound 1)
                                       (init 3 ballots_two_surpluses)))))
    by nodup_by_computation.
  assert (H2 : (0 <= vacancies (logging (StartingRound 1)
                                  (init 3 ballots_two_surpluses)))%Z)
    by (vm_compute; discriminate).
  assert (H3 : distribution_of_preferences
                 (logging (StartingRound 1) (init 3 ballots_two_surpluses))
               = Ok two_surpluses_distributed) by (vm_compute; reflexivity).
  split; [exact H1|]. split; [exact H2|]. split; [exact H3|].
  exact (proj2 (proj2 (proj2 (proj2
           (distribution_winners_bounded _ _ H1 H2 H3))))).
Defined.

(** ** The result of the election *)

Lemma winners_of_distinct (s : State) :
  NoDup (map Candidate.name (candidates s)) -> NoDup (winners_of s).
Proof.
  unfold winners_of. intro Hnd.
  induction (candidates s) as [|c cs IH]; [constructor|].
  cbn [map] in Hnd. apply NoDup_cons_iff in Hnd. destruct Hnd as [Hc Hrest].
  cbn [filter]. destruct (Qle_bool (quota s) (Candidate.total_value c));
    [|now apply IH].
  cbn [map]. apply NoDup_cons; [|now apply IH].
  intro Hin. apply Hc. apply in_map_iff in Hin.
  destruct Hin as (w & E & Hw). apply filter_In in Hw.
  apply in_map_iff. exists w. tauto.
Qed.

Lemma winners_of_reach (s : State) (n : string) :
  In n (winners_of s) ->
  exists c, In c (candidates s) /\ Candidate.name c = n /\
            (quota s <= Candidate.total_value c)%Q.
Proof.
  unfold winners_of. intro H. apply in_map_iff in H.
  destruct H as (c & E & Hc). apply filter_In in Hc. destruct Hc as [Hc Hq].
  exists c. split; [exact Hc|]. split; [exact E|]. now apply Qle_bool_iff.
Qed.

Lemma loop_top_winners (vac : Z) (ballots : list (Z * list string))
  (done : list string) (s : State) :
  reachable vac ballots LoopTop done s ->
  provisional_winners s = [] \/
  (Z.of_nat (length (provisional_winners s)) < vacancies s)%Z.
Proof.
  intro H. inversion H as [| | |draw done0 s0 s1 _ Hnf _ He]; subst.
  - left. now destruct (init_spec vac ballots) as ((_ & _ & Hpw & _) & _).
  - right. apply not_filled in Hnf. destruct Hnf as [_ Hpw].
    apply exclusion_inv in He.
    destruct He as (minimum & excluded & obj & rest & He).
    destruct He as (_ & _ & _ & _ & _ & _ & Hv & Hw & _). fields.
    now rewrite Hv, Hw.
Qed.

Lemma init_names (vac : Z) (ballots : list (Z * list string)) (n : string) :
  In n (map Candidate.name (candidates (init vac ballots)))
  <-> exists b, In b ballots /\ In n (snd b).
Proof.
  destruct (fold_add_ballot_state ballots (mkState vac [] [] [] [] 0%Q 0%Q []))
    as [_ Hn].
  fold (init vac ballots) in Hn. cbn [candidates map] in Hn.
  rewrite Hn. split; [intros [[]|H]; exact H | now right].
Qed.

(** X16.  What [get_winners] returns after the constructor, for
    [vacancies >= 0]: distinct names of candidates that are still in the
    dict and that occur on some ballot.  Either no more than [vacancies]
    candidates are left and all of them are returned, or more are left and
    the provisional winners are returned: at least [vacancies] candidates,
    each holding at least the quota. *)
Theorem election_result (vac : Z) (ballots : list (Z * list string))
  (lots : nat -> nat) (s : State) (ws : list string) :
  (0 <= vac)%Z ->
  WrightSystem vac ballots lots = Ok s ->
  fst (get_winners s) = Ok ws ->
  NoDup ws /\
  (forall n, In n ws ->
             In n (map Candidate.name (candidates s)) /\
             exists b, In b ballots /\ In n (snd b)) /\
  (((Z.of_nat (length (candidates s)) <= vac)%Z /\
    ws = map Candidate.name (candidates s)) \/
   ((vac < Z.of_nat (length (candidates s)))%Z /\
    (vac <= Z.of_nat (length ws))%Z /\
    ws = provisional_winners s /\
    forall n, In n ws ->
      exists c, In c (candidates s) /\ Candidate.name c = n /\
                (quota s <= Candidate.total_value c)%Q)).
Proof.
  intros Hvac Hrun Hw.
  destruct (WrightSystem_reachable _ _ _ _ Hrun) as (p & done & Hr).
  destruct (reachable_names _ _ _ _ _ Hr) as (Hnames & Hsub & Hv).
  assert (Hballot : forall n, In n (map Candidate.name (candidates s)) ->
                              exists b, In b ballots /\ In n (snd b))
    by (intros n Hn; apply (init_names vac); now apply Hsub).
  unfold get_winners in Hw. rewrite Hv in Hw.
  destruct (Z.leb_spec (Z.of_nat (length (candidates s))) vac) as [Hle|Hgt].
  - injection Hw as <-. split; [exact Hnames|].
    split; [intros n Hn; split; [exact Hn | now apply Hballot]|].
    now left.
  - destruct (Z.leb_spec vac (Z.of_nat (length (provisional_winners s))))
      as [Hfull|]; [|discriminate Hw].
    injection Hw as <-. destruct p.
    + destruct (loop_top_winners _ _ _ _ Hr) as [E|Hlt]; [|lia].
      rewrite E in Hfull |- *. cbn [length] in Hfull |- *.
      split; [constructor|]. split; [intros n []|].
      right. split; [exact Hgt|]. split; [lia|].
      split; [reflexivity | intros n []].
    + destruct (reachable_clamped _ _ _ _ _ Hr eq_refl) as [Hfresh _].
      split; [rewrite Hfresh; now apply winners_of_distinct|]. split.
      * intros n Hn. rewrite Hfresh in Hn.
        destruct (winners_of_reach s n Hn) as (c & Hc & <- & _).
        assert (Hin : In (Candidate.name c) (map Candidate.name (candidates s)))
          by now apply in_map.
        split; [exact Hin | now apply Hballot].
      * right. split; [exact Hgt|]. split; [exact Hfull|].
        split; [reflexivity|].
        intros n Hn. rewrite Hfresh in Hn. now apply winners_of_reach.
Qed.

Lemma election_result_witness :
  (0 <= VACANCIES)%Z /\
  WrightSystem VACANCIES INITIAL_BALLOTS (fun _ => 0%nat) = Ok script_final /\
  fst (get_winners script_final) = Ok script_winners /\
  NoDup script_winners /\
  (forall n, In n script_winners ->
             In n (map Candidate.name (candidates script_final)) /\
             exists b, In b INITIAL_BALLOTS /\ In n (snd b)).
Proof.
  assert (H2 : (0 <= VACANCIES)%Z) by (vm_compute; discriminate).
  assert (H3 : WrightSystem VACANCIES INITIAL_BALLOTS (fun _ => 0%nat)
               = Ok script_final) by (vm_compute; reflexivity).
  assert (H4 : fst (get_winners script_final) = Ok script_winners)
    by (vm_compute; reflexivity).
  split; [exact H2|]. split; [exact H3|]. split; [exact H4|].
  destruct (election_result VACANCIES INITIAL_BALLOTS (fun _ => 0%nat)
              script_final script_winners H2 H3 H4) as (Ha & Hb & _).
  exact (conj Ha Hb).
Defined.

(** ** Every candidate is accounted for *)

Lemma excluded_of_app (l1 l2 : list Event) :
  excluded_of (l1 ++ l2) = excluded_of l1 ++ excluded_of l2.
Proof.
  induction l1 as [|e l1 IH]; [reflexivity|].
  destruct e; cbn [app excluded_of]; now rewrite IH.
Qed.

Lemma transfer_events_excluded (evs : list Event) :
  forallb is_transfer_event evs = true -> excluded_of evs = [].
Proof.
  induction evs as [|e evs IH]; [reflexivity|].
  cbn [forallb]. intro H. apply andb_true_iff in H. destruct H as [He H].
  destruct e; try discriminate He; cbn [excluded_of]; now apply IH.
Qed.

Lemma reachable_accounted (vac : Z) (ballots : list (Z * list string))
  (p : phase) (done : list string) (s : State) :
  reachable vac ballots p done s ->
  Permutation (excluded_of (log s) ++ map Candidate.name (candidates s))
              (map Candidate.name (candidates (init vac ballots))) /\
  rounds s = match p with
             | LoopTop => length (excluded_of (log s))
             | InRound => S (length (excluded_of (log s)))
             end.
Proof.
  intro H. induction H as [|round_nr done s s' _ [IH IHr] _ Hd
                            |done s c s' _ [IH IHr] _ _ _ Hc
                            |draw done s s' _ [IH IHr] _ _ He].
  - destruct (init_spec vac ballots) as ((_ & Hl & _) & _).
    unfold rounds. rewrite Hl. split; [apply Permutation_refl | reflexivity].
  - pose proof (distribution_counts _ _ Hd) as [Hr _].
    pose proof (distribution_inv _ _ Hd)
      as (_ & _ & Hn & _ & _ & _ & _ & _ & Hl).
    fields. rewrite Hl, Hn. cbn [excluded_of]. split; [exact IH|].
    rewrite Hr. unfold rounds. fields. cbn [filter is_round_start length].
    fold (rounds s). now rewrite IHr.
  - pose proof (calc_counts _ _ Hc) as [Hr _].
    pose proof (calc_post _ _ Hc)
      as (_ & _ & _ & Hn & _ & _ & _ & _ & c' & evs & _ & Hl & He & _).
    rewrite Hl, Hn, excluded_of_app, (transfer_events_excluded _ He).
    cbn [app excluded_of]. split; [exact IH | now rewrite Hr].
  - pose proof (exclusion_counts _ _ _ He) as [Hr _].
    apply exclusion_inv in He.
    destruct He as (minimum & excluded & obj & rest & He).
    destruct He as (_ & _ & Hp & Hcs & _ & _ & _ & _ & _ & _ & Hl). fields.
    pose proof (pop_key_spec _ _ _ _ Hp) as (Hname & _).
    apply pop_key_split in Hp. destruct Hp as (l1 & l2 & Hs & Hrest & _).
    assert (Hex : excluded_of (log s')
                  = Candidate.name excluded :: excluded_of (log s)).
    { rewrite Hl. cbn [excluded_of].
      destruct (1 <? length minimum)%nat; reflexivity. }
    rewrite Hex. split.
    + rewrite Hcs, Hrest. rewrite Hs in IH. rewrite map_app in IH |- *.
      cbn [map] in IH. rewrite Hname in IH.
      eapply Permutation_trans; [|exact IH].
      cbn [app]. rewrite !app_assoc.
      apply Permutation_cons_app. apply Permutation_refl.
    + rewrite Hr. unfold rounds in *. fields. cbn [length]. exact IHr.
Qed.

(** X17.  No candidate is lost and none is invented: when the constructor
    returns, the candidates logged as excluded together with the
    candidates left in the dict are, up to order, the candidates named on
    the ballots, each once.  Every round but the last one ends with one
    exclusion, so the dict has lost at most one candidate per round. *)
Theorem candidates_accounted_for (vac : Z) (ballots : list (Z * list string))
  (lots : nat -> nat) (s : State) :
  WrightSystem vac ballots lots = Ok s ->
  Permutation (excluded_of (log s) ++ map Candidate.name (candidates s))
              (map Candidate.name (candidates (init vac ballots))) /\
  NoDup (excluded_of (log s) ++ map Candidate.name (candidates s)) /\
  (length (excluded_of (log s)) <= rounds s <= S (length (excluded_of (log s))))%nat.
Proof.
  intro Hrun.
  destruct (WrightSystem_reachable _ _ _ _ Hrun) as (p & done & Hr).
  destruct (reachable_accounted _ _ _ _ _ Hr) as [Hperm Hrounds].
  split; [exact Hperm|]. split.
  - apply (Permutation_NoDup (Permutation_sym Hperm)).
    now destruct (init_spec vac ballots) as ((_ & _ & _ & _ & Hnd & _) & _).
  - destruct p; lia.
Qed.

Lemma candidates_accounted_for_witness :
  WrightSystem VACANCIES INITIAL_BALLOTS (fun _ => 1%nat)
  = Ok (state_of (WrightSystem VACANCIES INITIAL_BALLOTS (fun _ => 1%nat))) /\
  Permutation
    (excluded_of
       (log (state_of (WrightSystem VACANCIES INITIAL_BALLOTS (fun _ => 1%nat))))
     ++ map Candidate.name
          (candidates
             (state_of (WrightSystem VACANCIES INITIAL_BALLOTS (fun _ => 1%nat)))))
    (map Candidate.name (candidates (init VACANCIES INITIAL_BALLOTS))).
Proof.
  assert (H : WrightSystem VACANCIES INITIAL_BALLOTS (fun _ => 1%nat)
              = Ok (state_of (WrightSystem VACANCIES INITIAL_BALLOTS
                                (fun _ => 1%nat))))
    by (vm_compute; reflexivity).
  split; [exact H|].
  exact (proj1 (candidates_accounted_for VACANCIES INITIAL_BALLOTS
                  (fun _ => 1%nat) _ H)).
Defined.

(** ** The ballots during the run *)

Lemma remaining_names (s s' : State) (preference : list string) :
  map Candidate.name (candidates s') = map Candidate.name (candidates s) ->
  remaining s' preference = remaining s preference.
Proof.
  intro Hn. unfold remaining. apply filter_ext. intro n.
  destruct (existsb (has_name n) (candidates s)) eqn:E.
  - apply existsb_has_name. rewrite Hn. now apply existsb_has_name.
  - apply existsb_has_name_false. rewrite Hn. now apply existsb_has_name_false.
Qed.

Lemma remaining_all (s : State) (preference : list string) :
  (forall n, In n preference -> In n (map Candidate.name (candidates s))) ->
  remaining s preference = preference.
Proof.
  unfold remaining. induction preference as [|n l IH]; intro H; [reflexivity|].
  cbn [filter].
  assert (E : existsb (has_name n) (candidates s) = true)
    by (apply existsb_has_name, H; now left).
  rewrite E, IH; [reflexivity|]. intros m Hm. apply H. now right.
Qed.

Lemma list_remove_absent (n : string) (l : list string) :
  ~ In n l -> list_remove n l = l.
Proof.
  induction l as [|z l IH]; intro H; [reflexivity|].
  cbn [list_remove]. destruct (String.eqb_spec n z) as [->|E].
  - exfalso. apply H. now left.
  - rewrite IH; [reflexivity|]. intro Hin. apply H. now right.
Qed.

Lemma strike_preference (n : string) (v : Vote.t) :
  Vote.preference (strike n v) = list_remove n (Vote.preference v).
Proof.
  unfold strike. destruct (existsb (String.eqb n) (Vote.preference v)) eqn:E.
  - reflexivity.
  - symmetry. apply list_remove_absent. intro Hin.
    assert (Ht : existsb (String.eqb n) (Vote.preference v) = true).
    { apply existsb_exists. exists n. split; [exact Hin|].
      apply String.eqb_refl. }
    congruence.
Qed.

Lemma list_remove_restricts (n : string) (keep : string -> bool)
  (preference : list string) :
  NoDup preference ->
  list_remove n (filter keep preference)
  = filter (fun m => keep m && negb (String.eqb n m)) preference.
Proof.
  induction preference as [|z l IH]; intro Hnd; [reflexivity|].
  apply NoDup_cons_iff in Hnd. destruct Hnd as [Hz Hl].
  cbn [filter]. destruct (keep z) eqn:Ek; cbn [andb].
  - cbn [list_remove]. destruct (String.eqb_spec n z) as [->|E]; cbn [negb].
    + apply filter_ext_in. intros m Hm.
      destruct (String.eqb_spec z m) as [->|_]; [contradiction|].
      now rewrite andb_true_r.
    + now rewrite IH.
  - now apply IH.
Qed.

Lemma remaining_after_exclusion (draw : nat) (s s' : State)
  (preference : list string) :
  NoDup (map Candidate.name (candidates s)) -> NoDup preference ->
  exclusion_of_candidates draw s = Ok s' ->
  exists n,
    votes s' = map (strike n) (votes s) /\
    remaining s' preference = list_remove n (remaining s preference).
Proof.
  intros Hnames Hnd He. apply exclusion_inv in He.
  destruct He as (minimum & excluded & obj & rest & He).
  destruct He as (_ & _ & Hp & Hcs & _ & Hvs & _).
  exists (Candidate.name excluded). split; [exact Hvs|].
  apply pop_key_spec in Hp. destruct Hp as (_ & _ & _ & Hiff & Hrest).
  destruct (Hrest Hnames) as [_ Hnot].
  unfold remaining. rewrite list_remove_restricts; [|exact Hnd].
  apply filter_ext. intro m. rewrite Hcs.
  destruct (String.eqb_spec (Candidate.name excluded) m) as [<-|E].
  - rewrite andb_false_r. now apply existsb_has_name_false.
  - rewrite andb_true_r.
    destruct (existsb (has_name m) (candidates s)) eqn:Em.
    + apply existsb_has_name. apply existsb_has_name in Em.
      apply Hiff in Em. destruct Em as [->|Em]; [congruence | exact Em].
    + apply existsb_has_name_false. apply existsb_has_name_false in Em.
      intro Hin. apply Em. apply Hiff. now right.
Qed.

Lemma ballot_by_id_unique (ballots : list (Z * list string))
  (b1 b2 : Z * list string) :
  NoDup (map fst ballots) -> In b1 ballots -> In b2 ballots ->
  fst b1 = fst b2 -> b1 = b2.
Proof.
  induction ballots as [|b bs IH]; intros Hnd H1 H2 E; [contradiction|].
  cbn [map] in Hnd. apply NoDup_cons_iff in Hnd. destruct Hnd as [Hb Hbs].
  destruct H1 as [<-|H1], H2 as [<-|H2].
  - reflexivity.
  - exfalso. apply Hb. rewrite E. now apply in_map.
  - exfalso. apply Hb. rewrite <- E. now apply in_map.
  - now apply IH.
Qed.

Lemma reachable_ballots (vac : Z) (ballots : list (Z * list string))
  (p : phase) (done : list string) (s : State) :
  NoDup (map fst ballots) ->
  (forall b, In b ballots -> NoDup (snd b)) ->
  reachable vac ballots p done s -> ballots_inv ballots s.
Proof.
  intros Hids Hb H.
  induction H as [|round_nr done s s' Hr [IH1 IH2] _ Hd
                  |done s c s' Hr [IH1 IH2] _ _ Hx Hc
                  |draw done s s' Hr [IH1 IH2] _ _ He].
  - destruct (fold_add_ballot_state ballots
                (mkState vac [] [] [] [] 0%Q 0%Q [])) as [Hvs _].
    fold (init vac ballots) in Hvs. cbn [votes app] in Hvs.
    assert (Hall : forall b, In b ballots ->
                     remaining (init vac ballots) (snd b) = snd b).
    { intros b Hin. apply remaining_all. intros n Hn.
      apply init_names. now exists b. }
    split.
    + intros v Hv. rewrite Hvs in Hv. apply in_map_iff in Hv.
      destruct Hv as (b & <- & Hin). exists b.
      split; [exact Hin|]. split; [reflexivity|].
      cbn [Vote.new Vote.preference]. symmetry. now apply Hall.
    + intros b Hin. left. exists (Vote.new (fst b) (snd b)).
      split; [|reflexivity]. rewrite Hvs. apply in_map_iff. now exists b.
  - pose proof (distribution_inv _ _ Hd) as (_ & _ & Hn & _ & Hvs & _).
    fields.
    assert (Hrem : forall l, remaining s' l = remaining s l)
      by (intro l; now apply remaining_names).
    split.
    + intros v' Hv'. rewrite Hvs in Hv'. apply in_map_iff in Hv'.
      destruct Hv' as (v & <- & Hv). apply filter_In in Hv.
      destruct Hv as [Hv _]. destruct (IH1 v Hv) as (b & Hin & Hid & Hp).
      exists b. rewrite Hrem. now split.
    + intros b Hin. rewrite Hrem.
      destruct (IH2 b Hin) as [(v & Hv & Hid)|E]; [|now right].
      destruct (IH1 v Hv) as (b' & Hin' & Hid' & Hp).
      assert (b' = b)
        by (apply (ballot_by_id_unique ballots); trivial; congruence).
      subst b'. destruct (exhausted v) eqn:Ex.
      * right. rewrite <- Hp. unfold exhausted in Ex.
        now destruct (Vote.preference v).
      * left. exists (set_value 1%Q v). split; [|exact Hid].
        rewrite Hvs. apply in_map. apply filter_In. split; [exact Hv|].
        now rewrite Ex.
  - pose proof (reachable_inv _ _ _ _ _ Hids Hr) as (_ & Hbooks & _).
    pose proof (calc_votes done s s' c Hbooks Hx Hc) as Hvs.
    pose proof (calc_post _ _ Hc) as (_ & _ & _ & Hn & _).
    assert (Hrem : forall l, remaining s' l = remaining s l)
      by (intro l; now apply remaining_names).
    split.
    + intros v' Hv'. rewrite Hvs in Hv'. apply in_map_iff in Hv'.
      destruct Hv' as (v & <- & Hv). destruct (IH1 v Hv) as (b & Hin & Hid & Hp).
      exists b. rewrite Hrem, rescale_id, rescale_preference. now split.
    + intros b Hin. rewrite Hrem.
      destruct (IH2 b Hin) as [(v & Hv & Hid)|E]; [left | now right].
      exists (rescale (Candidate.votes c)
                ((Candidate.total_value c - quota s) / Candidate.total_value c)
                v).
      split; [rewrite Hvs; now apply in_map | now rewrite rescale_id].
  - destruct (reachable_names _ _ _ _ _ Hr) as (Hnames & _).
    pose proof (reachable_inv _ _ _ _ _ Hids Hr) as (_ & (Hvid & _) & _).
    assert (Hstep : forall l, NoDup l ->
              exists n,
                votes s' = map (strike n) (votes s) /\
                remaining s' l = list_remove n (remaining s l)).
    { intros l Hl.
      exact (remaining_after_exclusion draw
               (logging (VotesAfterSurplus (candidates s)) s) s' l
               Hnames Hl He). }
    split.
    + intros v' Hv'.
      destruct (Hstep [] (NoDup_nil _)) as (m & Hvs0 & _).
      assert (Hv0 := Hv'). rewrite Hvs0 in Hv0. apply in_map_iff in Hv0.
      destruct Hv0 as (v & Ev & Hv).
      destruct (IH1 v Hv) as (b & Hin & Hidb & Hp). exists b.
      split; [exact Hin|]. split; [rewrite <- Ev, strike_id; exact Hidb|].
      destruct (Hstep (snd b) (Hb b Hin)) as (n & Hvs & Hrem).
      rewrite Hrem, <- Hp.
      rewrite Hvs in Hv'. apply in_map_iff in Hv'.
      destruct Hv' as (w & Ew & Hw).
      assert (w = v).
      { apply (vote_by_id_unique (votes s)); trivial.
        rewrite <- (strike_id n w), <- (strike_id m v). congruence. }
      subst w. rewrite <- Ew. apply strike_preference.
    + intros b Hin.
      destruct (Hstep (snd b) (Hb b Hin)) as (n & Hvs & Hrem).
      destruct (IH2 b Hin) as [(v & Hv & Hid)|E].
      * left. exists (strike n v). split; [|now rewrite strike_id].
        rewrite Hvs. now apply in_map.
      * right. rewrite Hrem, E. reflexivity.
Qed.

(** X18.  In a run whose ballots rank no candidate twice, at every moment
    each vote of [self.votes] carries its ballot's preference list
    restricted to the candidates still in the dict, in the ballot's order;
    a ballot whose vote has been dropped as exhausted names no candidate of
    the dict any more. *)
Theorem votes_are_restricted_ballots (vac : Z) (ballots : list (Z * list string))
  (p : phase) (done : list string) (s : State) :
  NoDup (map fst ballots) ->
  (forall b, In b ballots -> NoDup (snd b)) ->
  reachable vac ballots p done s ->
  (forall v, In v (votes s) ->
     exists b, In b ballots /\ fst b = Vote.id v /\
               Vote.preference v = remaining s (snd b)) /\
  (forall b, In b ballots ->
     (exists v, In v (votes s) /\ Vote.id v = fst b) \/
     forall n, In n (snd b) -> ~ In n (map Candidate.name (candidates s))).
Proof.
  intros Hids Hb Hr.
  destruct (reachable_ballots _ _ _ _ _ Hids Hb Hr) as [H1 H2].
  split; [exact H1|]. intros b Hin.
  destruct (H2 b Hin) as [Hv|E]; [now left | right].
  intros n Hn Hc. apply existsb_has_name in Hc.
  assert (Hf : In n (remaining s (snd b)))
    by (apply filter_In; now split).
  rewrite E in Hf. contradiction.
Qed.

Lemma votes_are_restricted_ballots_witness :
  NoDup (map fst ballots_one_surplus) /\
  (forall b, In b ballots_one_surplus -> NoDup (snd b)) /\
  reachable 2 ballots_one_surplus InRound ["A"%string] one_surplus_transferred /\
  (forall v, In v (votes one_surplus_transferred) ->
     exists b, In b ballots_one_surplus /\ fst b = Vote.id v /\
               Vote.preference v = remaining one_surplus_transferred (snd b)) /\
  (forall b, In b ballots_one_surplus ->
     (exists v, In v (votes one_surplus_transferred) /\ Vote.id v = fst b) \/
     forall n, In n (snd b) ->
       ~ In n (map Candidate.name (candidates one_surplus_transferred))).
Proof.
  assert (H1 : NoDup (map fst ballots_one_surplus)) by nodup_by_computation.
  assert (H2 : forall b, In b ballots_one_surplus -> NoDup (snd b)).
  { intros b Hin. unfold ballots_one_surplus in Hin. cbn [In] in Hin.
    repeat (destruct Hin as [<-|Hin]; [cbn [snd]; nodup_by_computation|]).
    contradiction. }
  assert (H3 := proj2 one_surplus_reachable).
  split; [exact H1|]. split; [exact H2|]. split; [exact H3|].
  exact (votes_are_restricted_ballots 2 ballots_one_surplus InRound
           ["A"%string] one_surplus_transferred H1 H2 H3).
Defined.

(** ** Who can be excluded *)

Lemma below_quota_exists (s : State) :
  (length (winners_of s) < length (candidates s))%nat ->
  exists c, In c (candidates s) /\ (Candidate.total_value c < quota s)%Q.
Proof.
  unfold winners_of. rewrite length_map.
  induction (candidates s) as [|c cs IH]; cbn [filter length]; [lia|].
  destruct (Qle_bool (quota s) (Candidate.total_value c)) eqn:E.
  - cbn [length]. intro H. destruct IH as (c' & Hc' & Hlt); [lia|].
    exists c'. split; [now right | exact Hlt].
  - intros _. exists c. split; [now left|].
    apply Qnot_le_lt. intro Hle. apply Qle_bool_iff in Hle. congruence.
Qed.

(** X19.  The candidate that a run excludes holds less than the quota and
    is not a provisional winner: exclusion is reached only with fewer
    provisional winners than vacancies and more candidates than vacancies,
    so the least total is below the quota.  Every provisional winner is
    still in the dict after the exclusion. *)
Theorem exclusion_spares_winners (vac : Z) (ballots : list (Z * list string))
  (done : list string) (draw : nat) (s s' : State) :
  reachable vac ballots InRound done s ->
  check_all_vacancies_filled s = false ->
  exclusion_of_candidates draw
    (logging (VotesAfterSurplus (candidates s)) s) = Ok s' ->
  exists x,
    In x (candidates s) /\
    hd_error (log s') = Some (Excluding (Candidate.name x)) /\
    (Candidate.total_value x < quota s)%Q /\
    ~ In (Candidate.name x) (provisional_winners s) /\
    forall n, In n (provisional_winners s) ->
              In n (map Candidate.name (candidates s')).
Proof.
  intros Hr Hnf He.
  destruct (reachable_names _ _ _ _ _ Hr) as (Hnames & _).
  destruct (reachable_clamped _ _ _ _ _ Hr eq_refl) as [Hfresh _].
  apply not_filled in Hnf. destruct Hnf as [Hmany Hfew].
  destruct (below_quota_exists s) as (c0 & Hc0 & Hlow);
    [rewrite <- Hfresh; lia|].
  apply exclusion_inv in He.
  destruct He as (minimum & excluded & obj & rest & He).
  destruct He as (Hm & Hc & Hp & Hcs & _ & _ & _ & _ & _ & _ & Hl). fields.
  apply choice_in in Hc.
  destruct (minimum_votes_least _ minimum Hm excluded Hc) as [Hin Hleast].
  fields. pose proof (Hleast c0 Hc0) as Hle.
  assert (Hx : (Candidate.total_value excluded < quota s)%Q) by lra.
  assert (Hnot : ~ In (Candidate.name excluded) (provisional_winners s)).
  { rewrite Hfresh. intro Hw.
    destruct (winners_of_reach s _ Hw) as (c' & Hc' & En & Hq).
    rewrite (same_name_same_candidate _ c' excluded Hnames Hc' Hin En) in Hq.
    lra. }
  exists excluded. split; [exact Hin|]. split; [now rewrite Hl|].
  split; [exact Hx|]. split; [exact Hnot|].
  intros n Hn. rewrite Hcs.
  apply pop_key_spec in Hp. destruct Hp as (_ & _ & _ & Hiff & _).
  assert (Hdict : In n (map Candidate.name (candidates s))).
  { rewrite Hfresh in Hn.
    destruct (winners_of_reach s n Hn) as (c' & Hc' & <- & _).
    now apply in_map. }
  apply Hiff in Hdict. destruct Hdict as [->|Hrest]; [contradiction | exact Hrest].
Qed.

Lemma exclusion_spares_winners_witness :
  reachable 1 ballots_repeated_name InRound [] repeated_name_distributed /\
  check_all_vacancies_filled repeated_name_distributed = false /\
  exclusion_of_candidates 0
    (logging (VotesAfterSurplus (candidates repeated_name_distributed))
       repeated_name_distributed) = Ok repeated_name_excluded /\
  exists x,
    In x (candidates repeated_name_distributed) /\
    hd_error (log repeated_name_excluded)
    = Some (Excluding (Candidate.name x)) /\
    (Candidate.total_value x < quota repeated_name_distributed)%Q /\
    ~ In (Candidate.name x) (provisional_winners repeated_name_distributed) /\
    forall n, In n (provisional_winners repeated_name_distributed) ->
              In n (map Candidate.name (candidates repeated_name_excluded)).
Proof.
  assert (H1 : reachable 1 ballots_repeated_name InRound []
                 repeated_name_distributed).
  { eapply reach_distribution with (round_nr := 1%nat);
      [apply reach_init | step_by_computation | step_by_computation]. }
  assert (H2 : check_all_vacancies_filled repeated_name_distributed = false)
    by (vm_compute; reflexivity).
  assert (H3 : exclusion_of_candidates 0
                 (logging (VotesAfterSurplus
                             (candidates repeated_name_distributed))
                    repeated_name_distributed) = Ok repeated_name_excluded)
    by (vm_compute; reflexivity).
  split; [exact H1|]. split; [exact H2|]. split; [exact H3|].
  exact (exclusion_spares_winners 1 ballots_repeated_name [] 0%nat
           repeated_name_distributed repeated_name_excluded H1 H2 H3).
Defined.

(** ** The quota in whole numbers *)

Lemma Qfloor_quotient (n d : Z) :
  (0 < d)%Z -> Qfloor (inject_Z n / inject_Z d) = (n / d)%Z.
Proof.
  intro Hd. destruct d as [|p|p]; try lia.
  assert (E : (inject_Z n / inject_Z (Z.pos p) == n # p)%Q).
  { unfold Qeq, Qdiv, Qmult, Qinv, inject_Z. cbn. lia. }
  rewrite E. reflexivity.
Qed.

Lemma reachable_whole_quota (vac : Z) (ballots : list (Z * list string))
  (p : phase) (done : list string) (s : State) :
  reachable vac ballots p done s ->
  p = InRound ->
  (forall v, In v (votes s) -> Vote.preference v <> []) /\
  (total_votes s == inject_Z (Z.of_nat (length (votes s))))%Q /\
  (quota s == inject_Z (Z.of_nat (length (votes s)) / (1 + vac) + 1))%Q.
Proof.
  intro H. induction H as [|round_nr done s s' Hr _ Hnf Hd
                            |done s c s' Hr IH _ _ _ Hc
                            |]; intro Hp; try discriminate Hp.
  - destruct (reachable_names _ _ _ _ _ Hr) as (_ & _ & Hvac).
    apply not_filled in Hnf. destruct Hnf as [_ Hfew].
    pose proof (distribution_inv _ _ Hd)
      as (_ & Hv & _ & _ & Hvs & Ht & Hq & _).
    fields.
    assert (Hlen : (total_votes s' == inject_Z (Z.of_nat (length (votes s'))))%Q).
    { rewrite Ht, Hvs, Qsum_ones, length_map. reflexivity. }
    split; [|split; [exact Hlen|]].
    + intros v' Hv'. rewrite Hvs in Hv'. apply in_map_iff in Hv'.
      destruct Hv' as (v & <- & Hin). apply filter_In in Hin.
      destruct Hin as [_ Hex]. unfold exhausted in Hex.
      cbn [set_value Vote.preference].
      destruct (Vote.preference v); [discriminate Hex | discriminate].
    + rewrite Hq, Hv, Hvac, Hlen, Qfloor_quotient; [|lia].
      rewrite inject_Z_plus. reflexivity.
  - destruct (IH eq_refl) as (Hpref & Ht & Hq).
    pose proof (calc_post _ _ Hc) as (_ & Hq' & Ht' & _ & _ & Hids & _).
    assert (Hlen : length (votes s') = length (votes s))
      by (rewrite <- (length_map Vote.id (votes s')), Hids; apply length_map).
    rewrite Hq', Ht', Hlen. split; [|now split].
    apply calc_inv in Hc. destruct Hc as (x & s1 & _ & _ & Htr & ->).
    pose proof (transfer_spec _ _ _ _ Htr)
      as (_ & _ & _ & _ & _ & _ & _ & Hsame & _).
    fields. intros v' Hv'. destruct (Hsame v' Hv') as (v & Hv & ->).
    now apply Hpref.
Qed.

(** X20.  Throughout a round, [total_votes] is the number of votes in
    [self.votes], none of which is exhausted, and the quota is the whole
    number [n // (vacancies + 1) + 1] for that number [n]: surplus
    distributions scale the values of votes but leave [total_votes] and
    the quota of the round as they are. *)
Theorem quota_counts_active_ballots (vac : Z) (ballots : list (Z * list string))
  (done : list string) (s : State) :
  reachable vac ballots InRound done s ->
  (forall v, In v (votes s) -> Vote.preference v <> []) /\
  (total_votes s == inject_Z (Z.of_nat (length (votes s))))%Q /\
  (quota s == inject_Z (Z.of_nat (length (votes s)) / (1 + vac) + 1))%Q.
Proof.
  intro Hr. exact (reachable_whole_quota vac ballots InRound done s Hr eq_refl).
Qed.

Lemma quota_counts_active_ballots_witness :
  reachable 3 ballots_two_surpluses InRound ["B"%string] two_surpluses_first /\
  (forall v, In v (votes two_surpluses_first) -> Vote.preference v <> []) /\
  (total_votes two_surpluses_first
   == inject_Z (Z.of_nat (length (votes two_surpluses_first))))%Q /\
  (quota two_surpluses_first
   == inject_Z (Z.of_nat (length (votes two_surpluses_first)) / (1 + 3) + 1))%Q.
Proof.
  assert (H := two_surpluses_reachable).
  split; [exact H|].
  exact (quota_counts_active_ballots 3 ballots_two_surpluses ["B"%string]
           two_surpluses_first H).
Defined.

(** ** Where the votes of a surplus go *)

Lemma routed_head (vs : list Vote.t) (pw : list string) (i : Z)
  (rest : list Z) (vote : Vote.t) (r : Q) (c fc c' : Candidate.t) :
  ~ In i rest ->
  find (has_id i) vs = Some vote ->
  Candidate.name fc = Candidate.name c ->
  (forall j, In j (Candidate.votes fc) <->
             In j (Candidate.votes c) \/
             (j = i /\
              Vote.get_preference_excluding vote pw = Some (Candidate.name c))) ->
  routed (update_vote (set_value (Vote.value vote * r)%Q vote) vs) pw rest fc c' ->
  routed vs pw (i :: rest) c c'.
Proof.
  intros Hi Hf Hn Hfc [Hn' Hiff].
  pose proof (find_has_id _ _ _ Hf) as [_ Hid].
  assert (Hother : forall j, In j rest ->
            find (has_id j)
                 (update_vote (set_value (Vote.value vote * r)%Q vote) vs)
            = find (has_id j) vs).
  { intros j Hj. apply find_update_other. cbn [set_value Vote.id].
    rewrite Hid. intros ->. contradiction. }
  split; [congruence|]. intro j. rewrite Hiff, Hfc, Hn. split.
  - intros [[H|[-> Hg]]|(Hj & v & Hv & Hg)].
    + now left.
    + right. split; [now left|]. now exists vote.
    + right. split; [now right|]. exists v. rewrite <- (Hother j Hj). now split.
  - intros [H|([<-|Hj] & v & Hv & Hg)].
    + left. now left.
    + left. right. split; [reflexivity|]. congruence.
    + right. split; [exact Hj|]. exists v. rewrite (Hother j Hj). now split.
Qed.

Lemma routed_through (R R' : Candidate.t -> Candidate.t -> Prop)
  (f : Candidate.t -> Candidate.t) (cs cs' : list Candidate.t) :
  (forall c c', In c cs -> R (f c) c' -> R' c c') ->
  Forall2 R (map f cs) cs' -> Forall2 R' cs cs'.
Proof.
  revert cs'. induction cs as [|c cs IH]; intros cs' Himp H;
    cbn [map] in H; inversion H; subst; constructor.
  - apply Himp; [now left | assumption].
  - apply IH; [|assumption]. intros c0 c0' Hc0. apply Himp. now right.
Qed.

Lemma transfer_routes (todo : list Z) (r : Q) (s s' : State) :
  NoDup todo ->
  transfer todo r s = Ok s' ->
  Forall2 (routed (votes s) (provisional_winners s) todo)
          (candidates s) (candidates s').
Proof.
  revert s. induction todo as [|i rest IH]; intros s Hnd H.
  - injection H as <-. induction (candidates s) as [|c cs IHc]; constructor;
      [|exact IHc].
    split; [reflexivity|]. intro j. split; [now left|].
    intros [Hj|([] & _)]. exact Hj.
  - apply NoDup_cons_iff in Hnd. destruct Hnd as [Hi Hnd].
    rewrite transfer_cons in H.
    destruct (find (has_id i) (votes s)) as [vote|] eqn:Ef; [|discriminate].
    cbv zeta in H. fields.
    pose proof (find_has_id _ _ _ Ef) as [_ Hid].
    change (Vote.get_preference_excluding
              (set_value (Vote.value vote * r)%Q vote) (provisional_winners s))
      with (Vote.get_preference_excluding vote (provisional_winners s)) in H.
    destruct (Vote.get_preference_excluding vote (provisional_winners s))
      as [n|] eqn:Eg.
    + unfold bind in H.
      destruct (alloc_vote n _ _) as [s1|] eqn:Ea; [|discriminate H].
      apply alloc_vote_inv in Ea. fields.
      destruct Ea as [[Hn ->] | (Hnot & _ & ->)]; apply IH in H; trivial; fields.
      * unfold alloc_in in H. revert H. apply routed_through.
        intros c c' _. apply routed_head; trivial.
        -- unfold has_name. now destruct (String.eqb n (Candidate.name c)).
        -- intro j. unfold has_name.
           destruct (String.eqb_spec n (Candidate.name c)) as [E|E].
           ++ cbn [Candidate.alloc_vote Candidate.votes set_value Vote.id].
              rewrite set_add_iff, Hid. split.
              ** intros [->|Hj]; [right | now left]. split; congruence.
              ** intros [Hj|[-> _]]; [now right | now left].
           ++ split; [now left|]. intros [Hj|[_ Hg]]; [exact Hj | congruence].
      * rewrite <- (map_id (candidates s)) in H at 1. revert H.
        apply routed_through. intros c c' Hc.
        apply routed_head; trivial.
        intro j. split; [now left|]. intros [Hj|[_ Hg]]; [exact Hj|].
        exfalso. apply Hnot. rewrite Eg in Hg. injection Hg as ->.
        now apply in_map.
    + apply IH in H; trivial. fields.
      rewrite <- (map_id (candidates s)) in H at 1. revert H.
      apply routed_through. intros c c' Hc.
      apply routed_head; trivial.
      intro j. split; [now left|]. intros [Hj|[_ Hg]]; [exact Hj | congruence].
Qed.

(** X21.  Where the votes of a surplus go.  A surplus distribution of the
    run removes no vote from any candidate's vote set, and it adds to the
    vote set of a candidate exactly those votes of the selected candidate
    whose first preference outside the provisional winners is that
    candidate. *)
Theorem surplus_votes_follow_preferences (vac : Z)
  (ballots : list (Z * list string)) (done : list string) (s s' : State)
  (x : Candidate.t) :
  NoDup (map fst ballots) ->
  reachable vac ballots InRound done s ->
  surplus_candidate s = Ok x ->
  calc_and_distribute_surplus s = Ok s' ->
  Forall2 (fun c c' =>
             Candidate.name c' = Candidate.name c /\
             forall i,
               In i (Candidate.votes c') <->
               In i (Candidate.votes c) \/
               (In i (Candidate.votes x) /\
                exists v, In v (votes s) /\ Vote.id v = i /\
                          Vote.get_preference_excluding
                            v (provisional_winners s)
                          = Some (Candidate.name c)))
          (candidates s) (candidates s').
Proof.
  intros Hnd Hr Hx H.
  destruct (reachable_inv vac ballots InRound done s Hnd Hr)
    as (_ & Hbooks & _).
  pose proof (surplus_candidate_undone done s x Hbooks Hx) as (_ & _ & _ & Hndv).
  destruct Hbooks as (Hids & _).
  apply calc_inv in H. destruct H as (x0 & s1 & Hx0 & _ & Ht & ->).
  rewrite Hx in Hx0. injection Hx0 as <-.
  apply transfer_routes in Ht; [|exact Hndv]. fields.
  unfold clamp.
  apply (Forall2_map_r _ (fun c =>
           if has_name (Candidate.name x) c
           then set_total_value (quota s1) c else c)) in Ht.
  revert Ht. apply Forall2_impl.
  intros c c' (c1 & [Hn Hiff] & ->).
  assert (Hkeep : Candidate.name
                    (if has_name (Candidate.name x) c1
                     then set_total_value (quota s1) c1 else c1)
                  = Candidate.name c1 /\
                  Candidate.votes
                    (if has_name (Candidate.name x) c1
                     then set_total_value (quota s1) c1 else c1)
                  = Candidate.votes c1)
    by (destruct (has_name (Candidate.name x) c1); now split).
  destruct Hkeep as [-> ->]. split; [exact Hn|].
  intro i. rewrite Hiff. split.
  - intros [Hi|(Hi & v & Hf & Hg)]; [now left | right].
    split; [exact Hi|]. exists v. apply find_has_id in Hf.
    destruct Hf as [Hv Hid]. now split.
  - intros [Hi|(Hi & v & Hv & Hid & Hg)]; [now left | right].
    split; [exact Hi|]. exists v. split; [|exact Hg].
    destruct (find_has_id_in i (votes s)) as (w & Hw).
    { rewrite <- Hid. now apply in_map. }
    pose proof (find_has_id _ _ _ Hw) as [Hwin Hwid].
    rewrite (vote_by_id_unique (votes s) v w Hids Hv Hwin); [exact Hw|].
    congruence.
Qed.

Lemma surplus_votes_follow_preferences_witness :
  NoDup (map fst ballots_one_surplus) /\
  reachable 2 ballots_one_surplus InRound [] one_surplus_distributed /\
  surplus_candidate one_surplus_distributed = Ok one_surplus_candidate /\
  calc_and_distribute_surplus one_surplus_distributed
  = Ok one_surplus_transferred /\
  Forall2 (fun c c' =>
             Candidate.name c' = Candidate.name c /\
             forall i,
               In i (Candidate.votes c') <->
               In i (Candidate.votes c) \/
               (In i (Candidate.votes one_surplus_candidate) /\
                exists v, In v (votes one_surplus_distributed) /\
                          Vote.id v = i /\
                          Vote.get_preference_excluding
                            v (provisional_winners one_surplus_distributed)
                          = Some (Candidate.name c)))
          (candidates one_surplus_distributed)
          (candidates one_surplus_transferred).
Proof.
  assert (H1 : NoDup (map fst ballots_one_surplus)) by nodup_by_computation.
  assert (H2 := proj1 one_surplus_reachable).
  assert (H3 : surplus_candidate one_surplus_distributed
               = Ok one_surplus_candidate) by (vm_compute; reflexivity).
  assert (H4 : calc_and_distribute_surplus one_surplus_distributed
               = Ok one_surplus_transferred) by (vm_compute; reflexivity).
  split; [exact H1|]. split; [exact H2|]. split; [exact H3|].
  split; [exact H4|].
  exact (surplus_votes_follow_preferences 2 ballots_one_surplus []
           one_surplus_distributed one_surplus_transferred
           one_surplus_candidate H1 H2 H3 H4).
Defined.

(** ** When the lot decides *)

(** X22.  The draw matters only on a tie: when a single candidate holds the
    least [total_value], [exclusion_of_candidates] returns the same state
    for every outcome of [random.choice]; it excludes that candidate and
    logs no lot warning. *)
Theorem exclusion_without_tie (draw draw' : nat) (s : State) (x : Candidate.t) :
  minimum_votes s = Ok [x] ->
  exclusion_of_candidates draw s = exclusion_of_candidates draw' s /\
  exists s',
    exclusion_of_candidates draw s = Ok s' /\
    log s' = Excluding (Candidate.name x) :: log s /\
    length (candidates s) = S (length (candidates s')).
Proof.
  intro Hm. split.
  - rewrite (exclusion_single_minimum draw s x Hm).
    now rewrite (exclusion_single_minimum draw' s x Hm).
  - destruct (minimum_votes_least s [x] Hm x (or_introl eq_refl)) as [Hin _].
    destruct (exclusion_ok draw s) as (s' & He).
    { intro E. rewrite E in Hin. contradiction. }
    exists s'. split; [exact He|].
    apply exclusion_inv in He.
    destruct He as (minimum & excluded & obj & rest & He).
    destruct He as (Hm' & Hc & Hp & Hcs & _ & _ & _ & _ & _ & _ & Hl).
    rewrite Hm in Hm'. injection Hm' as <-.
    apply choice_in in Hc. destruct Hc as [<-|[]].
    split; [exact Hl|]. rewrite Hcs.
    now apply pop_key_spec in Hp.
Qed.

Lemma exclusion_without_tie_witness :
  minimum_votes repeated_name_distributed
  = Ok [nth 0 (candidates repeated_name_distributed) (Candidate.new "")] /\
  exclusion_of_candidates 0 repeated_name_distributed
  = exclusion_of_candidates 7 repeated_name_distributed.
Proof.
  assert (H : minimum_votes repeated_name_distributed
              = Ok [nth 0 (candidates repeated_name_distributed)
                      (Candidate.new "")])
    by (vm_compute; reflexivity).
  split; [exact H|].
  exact (proj1 (exclusion_without_tie 0 7 repeated_name_distributed _ H)).
Defined.

(** ** The quota from round to round *)

Lemma reachable_votes_count (vac : Z) (ballots : list (Z * list string))
  (p : phase) (done : list string) (s : State) :
  reachable vac ballots p done s ->
  (length (votes s) <= length ballots)%nat /\ (p = InRound -> (1 <= vac)%Z).
Proof.
  intro H. induction H as [|round_nr done s s' Hr [IH _] Hnf Hd
                            |done s c s' _ [IH IHv] _ _ _ Hc
                            |draw done s s' _ [IH _] _ _ He].
  - destruct (fold_add_ballot_state ballots
                (mkState vac [] [] [] [] 0%Q 0%Q [])) as [Hvs _].
    fold (init vac ballots) in Hvs. cbn [votes app] in Hvs.
    rewrite Hvs, length_map. split; [lia | discriminate].
  - pose proof (distribution_inv _ _ Hd) as (_ & _ & _ & _ & Hvs & _).
    fields. split.
    + rewrite Hvs, length_map.
      pose proof (filter_length_le (fun v => negb (exhausted v)) (votes s)).
      lia.
    + intros _. destruct (reachable_names _ _ _ _ _ Hr) as (_ & _ & Hvac).
      apply not_filled in Hnf. lia.
  - pose proof (calc_post _ _ Hc) as (_ & _ & _ & _ & _ & Hids & _).
    split; [|exact IHv].
    rewrite <- (length_map Vote.id (votes s')), Hids, length_map. exact IH.
  - apply exclusion_inv in He.
    destruct He as (minimum & excluded & obj & rest & He).
    destruct He as (_ & _ & _ & _ & _ & Hvs & _). fields.
    split; [|discriminate]. now rewrite Hvs, length_map.
Qed.

(** X23.  No vote is ever added to [self.votes], so the quota of a round
    never exceeds the quota that the full set of ballots would give,
    [len(ballots) // (vacancies + 1) + 1]; inside a round there is at
    least one vacancy. *)
Theorem quota_never_above_initial (vac : Z) (ballots : list (Z * list string))
  (done : list string) (s : State) :
  reachable vac ballots InRound done s ->
  (length (votes s) <= length ballots)%nat /\
  (1 <= vac)%Z /\
  (quota s <= inject_Z (Z.of_nat (length ballots) / (1 + vac) + 1))%Q.
Proof.
  intro Hr.
  destruct (reachable_votes_count _ _ _ _ _ Hr) as [Hlen Hvac].
  destruct (reachable_whole_quota _ _ _ _ _ Hr eq_refl) as (_ & _ & Hq).
  specialize (Hvac eq_refl).
  split; [exact Hlen|]. split; [exact Hvac|].
  rewrite Hq, <- Zle_Qle. apply Z.add_le_mono_r.
  apply Z.div_le_mono; lia.
Qed.

Lemma quota_never_above_initial_witness :
  reachable 1 ballots_repeated_name InRound [] repeated_name_second_round /\
  (length (votes repeated_name_second_round)
   <= length ballots_repeated_name)%nat /\
  (1 <= 1)%Z /\
  (quota repeated_name_second_round
   <= inject_Z (Z.of_nat (length ballots_repeated_name) / (1 + 1) + 1))%Q.
Proof.
  assert (H := repeated_name_reachable).
  split; [exact H|].
  exact (quota_never_above_initial 1 ballots_repeated_name []
           repeated_name_second_round H).
Defined.
